(** * The questionnaire form route [app/routes/form-json.tsx]

    A shallow embedding of the route module: the two zod schemas, the
    [loader], the [action] and the pure parts of the [FormJson],
    [QuestionEditor] and [RadioOptionEditor] components, together with the
    behaviour of the library calls they make (zod's [safeParse], lodash's
    [get], [set] and [isEmpty], qs's [parse] with [allowDots], and the
    [append] of react-hook-form's field arrays). *)

From Stdlib Require Import String Ascii List Bool Arith Lia.
From Stdlib Require Import DecimalString DecimalNat.
Import ListNotations.
Open Scope string_scope.

(** ** JavaScript values *)

Module JS.

(** The values that flow through the route.  Arrays and plain objects are
    both property lists keyed by strings, as in JavaScript; [isArray] tells
    them apart.  A property list is kept in JavaScript's own-key order:
    array-index keys in ascending order first, then the other keys in order
    of creation.  Strings are sequences of 8-bit code units. *)
#[local] Unset Elimination Schemes.
Inductive value : Type :=
| VUndefined
| VNull
| VBool (b : bool)
| VNum (n : nat)
| VStr (s : string)
| VObj (isArray : bool) (props : list (string * value)).
#[local] Set Elimination Schemes.

Definition props_t := list (string * value).

(** Induction principle that reaches the values stored in a property list. *)
Fixpoint value_ind' (P : value -> Prop)
  (Hundef : P VUndefined) (Hnull : P VNull)
  (Hbool : forall b, P (VBool b)) (Hnum : forall n, P (VNum n))
  (Hstr : forall s, P (VStr s))
  (Hobj : forall a props, Forall (fun kv => P (snd kv)) props -> P (VObj a props))
  (v : value) {struct v} : P v :=
  match v with
  | VUndefined => Hundef
  | VNull => Hnull
  | VBool b => Hbool b
  | VNum n => Hnum n
  | VStr s => Hstr s
  | VObj a props =>
      Hobj a props
        ((fix go (ps : props_t) : Forall (fun kv => P (snd kv)) ps :=
            match ps with
            | [] => Forall_nil _
            | kv :: ps' =>
                Forall_cons kv
                  (value_ind' P Hundef Hnull Hbool Hnum Hstr Hobj (snd kv))
                  (go ps')
            end) props)
  end.

(** [String(n)] for a non-negative integer. *)
Definition string_of_nat (n : nat) : string :=
  NilEmpty.string_of_uint (Nat.to_uint n).

(** The array index a property key denotes: the key must be the canonical
    decimal numeral of a number ([String(parseInt(k, 10)) === k]).  The
    2^32 - 1 ceiling of JavaScript is left out: no array of this route
    comes near it. *)
Definition array_index (k : string) : option nat :=
  match NilEmpty.uint_of_string k with
  | Some d =>
      let n := Nat.of_uint d in
      if String.eqb (string_of_nat n) k then Some n else None
  | None => None
  end.

Definition is_array_index (k : string) : bool :=
  match array_index k with Some _ => true | None => false end.

(** [Object.prototype.hasOwnProperty] together with the value read. *)
Fixpoint own_get (k : string) (props : props_t) : option value :=
  match props with
  | [] => None
  | (k', v) :: rest => if String.eqb k k' then Some v else own_get k rest
  end.

Definition has_own (k : string) (props : props_t) : bool :=
  match own_get k props with Some _ => true | None => false end.

(** Does key [k] come before key [k'] in own-key order when [k] is new? *)
Definition key_before (k k' : string) : bool :=
  match array_index k, array_index k' with
  | Some i, Some j => Nat.ltb i j
  | Some _, None => true
  | None, _ => false
  end.

(** [obj[k] = v]: an existing property keeps its place, a new one goes to
    its place in own-key order. *)
Fixpoint own_set (k : string) (v : value) (props : props_t) : props_t :=
  match props with
  | [] => [(k, v)]
  | (k', v') :: rest =>
      if String.eqb k k' then (k, v) :: rest
      else if key_before k k' then (k, v) :: (k', v') :: rest
      else (k', v') :: own_set k v rest
  end.

(** [length] of an array: one more than its largest index. *)
Fixpoint array_length (props : props_t) : nat :=
  match props with
  | [] => 0
  | (k, _) :: rest =>
      match array_index k with
      | Some i => Nat.max (S i) (array_length rest)
      | None => array_length rest
      end
  end.

(** The element at index [i], [undefined] for a hole. *)
Definition array_item (props : props_t) (i : nat) : value :=
  match own_get (string_of_nat i) props with
  | Some v => v
  | None => VUndefined
  end.

(** The elements [0 .. length-1], what iterating over a spread array sees. *)
Definition array_items (props : props_t) : list value :=
  map (array_item props) (seq 0 (array_length props)).

(** An array literal [[v0, v1, ...]]. *)
Fixpoint array_props (start : nat) (items : list value) : props_t :=
  match items with
  | [] => []
  | v :: rest => (string_of_nat start, v) :: array_props (S start) rest
  end.

Definition js_array (items : list value) : value :=
  VObj true (array_props 0 items).

(** An object literal whose keys are written in own-key order. *)
Definition js_object (props : props_t) : value := VObj false props.

(** The character of [s] at position [i], as a one-character string. *)
Definition char_at (s : string) (i : nat) : option string :=
  match String.get i s with
  | Some c => Some (String c EmptyString)
  | None => None
  end.

(** The member access [v[k]] on a value that is neither [undefined] nor
    [null].  Only own properties and the [length] and index members of
    strings and arrays are modelled; members inherited from the built-in
    prototypes ([toString], [constructor], ...) read as [undefined]. *)
Definition member (v : value) (k : string) : value :=
  match v with
  | VObj a props =>
      match own_get k props with
      | Some x => x
      | None => if a && String.eqb k "length" then VNum (array_length props)
                else VUndefined
      end
  | VStr s =>
      if String.eqb k "length" then VNum (String.length s)
      else match array_index k with
           | Some i => match char_at s i with
                       | Some c => VStr c
                       | None => VUndefined
                       end
           | None => VUndefined
           end
  | _ => VUndefined
  end.

(** [v == null] *)
Definition is_nullish (v : value) : bool :=
  match v with VUndefined | VNull => true | _ => false end.

(** The member access [v.k] as an expression: it throws a [TypeError]
    (here [None]) on [undefined] and [null]. *)
Definition read_member (v : value) (k : string) : option value :=
  if is_nullish v then None else Some (member v k).

(** The optional chain [v?.k]. *)
Definition opt_member (v : value) (k : string) : value :=
  if is_nullish v then VUndefined else member v k.

(** [ToBoolean]. *)
Definition truthy (v : value) : bool :=
  match v with
  | VUndefined | VNull => false
  | VBool b => b
  | VNum n => negb (Nat.eqb n 0)
  | VStr s => negb (String.eqb s "")
  | VObj _ _ => true
  end.

(** [typeof v === 'object'] (which [null] satisfies too). *)
Definition typeof_object (v : value) : bool :=
  match v with VNull | VObj _ _ => true | _ => false end.

(** lodash's [isObject]: a value that can carry properties. *)
Definition isObject (v : value) : bool :=
  match v with VObj _ _ => true | _ => false end.

End JS.
Export JS.

(** ** zod: schemas and [safeParse] *)

Module Zod.

(** A segment of an issue path: an object key or an array position. *)
Inductive seg : Type :=
| SKey (k : string)
| SIdx (i : nat).

Definition path := list seg.

(** zod's [getParsedType], as far as the values above go. *)
Inductive parsed_type : Type :=
| TUndefined | TNull | TBoolean | TNumber | TString | TArray | TObject.

Definition getParsedType (v : value) : parsed_type :=
  match v with
  | VUndefined => TUndefined
  | VNull => TNull
  | VBool _ => TBoolean
  | VNum _ => TNumber
  | VStr _ => TString
  | VObj true _ => TArray
  | VObj false _ => TObject
  end.

Definition type_name (t : parsed_type) : string :=
  match t with
  | TUndefined => "undefined"
  | TNull => "null"
  | TBoolean => "boolean"
  | TNumber => "number"
  | TString => "string"
  | TArray => "array"
  | TObject => "object"
  end.

(** The issue codes the two schemas can raise, with the data zod attaches. *)
Inductive issue_code : Type :=
| invalid_type (expected : string) (received : parsed_type)
| invalid_enum_value (options : list string) (received : string)
| too_small (minimum : nat).

Record issue : Type := mkIssue {
  code : issue_code;
  issue_path : path;
  message : string
}.

(** [joinValues]: the quoted options separated by [ | ]. *)
Fixpoint joinValues (vs : list string) : string :=
  match vs with
  | [] => ""
  | [v] => "'" ++ v ++ "'"
  | v :: rest => "'" ++ v ++ "' | " ++ joinValues rest
  end.

(** zod's default error map, for the codes above. *)
Definition defaultErrorMap (c : issue_code) : string :=
  match c with
  | invalid_type _ TUndefined => "Required"
  | invalid_type expected received =>
      "Expected " ++ expected ++ ", received " ++ type_name received
  | invalid_enum_value options received =>
      "Invalid enum value. Expected " ++ joinValues options
        ++ ", received '" ++ received ++ "'"
  | too_small minimum =>
      "String must contain at least " ++ string_of_nat minimum
        ++ " character(s)"
  end.

Definition invalid_type_issue (p : path) (expected : string) (v : value) : issue :=
  let c := invalid_type expected (getParsedType v) in
  mkIssue c p (defaultErrorMap c).

(** A [min] check on a string, with its optional custom message. *)
Record string_check : Type := mkMin {
  min_length : nat;
  check_message : option string
}.

(** The schema combinators the route uses. *)
#[local] Unset Elimination Schemes.
Inductive schema : Type :=
| ZString (checks : list string_check)
| ZEnum (values : list string)
| ZArray (element : schema)
| ZObject (shape : list (string * schema))
| ZOptional (inner : schema).
#[local] Set Elimination Schemes.

(** Induction principle that reaches the schemas of an object's fields. *)
Fixpoint schema_ind' (P : schema -> Prop)
  (Hstring : forall checks, P (ZString checks))
  (Henum : forall values, P (ZEnum values))
  (Harray : forall element, P element -> P (ZArray element))
  (Hobject : forall shape, Forall (fun kf => P (snd kf)) shape -> P (ZObject shape))
  (Hoptional : forall inner, P inner -> P (ZOptional inner))
  (s : schema) {struct s} : P s :=
  match s with
  | ZString checks => Hstring checks
  | ZEnum values => Henum values
  | ZArray element =>
      Harray element (schema_ind' P Hstring Henum Harray Hobject Hoptional element)
  | ZObject shape =>
      Hobject shape
        ((fix go (sh : list (string * schema)) : Forall (fun kf => P (snd kf)) sh :=
            match sh with
            | [] => Forall_nil _
            | kf :: sh' =>
                Forall_cons kf
                  (schema_ind' P Hstring Henum Harray Hobject Hoptional (snd kf))
                  (go sh')
            end) shape)
  | ZOptional inner =>
      Hoptional inner (schema_ind' P Hstring Henum Harray Hobject Hoptional inner)
  end.

(** [z.string().nonempty(message)], which is [min(1, message)]. *)
Definition string_nonempty (msg : string) : schema :=
  ZString [mkMin 1 (Some msg)].

Definition run_check (p : path) (s : string) (c : string_check) : list issue :=
  if Nat.ltb (String.length s) (min_length c) then
    [mkIssue (too_small (min_length c)) p
       (match check_message c with
        | Some m => m
        | None => defaultErrorMap (too_small (min_length c))
        end)]
  else [].

(** [map] with the position of each element. *)
Fixpoint mapi {A B : Type} (f : nat -> A -> B) (start : nat) (l : list A) : list B :=
  match l with
  | [] => []
  | x :: rest => f start x :: mapi f (S start) rest
  end.

(** The issues [schema._parse] adds for the value [v] found at path [p].
    Every field of an object and every element of an array is visited, in
    order; nothing stops at the first issue.  Unknown keys of an object are
    stripped silently.  An enumeration checks the type of its input first,
    as the later releases of zod 3 do. *)
Fixpoint parse (s : schema) (p : path) (v : value) {struct s} : list issue :=
  match s with
  | ZString checks =>
      match v with
      | VStr str => flat_map (run_check p str) checks
      | _ => [invalid_type_issue p "string" v]
      end
  | ZEnum values =>
      match v with
      | VStr str =>
          if existsb (String.eqb str) values then []
          else let c := invalid_enum_value values str in
               [mkIssue c p (defaultErrorMap c)]
      | _ => [invalid_type_issue p (joinValues values) v]
      end
  | ZArray element =>
      match v with
      | VObj true props =>
          concat (mapi (fun i item => parse element (p ++ [SIdx i])%list item)
                       0 (array_items props))
      | _ => [invalid_type_issue p "array" v]
      end
  | ZObject shape =>
      match v with
      | VObj false _ =>
          (fix fields (sh : list (string * schema)) : list issue :=
             match sh with
             | [] => []
             | (k, fs) :: sh' =>
                 (parse fs (p ++ [SKey k]) (member v k) ++ fields sh')%list
             end) shape
      | _ => [invalid_type_issue p "object" v]
      end
  | ZOptional inner =>
      match v with
      | VUndefined => []
      | _ => parse inner p v
      end
  end.

(** The result of [schema.safeParse].  The [data] of a success is never
    read by the route and is left out. *)
Inductive SafeParseReturnType : Type :=
| SafeParseSuccess
| SafeParseError (issues : list issue).

Definition safeParse (s : schema) (v : value) : SafeParseReturnType :=
  match parse s [] v with
  | [] => SafeParseSuccess
  | issues => SafeParseError issues
  end.

Definition success (r : SafeParseReturnType) : bool :=
  match r with SafeParseSuccess => true | SafeParseError _ => false end.

End Zod.
Export Zod.

(** ** The schemas and the loader of the route *)

Definition questionSchema : schema :=
  ZObject
    [ ("name", string_nonempty "Name required");
      ("type", ZEnum ["TEXT"; "NUMBER"; "RADIOLIST"]);
      ("options",
        ZOptional (ZArray (ZObject [("label", string_nonempty "Label required")]))) ].

Definition formSchema : schema :=
  ZObject
    [ ("title", string_nonempty "Title required");
      ("questions", ZArray questionSchema) ].

(** The template the loader serves. *)
Definition template : value :=
  js_object
    [ ("questions",
        js_array
          [ js_object [("name", VStr "What is your name?"); ("type", VStr "TEXT")];
            js_object [("name", VStr "How old are you?"); ("type", VStr "NUMBER")];
            js_object [("name", VStr "What is your favorite framework?");
                       ("type", VStr "RADIOLIST")] ]) ].

Definition loader : value := js_object [("template", template)].

(** ** Scanning strings *)

Module Chars.

Definition is_digit (c : ascii) : bool :=
  let n := nat_of_ascii c in Nat.leb 48 n && Nat.leb n 57.

Definition dot : ascii := "."%char.
Definition lbracket : ascii := "["%char.
Definition rbracket : ascii := "]"%char.

Definition is_bracket (c : ascii) : bool :=
  Ascii.eqb c lbracket || Ascii.eqb c rbracket.

(** The longest prefix whose characters satisfy [f], and what follows it. *)
Fixpoint span (f : ascii -> bool) (cs : list ascii) : list ascii * list ascii :=
  match cs with
  | [] => ([], [])
  | c :: rest =>
      if f c then let (run, tl) := span f rest in (c :: run, tl)
      else ([], cs)
  end.

Definition str (cs : list ascii) : string := string_of_list_ascii cs.
Definition chars (s : string) : list ascii := list_ascii_of_string s.

End Chars.

(** ** lodash: [set], [get] and [isEmpty] *)

Module Lodash.
Import Chars.

(** [toKey]: the property key a path segment stands for. *)
Definition toKey (s : seg) : string :=
  match s with
  | SKey k => k
  | SIdx i => string_of_nat i
  end.

(** [isIndex]: a number, or a string that is a decimal numeral without a
    leading zero (lodash's [reIsUint]).  The ceiling [MAX_SAFE_INTEGER] is
    left out. *)
Definition isIndex (s : seg) : bool :=
  match s with
  | SIdx _ => true
  | SKey k => is_array_index k
  end.

(** The keys [baseSet] refuses to walk through. *)
Definition unsafe_key (k : string) : bool :=
  String.eqb k "__proto__" || String.eqb k "constructor" || String.eqb k "prototype".

(** [baseSet(nested, path, value)]: walk the path, keeping the objects that
    are already there and creating an array or an object, by the kind of
    the next segment, where there is none; assign the value at the last
    segment.  The model is that of lodash on keys that are field names of
    the schemas or array positions, the keys of every path the route
    hands to [set].  Outside it are the assignment to the [length] of an
    array, which JavaScript treats specially, and the members an object
    inherits from a built-in prototype, which lodash walks into and the
    model reads as absent. *)
Fixpoint baseSet (nested : value) (p : path) (v : value) {struct p} : value :=
  match nested, p with
  | VObj a props, s :: rest =>
      let key := toKey s in
      if unsafe_key key then nested
      else
        match rest with
        | [] => VObj a (own_set key v props)
        | next :: _ =>
            let objValue := member nested key in
            let newValue :=
              if isObject objValue then objValue
              else if isIndex next then VObj true []
              else VObj false [] in
            VObj a (own_set key (baseSet newValue rest v) props)
        end
  | _, _ => nested
  end.

(** [set(object, path, value)] for an array path; the object is returned
    (in JavaScript it is updated in place). *)
Definition set (object : value) (p : path) (v : value) : value :=
  if is_nullish object then object else baseSet object p v.

(** The number alternative of [rePropName]: after an opening bracket, an
    optional sign, digits, an optional fraction and the closing bracket.
    Returns the number's text and how many characters it and the bracket
    take. *)
Definition number_group (cs : list ascii) : option (string * nat) :=
  let (sign, cs1) :=
    match cs with
    | c :: tl => if Ascii.eqb c "-"%char then ([c], tl) else ([], cs)
    | [] => ([], cs)
    end in
  let (int, cs2) := span is_digit cs1 in
  match int with
  | [] => None
  | _ =>
      let (frac, cs3) :=
        match cs2 with
        | c :: tl =>
            if Ascii.eqb c dot then
              let (fd, tl') := span is_digit tl in
              match fd with
              | [] => ([], cs2)
              | _ => (c :: fd, tl')
              end
            else ([], cs2)
        | [] => ([], cs2)
        end in
      match cs3 with
      | c :: _ =>
          if Ascii.eqb c rbracket then
            let num := (sign ++ int ++ frac)%list in
            Some (str num, S (List.length num))
          else None
      | [] => None
      end
  end.

(** The empty alternative of [rePropName] at a delimiter [c] followed by
    [rest]: a dot or an empty pair of brackets, followed by a dot, an empty
    pair of brackets or the end of the string. *)
Definition empty_key_here (c : ascii) (rest : list ascii) : bool :=
  let after :=
    if Ascii.eqb c dot then Some rest
    else if Ascii.eqb c lbracket then
      match rest with
      | c' :: tl => if Ascii.eqb c' rbracket then Some tl else None
      | [] => None
      end
    else None in
  match after with
  | Some [] => true
  | Some (c1 :: tl) =>
      Ascii.eqb c1 dot
      || (Ascii.eqb c1 lbracket
          && match tl with c2 :: _ => Ascii.eqb c2 rbracket | [] => false end)
  | None => false
  end.

Definition flush (run : list ascii) : list string :=
  match run with
  | [] => []
  | _ => [str (rev run)]
  end.

(** The matches of [rePropName] from left to right.  [run] is the run of
    plain characters read so far (reversed), [skip] counts the characters
    of a bracketed number still to pass over.  Quoted keys inside brackets
    are not modelled. *)
Fixpoint scanPath (cs : list ascii) (run : list ascii) (skip : nat) : list string :=
  match cs with
  | [] => flush run
  | c :: rest =>
      match skip with
      | S k => scanPath rest run k
      | O =>
          if Ascii.eqb c dot || is_bracket c then
            (flush run ++
             match (if Ascii.eqb c lbracket then number_group rest else None) with
             | Some (num, len) => num :: scanPath rest [] len
             | None =>
                 (if empty_key_here c rest then [""] else [])
                   ++ scanPath rest [] 0
             end)%list
          else scanPath rest (c :: run) 0
      end
  end.

(** [stringToPath]. *)
Definition stringToPath (s : string) : list string :=
  let cs := chars s in
  ((match cs with
    | c :: _ => if Ascii.eqb c dot then [""] else []
    | [] => []
    end) ++ scanPath cs [] 0)%list.

(** [reIsPlainProp]: only word characters. *)
Definition is_word_char (c : ascii) : bool :=
  let n := nat_of_ascii c in
  is_digit c || (Nat.leb 65 n && Nat.leb n 90) || (Nat.leb 97 n && Nat.leb n 122)
  || Nat.eqb n 95.

(** Is there a bracket pair with no bracket inside? ([open] says whether a
    candidate opening bracket has been read.) *)
Fixpoint has_group (cs : list ascii) (open : bool) : bool :=
  match cs with
  | [] => false
  | c :: rest =>
      if Ascii.eqb c lbracket then has_group rest true
      else if Ascii.eqb c rbracket then open || has_group rest false
      else has_group rest open
  end.

(** [reIsDeepProp]: a dot, or a bracket pair. *)
Definition is_deep_prop (s : string) : bool :=
  existsb (Ascii.eqb dot) (chars s) || has_group (chars s) false.

(** [isKey(path, object)]: the string is one key, not a path. *)
Definition isKey (s : string) (object : value) : bool :=
  forallb is_word_char (chars s)
  || negb (is_deep_prop s)
  || match object with
     | VObj _ props => has_own s props
     | _ => false
     end.

(** [castPath] for a string path. *)
Definition castPath (s : string) (object : value) : list string :=
  if isKey s object then [s] else stringToPath s.

Fixpoint walk (object : value) (keys : list string) : value :=
  match keys with
  | [] => object
  | k :: rest =>
      if is_nullish object then VUndefined else walk (member object k) rest
  end.

(** [baseGet]: follow the keys while the value is neither [undefined] nor
    [null]; an empty path reads nothing. *)
Definition baseGet (object : value) (keys : list string) : value :=
  match keys with
  | [] => VUndefined
  | _ => walk object keys
  end.

(** [get(object, path)] for a string path, never throwing. *)
Definition get (object : value) (s : string) : value :=
  if is_nullish object then VUndefined else baseGet object (castPath s object).

(** [isEmpty]. *)
Definition isEmpty (v : value) : bool :=
  match v with
  | VUndefined | VNull => true
  | VBool _ | VNum _ => true
  | VStr s => Nat.eqb (String.length s) 0
  | VObj true props => Nat.eqb (array_length props) 0
  | VObj false props => match props with [] => true | _ => false end
  end.

End Lodash.

(** ** qs: [parse] with [allowDots] and the other options at their defaults *)

Module Qs.
Import Chars.

Definition arrayLimit : nat := 20.
Definition depth : nat := 5.
Definition parameterLimit : nat := 1000.

(** *** Decoding the text: [utils.decode] *)

Definition hex_value (c : ascii) : option nat :=
  let n := nat_of_ascii c in
  if is_digit c then Some (n - 48)
  else if Nat.leb 65 n && Nat.leb n 70 then Some (n - 55)
  else if Nat.leb 97 n && Nat.leb n 102 then Some (n - 87)
  else None.

(** For the first octet of a multi-octet UTF-8 sequence: how many octets
    follow, and the range the next one must lie in. *)
Definition utf8_lead (b : nat) : option (nat * nat * nat) :=
  if Nat.leb 194 b && Nat.leb b 223 then Some (1, 128, 191)
  else if Nat.eqb b 224 then Some (2, 160, 191)
  else if Nat.eqb b 237 then Some (2, 128, 159)
  else if Nat.leb 225 b && Nat.leb b 239 then Some (2, 128, 191)
  else if Nat.eqb b 240 then Some (3, 144, 191)
  else if Nat.leb 241 b && Nat.leb b 243 then Some (3, 128, 191)
  else if Nat.eqb b 244 then Some (3, 128, 143)
  else None.

Definition cons_opt (c : ascii) (r : option (list ascii)) : option (list ascii) :=
  match r with Some l => Some (c :: l) | None => None end.

(** [decodeURIComponent]; [None] is the [URIError] it throws on a malformed
    escape or on escapes that are not the UTF-8 encoding of a code point.
    [pending] counts the octets the current sequence still needs, and
    [lo], [hi] bound the next one. *)
Fixpoint decodeURIComponent (cs : list ascii) (pending lo hi : nat)
  : option (list ascii) :=
  match cs with
  | [] => if Nat.eqb pending 0 then Some [] else None
  | c :: rest =>
      if Ascii.eqb c "%"%char then
        match rest with
        | h1 :: h2 :: rest' =>
            match hex_value h1, hex_value h2 with
            | Some a, Some b =>
                let octet := 16 * a + b in
                match pending with
                | O =>
                    if Nat.ltb octet 128 then
                      cons_opt (ascii_of_nat octet) (decodeURIComponent rest' 0 0 0)
                    else
                      match utf8_lead octet with
                      | Some (n, lo', hi') =>
                          cons_opt (ascii_of_nat octet)
                                   (decodeURIComponent rest' n lo' hi')
                      | None => None
                      end
                | S k =>
                    if Nat.leb lo octet && Nat.leb octet hi then
                      cons_opt (ascii_of_nat octet)
                               (decodeURIComponent rest' k 128 191)
                    else None
                end
            | _, _ => None
            end
        | _ => None
        end
      else
        match pending with
        | O => cons_opt c (decodeURIComponent rest 0 0 0)
        | S _ => None
        end
  end.

(** [utils.decode]: pluses become spaces, then the escapes are decoded; a
    string that does not decode is kept as it is. *)
Definition decode (cs : list ascii) : string :=
  let strWithoutPlus :=
    map (fun c => if Ascii.eqb c "+"%char then " "%char else c) cs in
  match decodeURIComponent strWithoutPlus 0 0 0 with
  | Some d => str d
  | None => str strWithoutPlus
  end.

(** *** Splitting the text into pairs: [parseValues] *)

(** [str.split(delimiter)] on one character; [cur] is the piece being read,
    reversed. *)
Fixpoint split_on (d : ascii) (cs : list ascii) (cur : list ascii)
  : list (list ascii) :=
  match cs with
  | [] => [rev cur]
  | c :: rest =>
      if Ascii.eqb c d then rev cur :: split_on d rest []
      else split_on d rest (c :: cur)
  end.

(** [part.indexOf(']=')] *)
Fixpoint index_of_bracket_equals (cs : list ascii) : option nat :=
  match cs with
  | [] => None
  | c :: rest =>
      match rest with
      | c' :: _ =>
          if Ascii.eqb c rbracket && Ascii.eqb c' "="%char then Some 0
          else option_map S (index_of_bracket_equals rest)
      | [] => None
      end
  end.

(** [part.indexOf('=')] *)
Fixpoint index_of_equals (cs : list ascii) : option nat :=
  match cs with
  | [] => None
  | c :: rest =>
      if Ascii.eqb c "="%char then Some 0
      else option_map S (index_of_equals rest)
  end.

(** The decoded key and value of one part of the text. *)
Definition parse_part (part : list ascii) : string * string :=
  let pos :=
    match index_of_bracket_equals part with
    | Some i => Some (S i)
    | None => index_of_equals part
    end in
  match pos with
  | None => (decode part, "")
  | Some i => (decode (firstn i part), decode (skipn (S i) part))
  end.

(** The index-keyed properties of an array with their indices moved up by
    [offset]: how [concat] lays an array behind earlier elements. *)
Fixpoint shift_items (offset : nat) (props : props_t) : props_t :=
  match props with
  | [] => []
  | (k, v) :: rest =>
      match array_index k with
      | Some i => (string_of_nat (offset + i), v) :: shift_items offset rest
      | None => shift_items offset rest
      end
  end.

(** [utils.combine(a, b)], that is [[].concat(a, b)], for the value [b] of
    a repeated key. *)
Definition combine (a b : value) : value :=
  match a with
  | VObj true props =>
      VObj true (own_set (string_of_nat (array_length props)) b
                         (shift_items 0 props))
  | _ => js_array [a; b]
  end.

(** The loop of [parseValues] over the pairs: a repeated key collects its
    values in an array. *)
Definition collect (pairs : list (string * string)) : props_t :=
  fold_left
    (fun obj kv =>
       let (key, val) := kv : string * string in
       match own_get key obj with
       | Some old => own_set key (combine old (VStr val)) obj
       | None => own_set key (VStr val) obj
       end)
    pairs [].

Definition parseValues (text : string) : props_t :=
  collect (map parse_part
               (firstn parameterLimit (split_on "&"%char (chars text) []))).

(** *** From a key to a chain of segments: [parseKeys] *)

(** The names [Object.prototype] owns; a key made of one is dropped. *)
Definition prototype_names : list string :=
  [ "constructor"; "__defineGetter__"; "__defineSetter__"; "hasOwnProperty";
    "__lookupGetter__"; "__lookupSetter__"; "isPrototypeOf";
    "propertyIsEnumerable"; "toString"; "valueOf"; "__proto__";
    "toLocaleString" ].

Definition in_prototype (k : string) : bool :=
  existsb (String.eqb k) prototype_names.

Definition is_dot_or_open (c : ascii) : bool :=
  Ascii.eqb c dot || Ascii.eqb c lbracket.

(** The [allowDots] rewriting: every dot followed by a run of characters
    other than dots and opening brackets becomes that run in brackets.
    [open] tells that such a run is being copied. *)
Fixpoint dotsToBrackets (cs : list ascii) (open : bool) : list ascii :=
  match cs with
  | [] => if open then [rbracket] else []
  | c :: rest =>
      if open && negb (is_dot_or_open c) then c :: dotsToBrackets rest true
      else
        ((if open then [rbracket] else []) ++
         (if Ascii.eqb c dot
             && match rest with
                | c' :: _ => negb (is_dot_or_open c')
                | [] => false
                end
          then lbracket :: dotsToBrackets rest true
          else c :: dotsToBrackets rest false))%list
  end.

(** The bracket groups of a key from left to right, each with the position
    of its opening bracket and the text between its brackets: the matches
    of the pattern "an opening bracket, characters that are not brackets, a
    closing bracket".  [cur] is the group being read. *)
Fixpoint scanGroups (cs : list ascii) (pos : nat)
  (cur : option (nat * list ascii)) : list (nat * string) :=
  match cs with
  | [] => []
  | c :: rest =>
      if Ascii.eqb c lbracket then scanGroups rest (S pos) (Some (pos, []))
      else if Ascii.eqb c rbracket then
        match cur with
        | Some (start, acc) => (start, str (rev acc)) :: scanGroups rest (S pos) None
        | None => scanGroups rest (S pos) None
        end
      else
        scanGroups rest (S pos)
          (match cur with
           | Some (start, acc) => Some (start, c :: acc)
           | None => None
           end)
  end.

(** A link of the chain: the text before the first group, or a text taken
    from between brackets. *)
Inductive link : Type :=
| Parent (name : string)
| Child (name : string).

(** The chain of a key: the parent, at most [depth] groups, and whatever is
    left from the next group on as one last link.  [None] when the key is
    empty or one of its links names a member of [Object.prototype]. *)
Definition chain_of (givenKey : string) : option (list link) :=
  match givenKey with
  | EmptyString => None
  | _ =>
      let key := dotsToBrackets (chars givenKey) false in
      let groups := scanGroups key 0 None in
      let parent :=
        match groups with
        | (start, _) :: _ => firstn start key
        | [] => key
        end in
      let children := firstn depth groups in
      if (match parent with [] => false | _ => in_prototype (str parent) end)
         || existsb (fun g => in_prototype (snd g)) children
      then None
      else
        Some ((match parent with [] => [] | _ => [Parent (str parent)] end)
              ++ map (fun g => Child (snd g)) children
              ++ match skipn depth groups with
                 | (start, _) :: _ => [Child (str (skipn start key))]
                 | [] => []
                 end)%list
  end.

(** [[].concat(leaf)] *)
Definition concat_leaf (leaf : value) : value :=
  match leaf with
  | VObj true props => VObj true (shift_items 0 props)
  | _ => js_array [leaf]
  end.

(** One round of the loop of [parseObject]: the object or array that holds
    [leaf] under the link. *)
Definition wrap (l : link) (leaf : value) : value :=
  match l with
  | Child "" => concat_leaf leaf
  | Child cleanRoot =>
      match array_index cleanRoot with
      | Some index =>
          if Nat.leb index arrayLimit then VObj true [(cleanRoot, leaf)]
          else VObj false [(cleanRoot, leaf)]
      | None =>
          if String.eqb cleanRoot "__proto__" then VObj false []
          else VObj false [(cleanRoot, leaf)]
      end
  | Parent cleanRoot =>
      if String.eqb cleanRoot "__proto__" then VObj false []
      else VObj false [(cleanRoot, leaf)]
  end.

(** [parseObject]: wrap the value in the links, the last link first. *)
Definition parseObject (chain : list link) (val : value) : value :=
  fold_right wrap val chain.

(** [parseKeys]; [VUndefined] when the key is dropped. *)
Definition parseKeys (givenKey : string) (val : value) : value :=
  match chain_of givenKey with
  | Some chain => parseObject chain val
  | None => VUndefined
  end.

(** *** Merging the chains: [utils.merge] and [utils.compact] *)

(** [arrayToObject]: the defined elements of an array as an object. *)
Fixpoint arrayToObject (props : props_t) : props_t :=
  match props with
  | [] => []
  | (k, v) :: rest =>
      if is_array_index k
         && match v with VUndefined => false | _ => true end
      then (k, v) :: arrayToObject rest
      else arrayToObject rest
  end.

(** [item && typeof item === 'object'] *)
Definition is_object_like (v : value) : bool := truthy v && typeof_object v.

(** [String(v)] for a primitive used as a property key. *)
Definition primitive_key (v : value) : string :=
  match v with
  | VStr s => s
  | VNum n => string_of_nat n
  | VBool true => "true"
  | VBool false => "false"
  | VNull => "null"
  | _ => "undefined"
  end.

(** [utils.merge(target, source)].  The target is returned (JavaScript
    updates it in place). *)
Fixpoint merge (target source : value) {struct source} : value :=
  match source with
  | VObj sa sprops =>
      match target with
      | VObj ta tprops =>
          if ta && sa then
            VObj true
              ((fix each (items acc : props_t) {struct items} : props_t :=
                  match items with
                  | [] => acc
                  | (i, item) :: items' =>
                      each items'
                        (if is_array_index i then
                           match own_get i acc with
                           | Some targetItem =>
                               if is_object_like targetItem && is_object_like item
                               then own_set i (merge targetItem item) acc
                               else own_set (string_of_nat (array_length acc)) item acc
                           | None => own_set i item acc
                           end
                         else acc)
                  end) sprops tprops)
          else
            VObj false
              ((fix reduce (entries acc : props_t) {struct entries} : props_t :=
                  match entries with
                  | [] => acc
                  | (key, value) :: entries' =>
                      reduce entries'
                        (match own_get key acc with
                         | Some old => own_set key (merge old value) acc
                         | None => own_set key value acc
                         end)
                  end) sprops (if ta then arrayToObject tprops else tprops))
      | _ =>
          if sa then VObj true (("0", target) :: shift_items 1 sprops)
          else js_array [target; source]
      end
  | _ =>
      if truthy source then
        match target with
        | VObj true tprops =>
            VObj true (own_set (string_of_nat (array_length tprops)) source tprops)
        | VObj false tprops =>
            let key := primitive_key source in
            if in_prototype key then target
            else VObj false (own_set key (VBool true) tprops)
        | _ => js_array [target; source]
        end
      else target
  end.

(** [utils.compact] below the root: every array loses its holes and its
    [undefined] elements. *)
Fixpoint compact_value (v : value) : value :=
  match v with
  | VObj a props =>
      let props' := map (fun kv => (fst kv, compact_value (snd kv))) props in
      if a then
        js_array (filter (fun x => match x with VUndefined => false | _ => true end)
                         (array_items props'))
      else VObj false props'
  | _ => v
  end.

(** [utils.compact]: the root itself is left as it is. *)
Definition compact (v : value) : value :=
  match v with
  | VObj a props => VObj a (map (fun kv => (fst kv, compact_value (snd kv))) props)
  | _ => v
  end.

(** *** [qs.parse] *)

(** The second half of [parse]: each collected key is turned into a chain
    and merged into the result, which is compacted at the end. *)
Definition parse_entries (tempObj : props_t) : value :=
  compact
    (fold_left (fun obj kv => merge obj (parseKeys (fst kv) (snd kv)))
               tempObj (VObj false [])).

(** [qs.parse(text, { allowDots: true })] *)
Definition parse (text : string) : value :=
  match text with
  | EmptyString => VObj false []
  | _ => parse_entries (parseValues text)
  end.

(** The same on pairs that are already split and decoded. *)
Definition parse_pairs (pairs : list (string * string)) : value :=
  parse_entries (collect pairs).

End Qs.

(** ** The route: [action] and the components *)

(** What the action answers: a redirect, or a JSON body. *)
Inductive response : Type :=
| Redirect (location : string)
| Json (body : value).

(** The reducer of the action: every issue is written into one object at
    its path, in the order of the issues. *)
Definition errorTree (issues : list issue) : value :=
  fold_left
    (fun errors issue => Lodash.set errors (issue_path issue) (VStr (message issue)))
    issues (js_object []).

(** [action]: parse the body of the request, validate it, and redirect or
    report the errors. *)
Definition action (formText : string) : response :=
  let parsedForm := Qs.parse formText in
  match safeParse formSchema parsedForm with
  | SafeParseSuccess => Redirect "/templates/1"
  | SafeParseError issues => Json (js_object [("errors", errorTree issues)])
  end.

(** What a JSON body becomes on its way to the client
    ([JSON.parse(JSON.stringify(v))]): holes and [undefined] elements of an
    array become [null], [undefined] properties of an object are dropped,
    and an array keeps its elements only. *)
Fixpoint json_transport (v : value) : value :=
  match v with
  | VObj a props =>
      let props' := map (fun kv => (fst kv, json_transport (snd kv))) props in
      if a then
        js_array (map (fun x => match x with VUndefined => VNull | _ => x end)
                      (array_items props'))
      else
        VObj false
          (filter (fun kv => match snd kv with VUndefined => false | _ => true end)
                  props')
  | _ => v
  end.

(** [useActionData()]: [undefined] until an action has answered with data. *)
Definition useActionData (last : option response) : value :=
  match last with
  | Some (Json body) => json_transport body
  | _ => VUndefined
  end.

(** The errors the form shows (lines 112-113):
    [actionData?.errors && isEmpty(errors) ? actionData.errors : errors].
    [None] stands for a [TypeError]. *)
Definition validationErrors (actionData errors : value) : option value :=
  if truthy (opt_member actionData "errors") && Lodash.isEmpty errors
  then read_member actionData "errors"
  else Some errors.

(** The values the effect resets the form to (line 117):
    [actionData?.data || template]. *)
Definition resetValues (actionData template : value) : value :=
  let data := opt_member actionData "data" in
  if truthy data then data else template.

(** What is rendered where an error may show. *)
Inductive element : Type :=
| ErrorDiv (children : value)
| NoElement.

(** Lines 128-130: the error beside the title.  [None] stands for a
    [TypeError]. *)
Definition renderTitleError (errors : value) : option element :=
  match read_member errors "title" with
  | Some title =>
      if truthy title then
        match read_member title "message" with
        | Some m => Some (ErrorDiv m)
        | None => None
        end
      else Some NoElement
  | None => None
  end.

(** The path the question editor looks its error up at (lines 193-195). *)
Definition nameErrorPath (index : nat) : string :=
  "questions[" ++ string_of_nat index ++ "].name.message".

(** Lines 193-197: the error beside the name of question [index]. *)
Definition renderNameError (errors : value) (index : nat) : element :=
  if truthy (Lodash.get errors (nameErrorPath index))
  then ErrorDiv (Lodash.get errors (nameErrorPath index))
  else NoElement.

(** The path the option editor looks its error up at (lines 251-259). *)
Definition labelErrorPath (questionIndex optIndex : nat) : string :=
  "questions[" ++ string_of_nat questionIndex ++ "].options["
    ++ string_of_nat optIndex ++ "].label.message".

(** Lines 251-261: the error beside option [optIndex] of a question. *)
Definition renderLabelError (errors : value) (questionIndex optIndex : nat)
  : element :=
  if truthy (Lodash.get errors (labelErrorPath questionIndex optIndex))
  then ErrorDiv (Lodash.get errors (labelErrorPath questionIndex optIndex))
  else NoElement.

(** *** The field array of the questions *)

(** An item of [useFieldArray]'s [fields]: the value with the identity the
    hook gave it (line 176: a question [& { id: string }]). *)
Record field : Type := mkField {
  id : string;
  field_value : value
}.

(** Modelled from the spec: [useFieldArray] and the [append] it returns are
    code of react-hook-form, which is not under src/; only the calls are
    (lines 104-110, 150-154, 232-238 and 267-269).  By section 4.3 of the
    specification, [append(defaultItem)] "adds a new item at the end with
    blank/default field values" and "must not disturb the identity or
    field state of existing items"; the new item goes under the identity
    [newId] assigned to it. *)
Definition append (newId : string) (v : value) (fields : list field) : list field :=
  (fields ++ [mkField newId v])%list.

(** The question the "Add Question" button appends (lines 150-154). *)
Definition newQuestion : value :=
  js_object [("name", VStr ""); ("type", VStr "TEXT"); ("options", VUndefined)].

Definition addQuestion (newId : string) (questions : list field) : list field :=
  append newId newQuestion questions.

(** Modelled from the spec: the collection of the Dynamic List Controller of
    section 4.3, which react-hook-form keeps and src/ does not hold.  Each
    item "upon insertion, is assigned an opaque stable identity (unique
    across the lifetime of the collection, never reused even if the item
    is later removed)": beside its items the collection keeps the number
    of identities issued so far. *)
Record fieldArray : Type := mkFieldArray {
  current : list field;
  issued : nat
}.

(** Modelled from the spec: [append] on the collection.  The identity of the
    new item is drawn from [generateId], which takes the number of
    identities issued so far to the next opaque identity. *)
Definition appendItem (generateId : nat -> string) (v : value) (fa : fieldArray)
  : fieldArray :=
  mkFieldArray (append (generateId (issued fa)) v (current fa)) (S (issued fa)).

(** Modelled from the spec: the removal of the item at [index].  The form
    offers none, but by section 4.3 "the design must not preclude adding
    one later without renumbering surviving items' identities": the other
    items stay as they are and no identity is given back. *)
Definition removeItem (index : nat) (fa : fieldArray) : fieldArray :=
  mkFieldArray (firstn index (current fa) ++ skipn (S index) (current fa))%list
               (issued fa).

(** Modelled from the spec: what happens to a collection in its lifetime. *)
Inductive operation : Type :=
| Append (v : value)
| Remove (index : nat).

(** Modelled from the spec: one operation on the collection. *)
Definition perform (generateId : nat -> string) (fa : fieldArray) (op : operation)
  : fieldArray :=
  match op with
  | Append v => appendItem generateId v fa
  | Remove index => removeItem index fa
  end.

(** Modelled from the spec: the collection after the operations [ops], from
    the empty collection on. *)
Definition lifetime (generateId : nat -> string) (ops : list operation) : fieldArray :=
  fold_left (perform generateId) ops (mkFieldArray [] 0).

(** Line 209: [questionType === 'RADIOLIST'], the condition under which the
    option editor of a question is rendered. *)
Definition rendersOptions (questionType : value) : bool :=
  match questionType with
  | VStr t => String.eqb t "RADIOLIST"
  | _ => false
  end.

(** *** The typed form and its fields *)

(** [QuestionSchemaType] and [FormSchemaType], the types inferred from the
    schemas. *)
Inductive QuestionType : Type := TEXT | NUMBER | RADIOLIST.

Record Option : Type := mkOption { label : string }.

Record Question : Type := mkQuestion {
  name : string;
  type : QuestionType;
  options : option (list Option)
}.

Record QuestionnaireForm : Type := mkForm {
  title : string;
  questions : list Question
}.

Definition type_tag (t : QuestionType) : string :=
  match t with
  | TEXT => "TEXT"
  | NUMBER => "NUMBER"
  | RADIOLIST => "RADIOLIST"
  end.

Definition option_value (o : Option) : value :=
  js_object [("label", VStr (label o))].

Definition question_value (q : Question) : value :=
  js_object
    ([("name", VStr (name q)); ("type", VStr (type_tag (type q)))]
     ++ match options q with
        | Some os => [("options", js_array (map option_value os))]
        | None => []
        end)%list.

(** The JavaScript value of a typed form. *)
Definition form_value (f : QuestionnaireForm) : value :=
  js_object
    [("title", VStr (title f));
     ("questions", js_array (map question_value (questions f)))].

(** The names the inputs are registered under (lines 127, 191, 202, 248). *)
Definition titleField : string := "title".
Definition nameField (index : nat) : string :=
  "questions." ++ string_of_nat index ++ ".name".
Definition typeField (index : nat) : string :=
  "questions." ++ string_of_nat index ++ ".type".
Definition labelField (questionIndex optIndex : nat) : string :=
  "questions." ++ string_of_nat questionIndex ++ ".options."
    ++ string_of_nat optIndex ++ ".label".

(** The inputs of the option editor of question [questionIndex]. *)
Definition optionFields (questionIndex : nat) (os : list Option)
  : list (string * string) :=
  mapi (fun optIndex o => (labelField questionIndex optIndex, label o)) 0 os.

(** The inputs of the editor of question [index]; the option editor is
    rendered for a RADIOLIST question only (line 209). *)
Definition questionFields (index : nat) (q : Question) : list (string * string) :=
  ([(nameField index, name q); (typeField index, type_tag (type q))]
   ++ match type q, options q with
      | RADIOLIST, Some os => optionFields index os
      | _, _ => []
      end)%list.

(** The name and value of every input of the form, in document order: the
    pairs a submission carries. *)
Definition formFields (f : QuestionnaireForm) : list (string * string) :=
  ((titleField, title f) :: concat (mapi questionFields 0 (questions f)))%list.

(** ** Vocabulary of the properties *)

Definition seg_eqb (a b : seg) : bool :=
  match a, b with
  | SKey k, SKey k' => String.eqb k k'
  | SIdx i, SIdx j => Nat.eqb i j
  | _, _ => false
  end.

Fixpoint path_eqb (p q : path) : bool :=
  match p, q with
  | [], [] => true
  | a :: p', b :: q' => seg_eqb a b && path_eqb p' q'
  | _, _ => false
  end.

(** The issues raised at exactly the path [p]. *)
Definition issues_at (p : path) (issues : list issue) : list issue :=
  filter (fun i => path_eqb (issue_path i) p) issues.

(** The kind the data model calls RequiredField: a required string that is
    empty (zod's [too_small]) or missing (zod's [invalid_type] with
    [undefined] received where a string was expected). *)
Definition is_required_field (i : issue) : bool :=
  match code i with
  | too_small _ => true
  | invalid_type "string" TUndefined => true
  | _ => false
  end.

(** A value whose member [k] is the empty string or is not there. *)
Definition empty_or_absent (v : value) (k : string) : Prop :=
  member v k = VStr "" \/ member v k = VUndefined.

Definition titlePath : path := [SKey "title"].
Definition namePath (i : nat) : path := [SKey "questions"; SIdx i; SKey "name"].

Definition is_name_path (p : path) : bool :=
  match p with
  | [SKey "questions"; SIdx _; SKey "name"] => true
  | _ => false
  end.

(** A question object with an empty or absent name. *)
Definition nameless_question (q : value) : Prop :=
  (exists props, q = VObj false props) /\ empty_or_absent q "name".

(** The keys of a path, as [castPath] and [toKey] hand them to the walk. *)
Definition keys (p : path) : list string := map Lodash.toKey p.

(** The names of the fields of the two schemas. *)
Definition field_names : list string :=
  ["title"; "questions"; "name"; "type"; "options"; "label"].

Definition is_field_seg (s : seg) : bool :=
  match s with
  | SIdx _ => true
  | SKey k => existsb (String.eqb k) field_names
  end.

(** A FieldPath: one or more segments, each a field name or a position. *)
Definition FieldPath (p : path) : Prop :=
  p <> [] /\ forallb is_field_seg p = true.

(** [nested_at tree ks v]: walking down the keys [ks] from [tree] finds an
    object or array at every step, each holding the next key as its own
    property, and [v] at the end: one level of nesting per key. *)
Fixpoint nested_at (tree : value) (ks : list string) (v : value) : Prop :=
  match ks with
  | [] => tree = v
  | k :: rest =>
      exists a props x,
        tree = VObj a props /\ own_get k props = Some x /\ nested_at x rest v
  end.

(** Two key lists part ways: at some position both have a key and the keys
    differ, all keys before being equal. *)
Fixpoint diverge (ks ks' : list string) : bool :=
  match ks, ks' with
  | k :: rest, k' :: rest' =>
      if String.eqb k k' then diverge rest rest' else true
  | _, _ => false
  end.

(** The tree that holds [leaf] under the one path [p], inside a container
    that is an array when [a] is set: an array under every position, an
    object under every name. *)
Fixpoint nest (a : bool) (p : path) (leaf : value) : value :=
  match p with
  | [] => leaf
  | s :: rest =>
      VObj a [(Lodash.toKey s,
               match rest with
               | [] => leaf
               | next :: _ => nest (Lodash.isIndex next) rest leaf
               end)]
  end.

(** The error object the resolver of the client-side form keeps for an
    issue: the message is a member of it. *)
Definition fieldError (i : issue) : value :=
  js_object [("message", VStr (message i))].

(** The client-side tree: as [errorTree], with a [fieldError] at each path. *)
Definition clientErrorTree (issues : list issue) : value :=
  fold_left
    (fun errors issue => Lodash.set errors (issue_path issue) (fieldError issue))
    issues (js_object []).

(** A form the schema accepts. *)
Definition well_formed (f : QuestionnaireForm) : bool :=
  success (safeParse formSchema (form_value f)).

(** The forms that survive the trip through the submitted pairs: at least
    one question and at most [arrayLimit + 1]; options only on a RADIOLIST
    question, and then at least one and at most [arrayLimit + 1]. *)
Definition options_survive (q : Question) : Prop :=
  match options q with
  | None => True
  | Some os => type q = RADIOLIST /\ os <> [] /\ List.length os <= S Qs.arrayLimit
  end.

Definition survives (f : QuestionnaireForm) : Prop :=
  questions f <> [] /\ List.length (questions f) <= S Qs.arrayLimit
  /\ Forall options_survive (questions f).

(** The body a browser posts for the untouched template: the title input
    is empty, the three questions carry their names and types. *)
Definition untouchedSubmission : string :=
  "title=&questions.0.name=What+is+your+name%3F&questions.0.type=TEXT"
  ++ "&questions.1.name=How+old+are+you%3F&questions.1.type=NUMBER"
  ++ "&questions.2.name=What+is+your+favorite+framework%3F"
  ++ "&questions.2.type=RADIOLIST".

(** Is the issue raised at the name of some question? *)
Definition name_issue (i : issue) : bool := is_name_path (issue_path i).

(** The issues of the elements of the [questions] array, the first element
    standing at position [start]. *)
Definition question_issues (start : nat) (items : list value) : list issue :=
  concat (mapi (fun i item =>
                  parse questionSchema ([SKey "questions"] ++ [SIdx i])%list item)
               start items).

(** One step of the reducer of [errorTree]. *)
Definition write_issue (errors : value) (i : issue) : value :=
  Lodash.set errors (issue_path i) (VStr (message i)).

(** The parsed object while the questions are being merged into it. *)
Definition with_questions (t : string) (qs : list value) : value :=
  VObj false [("title", VStr t); ("questions", js_array qs)].

(** One step of the loop of [parse_entries]. *)
Definition merge_entry (obj : value) (kv : string * value) : value :=
  Qs.merge obj (Qs.parseKeys (fst kv) (snd kv)).

(** The collected form of pairs whose keys occur once. *)
Definition entries (pairs : list (string * string)) : props_t :=
  map (fun kv => (fst kv, VStr (snd kv))) pairs.

(** A question object under construction. *)
Definition question_with (n ty : string) (opts : list value) : value :=
  VObj false
    ([("name", VStr n); ("type", VStr ty)]
     ++ match opts with [] => [] | _ => [("options", js_array opts)] end)%list.

(** The option objects of a question, none when it has no list. *)
Definition option_values (q : Question) : list value :=
  match options q with
  | Some os => map option_value os
  | None => []
  end.

(** The place of an input in document order, read off its name: the
    question it belongs to counts 23, the name 1, the type 2, and the
    option at position m counts 3 + m. *)
Definition rank (key : string) : nat :=
  match Qs.chain_of key with
  | Some [Qs.Parent _; Qs.Child i; Qs.Child f] =>
      match array_index i with
      | Some n => 23 * n + (if String.eqb f "name" then 1 else 2)
      | None => 0
      end
  | Some [Qs.Parent _; Qs.Child i; Qs.Child _; Qs.Child j; Qs.Child _] =>
      match array_index i, array_index j with
      | Some n, Some m => 23 * n + 3 + m
      | _, _ => 0
      end
  | _ => 0
  end.

(** The names of the pairs are no array indices and their ranks grow,
    starting at [b] or above. *)
Fixpoint increasing (b : nat) (pairs : list (string * string)) : Prop :=
  match pairs with
  | [] => True
  | kv :: rest =>
      b <= rank (fst kv) /\ array_index (fst kv) = None
      /\ increasing (S (rank (fst kv))) rest
  end.

(** All the pairs rank below [b]. *)
Definition below (b : nat) (pairs : list (string * string)) : Prop :=
  Forall (fun kv => rank (fst kv) < b) pairs.

(** The schemas that raise at most one issue at a path: at most one check
    on a string, and the fields of an object named apart, by field names. *)
#[local] Unset Elimination Schemes.
Inductive tidy : schema -> Prop :=
| tidy_string checks : List.length checks <= 1 -> tidy (ZString checks)
| tidy_enum values : tidy (ZEnum values)
| tidy_array element : tidy element -> tidy (ZArray element)
| tidy_object shape :
    NoDup (map fst shape) ->
    Forall (fun kf => existsb (String.eqb (fst kf)) field_names = true) shape ->
    Forall (fun kf => tidy (snd kf)) shape ->
    tidy (ZObject shape)
| tidy_optional inner : tidy inner -> tidy (ZOptional inner).
#[local] Set Elimination Schemes.

(** The path of [j] parts ways with the path of [i]. *)
Definition leaves_aside (i j : issue) : Prop :=
  diverge (keys (issue_path i)) (keys (issue_path j)) = true.

(** The path of [i] is [p] followed by field names and positions. *)
Definition extends (p : path) (i : issue) : Prop :=
  exists q, issue_path i = (p ++ q)%list /\ forallb is_field_seg q = true.

(** A body whose title, first name and first option label are empty. *)
Definition emptyFieldsSubmission : string :=
  "title=&questions.0.name=&questions.0.type=RADIOLIST"
  ++ "&questions.0.options.0.label=".

(** The tree the action reports for it. *)
Definition emptyFieldsErrors : value :=
  js_object
    [("title", VStr "Title required");
     ("questions",
      js_array
        [js_object
           [("name", VStr "Name required");
            ("options", js_array [js_object [("label", VStr "Label required")]])]])].

Definition labelPath (i j : nat) : path :=
  [SKey "questions"; SIdx i; SKey "options"; SIdx j; SKey "label"].

(** A plain object, not an array. *)
Definition plain_object (v : value) : Prop := exists props, v = VObj false props.

(** The identities of the items are among those issued, and no two items
    share one. *)
Definition identities_kept (generateId : nat -> string) (fa : fieldArray) : Prop :=
  Forall (fun f => exists k, k < issued fa /\ id f = generateId k) (current fa)
  /\ NoDup (map id (current fa)).

(** *** Typed forms, lookups and appended items *)

(** The issue [z.string().nonempty(msg)] raises on the string [s] at [p]:
    one [too_small] issue with the message when [s] is empty, none
    otherwise. *)
Definition required_issue (p : path) (msg s : string) : list issue :=
  if String.eqb s "" then [mkIssue (too_small 1) p msg] else [].

(** The issues of option [j] of question [i] (lines 33-35). *)
Definition option_issues (i j : nat) (o : Option) : list issue :=
  required_issue (labelPath i j) "Label required" (label o).

(** The issues of question [i] of a typed form, in the order of the keys of
    [questionSchema] (lines 28-38); the tag of a typed question is in the
    enumeration. *)
Definition typed_question_issues (i : nat) (q : Question) : list issue :=
  (required_issue (namePath i) "Name required" (name q)
   ++ match options q with
      | Some os => concat (mapi (option_issues i) 0 os)
      | None => []
      end)%list.

(** The issues of a typed form, in the order of the keys of [formSchema]
    (lines 40-43). *)
Definition form_issues (f : QuestionnaireForm) : list issue :=
  (required_issue titlePath "Title required" (title f)
   ++ concat (mapi typed_question_issues 0 (questions f)))%list.

(** Every required string of a question is filled in. *)
Definition filled_question (q : Question) : Prop :=
  name q <> ""
  /\ match options q with
     | Some os => Forall (fun o => label o <> "") os
     | None => True
     end.

Definition filled (f : QuestionnaireForm) : Prop :=
  title f <> "" /\ Forall filled_question (questions f).

(** The members of the enumeration of line 30. *)
Definition question_types : list string := ["TEXT"; "NUMBER"; "RADIOLIST"].

(** The schema of one option (lines 33-35). *)
Definition label_schema : schema :=
  ZObject [("label", string_nonempty "Label required")].

(** The member [k] of [v] is a non-empty string. *)
Definition filled_member (v : value) (k : string) : Prop :=
  exists s, member v k = VStr s /\ s <> "".

(** The values [z.array(element)] accepts, given those [element] does. *)
Definition array_of (P : value -> Prop) (v : value) : Prop :=
  exists props, v = VObj true props /\ Forall P (array_items props).

(** The values the schema of an option accepts (lines 33-35). *)
Definition option_shaped (o : value) : Prop :=
  plain_object o /\ filled_member o "label".

(** The values [questionSchema] accepts (lines 28-38). *)
Definition question_shaped (q : value) : Prop :=
  plain_object q
  /\ filled_member q "name"
  /\ (exists t, member q "type" = VStr t /\ In t question_types)
  /\ (member q "options" = VUndefined \/ array_of option_shaped (member q "options")).

(** The values [formSchema] accepts (lines 40-43). *)
Definition form_shaped (v : value) : Prop :=
  plain_object v
  /\ filled_member v "title"
  /\ array_of question_shaped (member v "questions").

(** The options of a question that reach the submitted pairs: the option
    editor is rendered for a RADIOLIST question only (line 209), and a list
    without options renders no input. *)
Definition rendered_options (q : Question) : option (list Option) :=
  match type q, options q with
  | RADIOLIST, Some (o :: os) => Some (o :: os)
  | _, _ => None
  end.

Definition rendered (q : Question) : Question :=
  mkQuestion (name q) (type q) (rendered_options q).

Definition rendered_form (f : QuestionnaireForm) : QuestionnaireForm :=
  mkForm (title f) (map rendered (questions f)).

(** The sizes [qs.parse] rebuilds as arrays: at least one question, and at
    most [arrayLimit + 1] questions and options. *)
Definition options_sized (q : Question) : Prop :=
  match options q with
  | Some os => List.length os <= S Qs.arrayLimit
  | None => True
  end.

Definition sized (f : QuestionnaireForm) : Prop :=
  questions f <> [] /\ List.length (questions f) <= S Qs.arrayLimit
  /\ Forall options_sized (questions f).

(** The pairs of a body, as [parseValues] splits and decodes it. *)
Definition pairs_of (text : string) : list (string * string) :=
  map Qs.parse_part (Qs.split_on "&"%char (Chars.chars text) []).

(** The template of the loader (lines 48-67) with a title typed in. *)
Definition templateForm (t : string) : QuestionnaireForm :=
  mkForm t [mkQuestion "What is your name?" TEXT None;
            mkQuestion "How old are you?" NUMBER None;
            mkQuestion "What is your favorite framework?" RADIOLIST None].

(** A form with an option on a TEXT question and two empty strings, and
    the body a browser posts for it. *)
Definition surveyForm : QuestionnaireForm :=
  mkForm "Survey"
    [mkQuestion "Name?" TEXT (Some [mkOption ""]);
     mkQuestion "" RADIOLIST (Some [mkOption "Remix"; mkOption ""])].

Definition surveySubmission : string :=
  "title=Survey&questions.0.name=Name%3F&questions.0.type=TEXT"
  ++ "&questions.1.name=&questions.1.type=RADIOLIST"
  ++ "&questions.1.options.0.label=Remix&questions.1.options.1.label=".

(** The body a browser posts for the template once the title is typed. *)
Definition templateSubmission : string :=
  "title=Survey&questions.0.name=What+is+your+name%3F&questions.0.type=TEXT"
  ++ "&questions.1.name=How+old+are+you%3F&questions.1.type=NUMBER"
  ++ "&questions.2.name=What+is+your+favorite+framework%3F"
  ++ "&questions.2.type=RADIOLIST".

(** The characters that end a run of [stringToPath]. *)
Definition is_delimiter (c : ascii) : bool :=
  Ascii.eqb c Chars.dot || Chars.is_bracket c.

(** A client tree with a message at the name of the first question. *)
Definition clientErrors : props_t :=
  [("questions",
    js_array [js_object [("name", js_object [("message", VStr "Name required")])]])].

(** A property key that is a field name of the form or an array index. *)
Definition is_field_key (k : string) : bool :=
  existsb (String.eqb k) field_names || is_array_index k.

(** Every property key of the tree, at every depth, is a field name or an
    array index. *)
Fixpoint field_keyed (v : value) : Prop :=
  match v with
  | VObj _ props =>
      (fix all (ps : props_t) : Prop :=
         match ps with
         | [] => True
         | kv :: ps' =>
             is_field_key (fst kv) = true /\ field_keyed (snd kv) /\ all ps'
         end) props
  | _ => True
  end.

Definition props_keyed (props : props_t) : Prop :=
  Forall (fun kv => is_field_key (fst kv) = true /\ field_keyed (snd kv)) props.

(** Lines 264-273: the item the button "Add option" appends. *)
Definition newOption : value := js_object [("label", VStr "")].

Definition addOption (newId : string) (opts : list field) : list field :=
  append newId newOption opts.

(** The names of the inputs of the form (lines 127, 191, 202, 247-249). *)
Definition input_name (k : string) : Prop :=
  k = titleField
  \/ exists i, k = nameField i \/ k = typeField i \/ exists j, k = labelField i j.

(** The member [questions] of the object [qs.parse] is building: absent, or
    an array or object whose being an array satisfies [kind]. *)
Definition questions_kind (kind : bool -> Prop) (obj : value) : Prop :=
  exists props, obj = VObj false props
    /\ match own_get "questions" props with
       | Some (VObj a _) => kind a
       | Some _ => False
       | None => kind true
       end.

(** The body of pairs whose keys and values need no escaping. *)
Definition plainBody (pairs : list (string * string)) : string :=
  String.concat "&" (map (fun kv => fst kv ++ "=" ++ snd kv) pairs).

(** A form of twenty-two questions. *)
Definition manyQuestions : QuestionnaireForm :=
  mkForm "T" (repeat (mkQuestion "q" TEXT None) 22).

(** * Properties *)

(** ** Property keys and property lists *)

Lemma array_index_string_of_nat (n : nat) :
  array_index (string_of_nat n) = Some n.
Proof.
  unfold array_index, string_of_nat.
  rewrite NilEmpty.usu, DecimalNat.Unsigned.of_to.
  now rewrite String.eqb_refl.
Qed.

Lemma string_of_nat_inj (i j : nat) :
  string_of_nat i = string_of_nat j -> i = j.
Proof.
  intros H.
  pose proof (array_index_string_of_nat i) as Hi.
  rewrite H, array_index_string_of_nat in Hi.
  now inversion Hi.
Qed.

Lemma own_get_set_same (k : string) (v : value) (props : props_t) :
  own_get k (own_set k v props) = Some v.
Proof.
  induction props as [|[k' v'] rest IH]; simpl.
  - now rewrite String.eqb_refl.
  - destruct (String.eqb k k') eqn:E; simpl.
    + now rewrite String.eqb_refl.
    + destruct (key_before k k'); simpl.
      * now rewrite String.eqb_refl.
      * now rewrite E.
Qed.

Lemma own_get_set_other (k k' : string) (v : value) (props : props_t) :
  k <> k' -> own_get k' (own_set k v props) = own_get k' props.
Proof.
  intros Hne.
  assert (Hkk : String.eqb k' k = false) by (apply String.eqb_neq; congruence).
  induction props as [|[k0 v0] rest IH]; simpl.
  - now rewrite Hkk.
  - destruct (String.eqb k k0) eqn:E; simpl.
    + apply String.eqb_eq in E; subst k0. now rewrite Hkk.
    + destruct (key_before k k0); simpl.
      * now rewrite Hkk.
      * now rewrite IH.
Qed.

(** ** The submission boundary *)

(** What [qs.parse] returns is always a plain object. *)

Lemma merge_plain_object (target source : value) :
  plain_object target -> plain_object (Qs.merge target source).
Proof.
  intros [props ->].
  destruct source as [| | b | n | s | sa sprops]; cbn [Qs.merge truthy andb];
    repeat match goal with
           | |- context [if ?c then _ else _] => destruct c
           end;
    eexists; reflexivity.
Qed.

Lemma parse_plain_object (text : string) : plain_object (Qs.parse text).
Proof.
  unfold Qs.parse. destruct text as [|c text']; [eexists; reflexivity|].
  unfold Qs.parse_entries.
  assert (H : forall l acc, plain_object acc ->
            plain_object (fold_left (fun obj kv => Qs.merge obj (Qs.parseKeys (fst kv) (snd kv))) l acc)).
  { induction l as [|kv l IH]; intros acc Hacc; simpl; [assumption|].
    apply IH. now apply merge_plain_object. }
  destruct (H (Qs.parseValues (String c text')) (VObj false [])) as [props ->];
    [eexists; reflexivity|].
  eexists; reflexivity.
Qed.

(** C1. For every submitted body, the action redirects to ['/templates/1']
    exactly when the schema accepts the reconstructed payload; when the
    schema rejects it, the action answers with the JSON object
    [{ errors: tree }] built from the issues, which is no redirect. *)
Theorem action_redirects_iff_valid (formText : string) :
  (action formText = Redirect "/templates/1"
   <-> success (safeParse formSchema (Qs.parse formText)) = true)
  /\ match safeParse formSchema (Qs.parse formText) with
     | SafeParseSuccess => action formText = Redirect "/templates/1"
     | SafeParseError issues =>
         issues <> []
         /\ issues = parse formSchema [] (Qs.parse formText)
         /\ action formText = Json (js_object [("errors", errorTree issues)])
         /\ forall location, action formText <> Redirect location
     end.
Proof.
  unfold action, safeParse.
  destruct (parse formSchema [] (Qs.parse formText)) as [|i rest] eqn:E; simpl.
  - split; [split; reflexivity | reflexivity].
  - split.
    + split; discriminate.
    + repeat split; try discriminate; reflexivity.
Qed.

Lemma action_redirects_iff_valid_witness :
  success (safeParse formSchema
             (Qs.parse "title=T&questions.0.name=Q&questions.0.type=TEXT")) = true
  /\ action "title=T&questions.0.name=Q&questions.0.type=TEXT"
     = Redirect "/templates/1".
Proof.
  split; [reflexivity|].
  exact (proj2 (proj1 (action_redirects_iff_valid
                         "title=T&questions.0.name=Q&questions.0.type=TEXT"))
               eq_refl).
Defined.

Lemma truthy_opt_member (v : value) (k : string) :
  truthy (opt_member v k) = true ->
  is_nullish v = false /\ opt_member v k = member v k.
Proof.
  unfold opt_member. destruct (is_nullish v); simpl; [discriminate | auto].
Qed.

(** C2. Of a live client-side tree and a server-reported one, the form
    shows the client tree whenever it is not empty, and the server tree
    only when the client tree is empty and the server reported one; the
    choice never throws. *)
Theorem validationErrors_precedence (actionData errors : value) :
  (Lodash.isEmpty errors = false ->
   validationErrors actionData errors = Some errors)
  /\ (Lodash.isEmpty errors = true ->
      truthy (opt_member actionData "errors") = true ->
      validationErrors actionData errors = Some (opt_member actionData "errors"))
  /\ (forall shown,
        validationErrors actionData errors = Some shown -> shown <> errors ->
        Lodash.isEmpty errors = true
        /\ truthy (opt_member actionData "errors") = true
        /\ shown = opt_member actionData "errors")
  /\ validationErrors actionData errors <> None.
Proof.
  unfold validationErrors.
  destruct (truthy (opt_member actionData "errors")) eqn:T;
    destruct (Lodash.isEmpty errors) eqn:E; simpl;
    try (apply truthy_opt_member in T as [Hn Hm];
         unfold read_member; rewrite Hn, Hm);
    repeat split; intros; try discriminate; try congruence.
Qed.

Lemma validationErrors_precedence_witness :
  let server := js_object [("title", VStr "Title required")] in
  let actionData := js_object [("errors", server)] in
  Lodash.isEmpty (js_object []) = true
  /\ truthy (opt_member actionData "errors") = true
  /\ validationErrors actionData (js_object []) = Some server.
Proof.
  split; [reflexivity|]. split; [reflexivity|].
  exact (proj1 (proj2 (validationErrors_precedence
                         (js_object [("errors", js_object [("title", VStr "Title required")])])
                         (js_object [])))
               eq_refl eq_refl).
Defined.

(** C7. After a rejection the form is reset to the submitted values when
    the response carries them under [data], and to the template otherwise;
    the rejections of this action carry none, so they reset to the
    template. *)
Theorem reset_after_rejection (actionData tpl : value) :
  (truthy (opt_member actionData "data") = true ->
   resetValues actionData tpl = opt_member actionData "data")
  /\ (truthy (opt_member actionData "data") = false ->
      resetValues actionData tpl = tpl)
  /\ (forall formText body,
        action formText = Json body ->
        opt_member (useActionData (Some (action formText))) "data" = VUndefined
        /\ resetValues (useActionData (Some (action formText))) tpl = tpl).
Proof.
  unfold resetValues. repeat split.
  - intros H. now rewrite H.
  - intros H. now rewrite H.
  - revert H. unfold action.
    destruct (safeParse formSchema (Qs.parse formText)); [discriminate|].
    intros _. simpl.
    destruct (json_transport (errorTree issues)); reflexivity.
  - revert H. unfold action.
    destruct (safeParse formSchema (Qs.parse formText)); [discriminate|].
    intros _. simpl.
    destruct (json_transport (errorTree issues)); reflexivity.
Qed.

Lemma reset_after_rejection_witness :
  action "title=" = Json (js_object [("errors",
                            js_object [("title", VStr "Title required");
                                       ("questions", VStr "Required")])])
  /\ resetValues (useActionData (Some (action "title="))) template = template.
Proof.
  split; [reflexivity|].
  exact (proj2 (proj2 (proj2 (reset_after_rejection VUndefined template))
                      "title=" _ eq_refl)).
Defined.

(** ** The field array *)

Lemma NoDup_snoc {A : Type} (l : list A) (x : A) :
  NoDup l -> ~ In x l -> NoDup (l ++ [x]).
Proof.
  intros Hl Hx. induction Hl as [|y l Hy _ IH]; simpl.
  - constructor; [intros [] | constructor].
  - constructor.
    + intros H. apply in_app_or in H as [H|[H|[]]]; [contradiction|].
      subst. apply Hx. now left.
    + apply IH. intros H. apply Hx. now right.
Qed.

Lemma in_without {A : Type} (l : list A) :
  forall index x, In x (firstn index l ++ skipn (S index) l) -> In x l.
Proof.
  intros index x H. apply in_app_or in H as [H|H].
  - rewrite <- (firstn_skipn index l). apply in_or_app. now left.
  - rewrite <- (firstn_skipn (S index) l). apply in_or_app. now right.
Qed.

Lemma NoDup_without {A : Type} (l : list A) :
  forall index, NoDup l -> NoDup (firstn index l ++ skipn (S index) l).
Proof.
  induction l as [|y l IH]; intros index H.
  - destruct index; simpl; constructor.
  - inversion H as [|? ? Hy Hl]; subst. destruct index as [|index]; simpl.
    + exact Hl.
    + constructor; [|now apply IH].
      intros Hin. apply Hy. now apply (in_without l index).
Qed.

Lemma fresh_identity (generateId : nat -> string) (fa : fieldArray) :
  (forall m n, generateId m = generateId n -> m = n) ->
  identities_kept generateId fa ->
  ~ In (generateId (issued fa)) (map id (current fa)).
Proof.
  intros Hinj [Hall _] Hin. apply in_map_iff in Hin as [f [Hf Hin]].
  rewrite Forall_forall in Hall. destruct (Hall f Hin) as [k [Hk Hid]].
  rewrite Hid in Hf. apply Hinj in Hf. lia.
Qed.

Lemma perform_keeps (generateId : nat -> string) (fa : fieldArray) (op : operation) :
  (forall m n, generateId m = generateId n -> m = n) ->
  identities_kept generateId fa ->
  identities_kept generateId (perform generateId fa op).
Proof.
  intros Hinj Hfa. pose proof Hfa as [Hall Hnd].
  destruct op as [v|index]; unfold identities_kept;
    cbn [perform appendItem removeItem current issued].
  - unfold append. split.
    + apply Forall_app. split.
      * eapply Forall_impl; [|exact Hall]. intros f [k [Hk Hid]].
        exists k. split; [lia | exact Hid].
      * constructor; [|constructor].
        exists (issued fa). split; [lia | reflexivity].
    + rewrite map_app. cbn [map id]. apply NoDup_snoc; [exact Hnd|].
      now apply fresh_identity.
  - split.
    + apply Forall_forall. intros f Hin. apply in_without in Hin.
      rewrite Forall_forall in Hall. now apply Hall.
    + rewrite map_app, <- firstn_map, <- skipn_map. now apply NoDup_without.
Qed.

Lemma lifetime_keeps (generateId : nat -> string) (ops : list operation) :
  (forall m n, generateId m = generateId n -> m = n) ->
  identities_kept generateId (lifetime generateId ops).
Proof.
  intros Hinj. unfold lifetime.
  assert (H : forall l fa,
            identities_kept generateId fa ->
            identities_kept generateId (fold_left (perform generateId) l fa)).
  { induction l as [|op l IH]; intros fa Hfa; cbn [fold_left]; [exact Hfa|].
    apply IH. now apply perform_keeps. }
  apply H. split; constructor.
Qed.

Lemma every_collection_has_a_lifetime
  (generateId : nat -> string) (values : list value) :
  map field_value (current (lifetime generateId (map Append values))) = values.
Proof.
  unfold lifetime.
  assert (H : forall l fa,
            map field_value (current (fold_left (perform generateId) (map Append l) fa))
            = (map field_value (current fa) ++ l)%list).
  { induction l as [|v l IH]; intros fa; cbn [map fold_left]; [now rewrite app_nil_r|].
    rewrite IH. cbn [perform appendItem current]. unfold append.
    rewrite map_app, <- app_assoc. reflexivity. }
  now rewrite H.
Qed.

(** C9. Appending a question puts a question with an empty name and the
    type TEXT at the end of the collection, whatever the collection, and
    keeps every earlier question with its identity and its value at its
    position.  In every collection that operations of appending and
    removing have led to, the identity of the new question differs from
    that of every item of the collection and from every identity issued
    before, and the identities stay pairwise distinct; every list of
    question values is the collection of such a lifetime.  The new
    question has no options list: its [options] member is [undefined],
    its type is not RADIOLIST, so that no option editor is rendered for
    it, and the schema finds nothing wrong with it but the empty name. *)
Theorem addQuestion_frame (generateId : nat -> string) (fa : fieldArray) :
  let after := appendItem generateId newQuestion fa in
  let newId := generateId (issued fa) in
  (current after = (current fa ++ [mkField newId newQuestion])%list
   /\ current after = addQuestion newId (current fa)
   /\ (forall i, i < List.length (current fa) ->
         nth_error (current after) i = nth_error (current fa) i)
   /\ nth_error (current after) (List.length (current fa))
      = Some (mkField newId newQuestion))
  /\ ((forall m n, generateId m = generateId n -> m = n) ->
      forall ops, fa = lifetime generateId ops ->
        ~ In newId (map id (current fa))
        /\ (forall k, k < issued fa -> generateId k <> newId)
        /\ NoDup (map id (current after))
        /\ after = lifetime generateId (ops ++ [Append newQuestion]))
  /\ (forall values, exists ops,
        map field_value (current (lifetime generateId ops)) = values)
  /\ (member newQuestion "name" = VStr ""
      /\ member newQuestion "type" = VStr "TEXT"
      /\ member newQuestion "options" = VUndefined
      /\ rendersOptions (member newQuestion "type") = false
      /\ forall p, parse questionSchema p newQuestion
                   = [mkIssue (too_small 1) (p ++ [SKey "name"])%list "Name required"]).
Proof.
  intros after newId. subst after newId.
  cbn [appendItem current issued]. unfold addQuestion, append.
  split; [|split; [|split]].
  - split; [reflexivity|]. split; [reflexivity|]. split.
    + intros i Hi. now rewrite nth_error_app1.
    + rewrite nth_error_app2, Nat.sub_diag by lia. reflexivity.
  - intros Hinj ops ->.
    pose proof (lifetime_keeps generateId ops Hinj) as Hkept.
    pose proof (lifetime_keeps generateId (ops ++ [Append newQuestion]) Hinj) as [_ Hnd].
    assert (Hafter : lifetime generateId (ops ++ [Append newQuestion])
                     = appendItem generateId newQuestion (lifetime generateId ops))
      by (unfold lifetime; now rewrite fold_left_app).
    split; [now apply fresh_identity|]. split.
    + intros k Hk E. apply Hinj in E. lia.
    + rewrite Hafter in Hnd. split; [exact Hnd | now rewrite Hafter].
  - intros values. exists (map Append values).
    apply every_collection_has_a_lifetime.
  - repeat split; reflexivity.
Qed.

Lemma addQuestion_frame_witness :
  let q1 := js_object [("name", VStr "Q1"); ("type", VStr "NUMBER")] in
  let q2 := js_object [("name", VStr "Q2"); ("type", VStr "RADIOLIST")] in
  let fa := lifetime string_of_nat [Append q1; Append q2; Remove 0] in
  (forall m n, string_of_nat m = string_of_nat n -> m = n)
  /\ current fa = [mkField "1" q2]
  /\ current (appendItem string_of_nat newQuestion fa)
     = [mkField "1" q2; mkField "2" newQuestion]
  /\ ~ In "2" (map id (current fa))
  /\ NoDup (map id (current (appendItem string_of_nat newQuestion fa))).
Proof.
  intros q1 q2 fa.
  split; [exact string_of_nat_inj|]. split; [reflexivity|]. split; [reflexivity|].
  destruct (proj1 (proj2 (addQuestion_frame string_of_nat fa)) string_of_nat_inj
                  [Append q1; Append q2; Remove 0] eq_refl) as [Hfresh [_ [Hnd _]]].
  split; [exact Hfresh | exact Hnd].
Defined.

(** ** The template *)

(** C10. The template the loader serves has no title, so the schema
    rejects it with one issue, of kind RequiredField, at the path [title];
    the body posted for the untouched form is rejected at [title] too. *)
Theorem template_is_rejected :
  member template "title" = VUndefined
  /\ parse formSchema [] template
     = [mkIssue (invalid_type "string" TUndefined) titlePath "Required"]
  /\ Forall (fun i => is_required_field i = true /\ issue_path i = titlePath)
            (parse formSchema [] template)
  /\ success (safeParse formSchema template) = false
  /\ action untouchedSubmission
     = Json (js_object [("errors", js_object [("title", VStr "Title required")])]).
Proof.
  split; [reflexivity|].
  split; [reflexivity|].
  split; [repeat constructor|].
  split; [reflexivity|].
  vm_compute. reflexivity.
Qed.

(** ** Validation *)

Lemma in_concat_mapi {A B : Type} (f : nat -> A -> list B) (l : list A) (start : nat) (b : B) :
  In b (concat (mapi f start l)) -> exists k x, In b (f k x).
Proof.
  revert start. induction l as [|x l IH]; simpl; intros start H; [contradiction|].
  apply in_app_or in H as [H|H]; eauto.
Qed.

Lemma parse_paths_extend (s : schema) :
  forall p v i, In i (parse s p v) -> exists q, issue_path i = (p ++ q)%list.
Proof.
  induction s using schema_ind'; intros p v i Hin.
  - destruct v; simpl in Hin;
      try (destruct Hin as [<-|[]]; exists []; simpl; now rewrite app_nil_r).
    apply in_flat_map in Hin as [c [_ Hin]].
    unfold run_check in Hin.
    destruct (Nat.ltb _ _); [|contradiction].
    destruct Hin as [<-|[]]. exists []. simpl. now rewrite app_nil_r.
  - destruct v; simpl in Hin;
      try (destruct Hin as [<-|[]]; exists []; simpl; now rewrite app_nil_r).
    destruct (existsb _ _); [contradiction|].
    destruct Hin as [<-|[]]. exists []. simpl. now rewrite app_nil_r.
  - destruct v as [| | | | |[|] props]; simpl in Hin;
      try (destruct Hin as [<-|[]]; exists []; simpl; now rewrite app_nil_r).
    apply in_concat_mapi in Hin as [k [x Hin]].
    apply IHs in Hin as [q Hq]. exists (SIdx k :: q).
    now rewrite Hq, <- app_assoc.
  - destruct v as [| | | | |[|] props]; simpl in Hin;
      try (destruct Hin as [<-|[]]; exists []; simpl; now rewrite app_nil_r).
    induction H as [|[k fs] sh Hfs Hsh IH]; [contradiction|].
    apply in_app_or in Hin as [Hin|Hin].
    + apply Hfs in Hin as [q Hq]. exists (SKey k :: q).
      now rewrite Hq, <- app_assoc.
    + now apply IH.
  - destruct v; simpl in Hin; try contradiction; exact (IHs _ _ _ Hin).
Qed.

Lemma filter_none {A : Type} (f : A -> bool) (l : list A) :
  (forall x, In x l -> f x = false) -> filter f l = [].
Proof.
  induction l as [|x l IH]; simpl; intros H; [reflexivity|].
  rewrite (H x (or_introl eq_refl)). apply IH. intros y Hy. apply H. now right.
Qed.

Lemma nonempty_issue (p : path) (msg : string) (v : value) (k : string) :
  empty_or_absent v k ->
  exists i, parse (string_nonempty msg) p (member v k) = [i]
            /\ is_required_field i = true /\ issue_path i = p
            /\ (member v k = VStr "" -> message i = msg).
Proof.
  intros [H|H]; rewrite H; eexists; (split; [reflexivity|]); simpl; repeat split; try discriminate.
Qed.

Lemma title_issue_of_object (props : props_t) :
  empty_or_absent (VObj false props) "title" ->
  exists i,
    issues_at titlePath (parse formSchema [] (VObj false props)) = [i]
    /\ is_required_field i = true
    /\ issue_path i = titlePath
    /\ (member (VObj false props) "title" = VStr "" -> message i = "Title required").
Proof.
  intros H.
  destruct (nonempty_issue titlePath "Title required" _ _ H) as [i [Hi [Hr [Hp Hm]]]].
  exists i. repeat split; auto.
  unfold issues_at.
  change (parse formSchema [] (VObj false props))
    with (parse (string_nonempty "Title required") titlePath (member (VObj false props) "title")
          ++ parse (ZArray questionSchema) [SKey "questions"] (member (VObj false props) "questions")
          ++ [])%list.
  remember (parse (ZArray questionSchema) [SKey "questions"]
                  (member (VObj false props) "questions")) as Q eqn:HQ.
  rewrite Hi, filter_app, app_nil_r. simpl. rewrite Hp. simpl.
  rewrite filter_none; [reflexivity|].
  intros x Hx. subst Q. apply parse_paths_extend in Hx as [q ->]. reflexivity.
Qed.

(** C8. An input whose title is empty or absent gets exactly one issue at
    the path [title], of kind RequiredField, whatever the issues at other
    paths are: so for every input object, and so for the payload of every
    submitted body. *)
Theorem title_required_once :
  (forall props,
     empty_or_absent (VObj false props) "title" ->
     exists i,
       issues_at titlePath (parse formSchema [] (VObj false props)) = [i]
       /\ is_required_field i = true
       /\ issue_path i = titlePath
       /\ (member (VObj false props) "title" = VStr "" ->
           message i = "Title required"))
  /\ (forall formText,
        empty_or_absent (Qs.parse formText) "title" ->
        exists i,
          issues_at titlePath (parse formSchema [] (Qs.parse formText)) = [i]
          /\ is_required_field i = true
          /\ issue_path i = titlePath).
Proof.
  split; [exact title_issue_of_object|].
  intros formText H.
  destruct (parse_plain_object formText) as [props Hprops]. rewrite Hprops in *.
  destruct (title_issue_of_object props H) as [i [H1 [H2 [H3 _]]]].
  exists i. auto.
Qed.

Lemma nameless_question_name_issue (k : nat) (q : value) :
  nameless_question q ->
  exists i,
    filter name_issue (parse questionSchema [SKey "questions"; SIdx k] q) = [i]
    /\ issue_path i = namePath k /\ is_required_field i = true.
Proof.
  intros [[props ->] H].
  destruct (nonempty_issue (namePath k) "Name required" _ _ H) as [i [Hi [Hr [Hp _]]]].
  exists i. repeat split; auto.
  change (parse questionSchema [SKey "questions"; SIdx k] (VObj false props))
    with (parse (string_nonempty "Name required") (namePath k)
                (member (VObj false props) "name")
          ++ parse (ZEnum ["TEXT"; "NUMBER"; "RADIOLIST"])
                   [SKey "questions"; SIdx k; SKey "type"]
                   (member (VObj false props) "type")
          ++ parse (ZOptional (ZArray (ZObject [("label", string_nonempty "Label required")])))
                   [SKey "questions"; SIdx k; SKey "options"]
                   (member (VObj false props) "options")
          ++ [])%list.
  rewrite Hi, !filter_app, app_nil_r.
  rewrite (filter_none name_issue (parse (ZEnum _) _ _)).
  2:{ intros x Hx. apply parse_paths_extend in Hx as [r Hr']. unfold name_issue. now rewrite Hr'. }
  rewrite (filter_none name_issue (parse (ZOptional _) _ _)).
  2:{ intros x Hx. apply parse_paths_extend in Hx as [r Hr']. unfold name_issue. now rewrite Hr'. }
  rewrite app_nil_r. cbn [filter]. unfold name_issue. rewrite Hp. reflexivity.
Qed.

Lemma nameless_questions_name_issues (items : list value) (start : nat) :
  Forall nameless_question items ->
  map issue_path (filter name_issue (question_issues start items))
  = map namePath (seq start (List.length items))
  /\ Forall (fun i => is_required_field i = true)
            (filter name_issue (question_issues start items)).
Proof.
  intros H. revert start. induction H as [|q items Hq _ IH]; intros start.
  - split; [reflexivity | constructor].
  - destruct (nameless_question_name_issue start q Hq) as [i [Hi [Hp Hr]]].
    destruct (IH (S start)) as [IH1 IH2].
    change (question_issues start (q :: items))
      with (parse questionSchema [SKey "questions"; SIdx start] q
            ++ question_issues (S start) items)%list.
    rewrite filter_app, Hi. cbn [app map List.length seq]. split.
    + now rewrite Hp, IH1.
    + constructor; assumption.
Qed.

(** C4. Nothing stops at the first issue: when the [questions] of an input
    are N question objects, each with an empty or absent name, the issues
    raised at names of questions are exactly N, of kind RequiredField, the
    i-th of them at [questions[i].name]; every other issue of the input is
    counted beside them, and when nothing else is wrong with the input its
    issues are these N and no more. *)
Theorem nameless_questions_all_reported (props qprops : props_t) :
  member (VObj false props) "questions" = VObj true qprops ->
  Forall nameless_question (array_items qprops) ->
  let issues := parse formSchema [] (VObj false props) in
  let N := List.length (array_items qprops) in
  map issue_path (filter name_issue issues) = map namePath (seq 0 N)
  /\ List.length (filter name_issue issues) = N
  /\ Forall (fun i => is_required_field i = true) (filter name_issue issues)
  /\ List.length issues
     = N + List.length (filter (fun i => negb (name_issue i)) issues)
  /\ (filter (fun i => negb (name_issue i)) issues = [] ->
      map issue_path issues = map namePath (seq 0 N)).
Proof.
  intros Hq Hall issues N.
  assert (Hsplit : filter name_issue issues
                   = filter name_issue (question_issues 0 (array_items qprops))).
  { subst issues.
    change (parse formSchema [] (VObj false props))
      with (parse (string_nonempty "Title required") titlePath (member (VObj false props) "title")
            ++ parse (ZArray questionSchema) [SKey "questions"] (member (VObj false props) "questions")
            ++ [])%list.
    rewrite Hq, !filter_app, app_nil_r.
    rewrite (filter_none name_issue (parse (string_nonempty _) _ _)).
    2:{ intros x Hx. apply parse_paths_extend in Hx as [r Hr']. unfold name_issue. now rewrite Hr'. }
    reflexivity. }
  destruct (nameless_questions_name_issues _ 0 Hall) as [H1 H2].
  assert (Hlen : List.length (filter name_issue issues) = N).
  { rewrite <- (length_map issue_path), Hsplit, H1, length_map, length_seq. reflexivity. }
  assert (Hall_names : filter (fun i => negb (name_issue i)) issues = [] ->
                       filter name_issue issues = issues).
  { clear. induction issues as [|x l IH]; simpl; [reflexivity|].
    destruct (name_issue x); simpl; [|discriminate].
    intros H. now rewrite IH. }
  split; [now rewrite Hsplit|].
  split; [exact Hlen|].
  split; [now rewrite Hsplit|].
  split.
  - rewrite <- Hlen. clear. induction issues as [|x l IH]; simpl; [reflexivity|].
    destruct (name_issue x); simpl; lia.
  - intros Hnone. rewrite <- (Hall_names Hnone) at 1. now rewrite Hsplit.
Qed.

Lemma title_required_once_witness :
  let formText := "title=&questions.0=x&questions.1.name=&questions.1.type=BOOL" in
  empty_or_absent (Qs.parse formText) "title"
  /\ exists i,
       issues_at titlePath (parse formSchema [] (Qs.parse formText)) = [i]
       /\ is_required_field i = true
       /\ issue_path i = titlePath.
Proof.
  assert (H : empty_or_absent
                (Qs.parse "title=&questions.0=x&questions.1.name=&questions.1.type=BOOL")
                "title")
    by (left; reflexivity).
  split; [exact H | exact (proj2 title_required_once _ H)].
Defined.

Lemma nameless_questions_all_reported_witness :
  let qs := [js_object [("name", VStr ""); ("type", VStr "TEXT")];
             js_object [("type", VStr "NUMBER")];
             newQuestion] in
  let props := [("title", VStr "T"); ("questions", js_array qs)] in
  let issues := parse formSchema [] (VObj false props) in
  map issue_path (filter name_issue issues) = map namePath (seq 0 3)
  /\ List.length (filter name_issue issues) = 3
  /\ Forall (fun i => is_required_field i = true) (filter name_issue issues)
  /\ List.length issues
     = 3 + List.length (filter (fun i => negb (name_issue i)) issues)
  /\ (filter (fun i => negb (name_issue i)) issues = [] ->
      map issue_path issues = map namePath (seq 0 3)).
Proof.
  refine (nameless_questions_all_reported
            [("title", VStr "T");
             ("questions",
              js_array [js_object [("name", VStr ""); ("type", VStr "TEXT")];
                        js_object [("type", VStr "NUMBER")];
                        newQuestion])]
            (array_props 0 [js_object [("name", VStr ""); ("type", VStr "TEXT")];
                            js_object [("type", VStr "NUMBER")];
                            newQuestion])
            eq_refl _).
  repeat (constructor;
          [split; [eexists; reflexivity
                  | (left; reflexivity) || (right; reflexivity)] | ]).
  constructor.
Defined.

(** ** The error mapper *)

Lemma string_of_nat_not (i : nat) (k : string) :
  array_index k = None -> String.eqb (string_of_nat i) k = false.
Proof.
  intros Hk. apply String.eqb_neq. intros <-.
  rewrite array_index_string_of_nat in Hk. discriminate.
Qed.

Lemma field_seg_safe (s : seg) :
  is_field_seg s = true -> Lodash.unsafe_key (Lodash.toKey s) = false.
Proof.
  destruct s as [k|i]; simpl; intros H.
  - repeat (apply orb_prop in H as [H|H];
            [apply String.eqb_eq in H; subst k; reflexivity|]).
    discriminate.
  - unfold Lodash.unsafe_key.
    now rewrite !string_of_nat_not by reflexivity.
Qed.

Lemma baseSet_nest (p : path) :
  forall a v, forallb is_field_seg p = true ->
  p <> [] -> Lodash.baseSet (VObj a []) p v = nest a p v.
Proof.
  induction p as [|s rest IH]; intros a v Hp Hne; [congruence|].
  simpl in Hp. apply andb_prop in Hp as [Hs Hrest].
  cbn [Lodash.baseSet nest]. rewrite (field_seg_safe s Hs).
  destruct rest as [|next rest']; [reflexivity|].
  assert (Hobj : isObject (member (VObj a []) (Lodash.toKey s)) = false).
  { simpl. destruct (a && _); reflexivity. }
  rewrite Hobj.
  destruct (Lodash.isIndex next); rewrite IH by (auto; discriminate); reflexivity.
Qed.

Lemma nested_at_baseSet (p : path) :
  forall a props v, forallb is_field_seg p = true -> p <> [] ->
  nested_at (Lodash.baseSet (VObj a props) p v) (keys p) v.
Proof.
  induction p as [|s rest IH]; intros a props v Hp Hne; [congruence|].
  simpl in Hp. apply andb_prop in Hp as [Hs Hrest].
  cbn [Lodash.baseSet keys map nested_at]. rewrite (field_seg_safe s Hs).
  destruct rest as [|next rest'].
  - do 3 eexists. split; [reflexivity|]. split; [apply own_get_set_same|reflexivity].
  - do 3 eexists. split; [reflexivity|]. split; [apply own_get_set_same|].
    destruct (isObject (member (VObj a props) (Lodash.toKey s))) eqn:E.
    + destruct (member (VObj a props) (Lodash.toKey s)); try discriminate.
      apply IH; auto; discriminate.
    + destruct (Lodash.isIndex next); apply IH; auto; discriminate.
Qed.

Lemma nested_at_frame (q : path) :
  forall ks t v w, nested_at t ks v -> diverge ks (keys q) = true ->
  nested_at (Lodash.baseSet t q w) ks v.
Proof.
  induction q as [|s rest IH]; intros ks t v w Hn Hd.
  - destruct ks; discriminate.
  - destruct ks as [|k ks']; [discriminate|].
    cbn [keys map diverge] in Hd.
    destruct Hn as [a [props [x [-> [Hget Hx]]]]].
    cbn [Lodash.baseSet].
    destruct (Lodash.unsafe_key (Lodash.toKey s)).
    { exists a, props, x. auto. }
    destruct (String.eqb k (Lodash.toKey s)) eqn:E.
    + apply String.eqb_eq in E. subst k.
      destruct rest as [|next rest']; [destruct ks'; discriminate|].
      assert (Hm : member (VObj a props) (Lodash.toKey s) = x)
        by (simpl; now rewrite Hget).
      rewrite Hm.
      assert (Hobj : isObject x = true).
      { destruct ks' as [|k' ks'']; [discriminate|].
        destruct Hx as [a' [props' [x' [-> _]]]]. reflexivity. }
      rewrite Hobj.
      do 3 eexists. split; [reflexivity|]. split; [apply own_get_set_same|].
      apply IH; assumption.
    + assert (Hne : Lodash.toKey s <> k)
        by (intros <-; now rewrite String.eqb_refl in E).
      destruct rest as [|next rest'];
        (do 3 eexists; split; [reflexivity|]; split;
         [rewrite own_get_set_other by exact Hne; exact Hget | exact Hx]).
Qed.

Lemma baseSet_isObject (p : path) (t v : value) :
  isObject t = true -> isObject (Lodash.baseSet t p v) = true.
Proof.
  destruct t; try discriminate. intros _.
  destruct p as [|s rest]; [reflexivity|]. cbn [Lodash.baseSet].
  destruct (Lodash.unsafe_key _); [reflexivity|].
  destruct rest; reflexivity.
Qed.

Lemma set_isObject (p : path) (t v : value) :
  isObject t = true -> Lodash.set t p v = Lodash.baseSet t p v
                       /\ isObject (Lodash.set t p v) = true.
Proof.
  intros H. unfold Lodash.set.
  destruct t; try discriminate. simpl is_nullish. cbv iota.
  split; [reflexivity | now apply baseSet_isObject].
Qed.

Lemma fold_write_isObject (l : list issue) (t : value) :
  isObject t = true -> isObject (fold_left write_issue l t) = true.
Proof.
  revert t. induction l as [|i l IH]; intros t H; simpl; [assumption|].
  apply IH. now apply set_isObject.
Qed.

Lemma fold_write_frame (after : list issue) :
  forall ks t v,
    nested_at t ks v -> isObject t = true ->
    Forall (fun j => diverge ks (keys (issue_path j)) = true) after ->
    nested_at (fold_left write_issue after t) ks v.
Proof.
  induction after as [|j after IH]; intros ks t v Hn Ht Hall; simpl; [assumption|].
  inversion Hall as [|? ? Hj Hrest]; subst.
  apply IH; auto.
  - unfold write_issue. rewrite (proj1 (set_isObject _ _ _ Ht)).
    now apply nested_at_frame.
  - now apply set_isObject.
Qed.

Lemma nested_at_baseGet (ks : list string) :
  forall t v, ks <> [] -> nested_at t ks v -> Lodash.baseGet t ks = v.
Proof.
  intros t v Hne H. unfold Lodash.baseGet.
  destruct ks as [|k0 ks0]; [congruence|]. clear Hne.
  revert t H. generalize (k0 :: ks0). intros l.
  induction l as [|k rest IH]; intros t H; simpl in *; [assumption|].
  destruct H as [a [props [x [-> [Hget Hx]]]]]. simpl. rewrite Hget.
  now apply IH.
Qed.

Lemma errorTree_split (before after : list issue) (i : issue) :
  errorTree (before ++ i :: after)
  = fold_left write_issue after
      (write_issue (fold_left write_issue before (js_object [])) i).
Proof.
  unfold errorTree. now rewrite fold_left_app.
Qed.

Lemma errorTree_entry (before after : list issue) (i : issue) :
  FieldPath (issue_path i) ->
  Forall (fun j => diverge (keys (issue_path i)) (keys (issue_path j)) = true) after ->
  nested_at (errorTree (before ++ i :: after)) (keys (issue_path i)) (VStr (message i)).
Proof.
  intros [Hne Hp] Hall. rewrite errorTree_split.
  assert (Hb : isObject (fold_left write_issue before (js_object [])) = true)
    by (now apply fold_write_isObject).
  apply fold_write_frame; auto.
  - unfold write_issue. rewrite (proj1 (set_isObject _ _ _ Hb)).
    destruct (fold_left write_issue before (js_object [])); try discriminate.
    now apply nested_at_baseSet.
  - now apply set_isObject.
Qed.

Lemma FOP_app {A : Type} (R : A -> A -> Prop) (l1 l2 : list A) :
  ForallOrdPairs R l1 -> ForallOrdPairs R l2 ->
  (forall x y, In x l1 -> In y l2 -> R x y) ->
  ForallOrdPairs R (l1 ++ l2).
Proof.
  induction 1 as [|a l Ha Hl IH]; intros H2 Hc; simpl; [assumption|].
  constructor.
  - apply Forall_app. split; [assumption|].
    apply Forall_forall. intros y Hy. apply Hc; [now left | assumption].
  - apply IH; [assumption|]. intros x y Hx Hy. apply Hc; [now right | assumption].
Qed.

Lemma FOP_split {A : Type} (R : A -> A -> Prop) (before : list A) :
  forall l i after,
    ForallOrdPairs R l -> l = (before ++ i :: after)%list -> Forall (R i) after.
Proof.
  induction before as [|b before IH]; intros l i after H ->; simpl in H.
  - now inversion H.
  - inversion H; subst. eapply IH; eauto.
Qed.

Lemma diverge_at (ks r r' : list string) (a b : string) :
  a <> b -> diverge (ks ++ a :: r) (ks ++ b :: r') = true.
Proof.
  intros Hab. induction ks as [|k ks IH]; simpl.
  - destruct (String.eqb a b) eqn:E; [apply String.eqb_eq in E; congruence | reflexivity].
  - now rewrite String.eqb_refl.
Qed.

Lemma in_concat_mapi_from {A B : Type} (f : nat -> A -> list B) (l : list A) :
  forall start b, In b (concat (mapi f start l)) ->
  exists k x, start <= k /\ In b (f k x).
Proof.
  induction l as [|x l IH]; simpl; intros start b H; [contradiction|].
  apply in_app_or in H as [H|H].
  - exists start, x. auto.
  - apply IH in H as [k [y [Hk Hy]]]. exists k, y. split; [lia | assumption].
Qed.

Lemma extends_step (p : path) (s : seg) (i : issue) :
  is_field_seg s = true -> extends (p ++ [s])%list i -> extends p i.
Proof.
  intros Hs [q [Hq Hf]]. exists (s :: q). split.
  - now rewrite Hq, <- app_assoc.
  - simpl. now rewrite Hs, Hf.
Qed.

Lemma leaves_aside_at (p : path) (a b : seg) (x y : issue) :
  Lodash.toKey a <> Lodash.toKey b ->
  extends (p ++ [a])%list x -> extends (p ++ [b])%list y -> leaves_aside x y.
Proof.
  intros Hab [qx [Hx _]] [qy [Hy _]]. unfold leaves_aside, keys.
  rewrite Hx, Hy, <- !app_assoc, !map_app. simpl. now apply diverge_at.
Qed.

Lemma single_issue (p : path) (i : issue) :
  issue_path i = p ->
  Forall (extends p) [i] /\ ForallOrdPairs leaves_aside [i].
Proof.
  intros H. split.
  - constructor; [|constructor]. exists []. now rewrite app_nil_r.
  - repeat constructor.
Qed.

Lemma parse_object_cons (k : string) (fs : schema) (sh : list (string * schema))
  (p : path) (props : props_t) :
  parse (ZObject ((k, fs) :: sh)) p (VObj false props)
  = (parse fs (p ++ [SKey k]) (member (VObj false props) k)
     ++ parse (ZObject sh) p (VObj false props))%list.
Proof. reflexivity. Qed.

Lemma parse_tidy (s : schema) :
  tidy s ->
  forall p v,
    Forall (extends p) (parse s p v)
    /\ ForallOrdPairs leaves_aside (parse s p v).
Proof.
  induction s using schema_ind'; intros Ht p v; inversion Ht; subst.
  - (* strings *)
    destruct v; try (now apply single_issue).
    destruct checks as [|c [|c' cs]]; simpl in *; [split; constructor | | lia].
    unfold run_check. destruct (Nat.ltb _ _); simpl.
    + now apply single_issue.
    + split; constructor.
  - (* enumerations *)
    destruct v; try (now apply single_issue). simpl.
    destruct (existsb _ _); [split; constructor | now apply single_issue].
  - (* arrays *)
    destruct v as [| | | | |[|] props]; try (now apply single_issue).
    cbn [parse]. generalize (array_items props) as items. generalize 0 as start.
    intros start items. revert start.
    induction items as [|item items IHi]; intros start; cbn [mapi concat].
    + split; constructor.
    + destruct (IHs H0 (p ++ [SIdx start])%list item) as [He Ho].
      destruct (IHi (S start)) as [He' Ho'].
      split.
      * apply Forall_app. split; [|assumption].
        eapply Forall_impl; [|exact He]. intros i. now apply extends_step.
      * apply FOP_app; auto. intros x y Hx Hy.
        apply in_concat_mapi_from in Hy as [k [item' [Hk Hy]]].
        destruct (IHs H0 (p ++ [SIdx k])%list item') as [Hey _].
        rewrite Forall_forall in He, Hey.
        apply (leaves_aside_at p (SIdx start) (SIdx k)); auto.
        simpl. intros E. apply string_of_nat_inj in E. lia.
  - (* objects *)
    destruct v as [| | | | |[|] props]; try (now apply single_issue).
    rename H into IH. rename H1 into Hnd. rename H2 into Hnames. rename H3 into Hsh.
    assert (G : Forall (extends p) (parse (ZObject shape) p (VObj false props))
                /\ ForallOrdPairs leaves_aside (parse (ZObject shape) p (VObj false props))
                /\ forall y, In y (parse (ZObject shape) p (VObj false props)) ->
                     exists k, In k (map fst shape) /\ extends (p ++ [SKey k])%list y).
    { clear Ht. induction shape as [|[k fs] sh IHsh].
      - repeat split; try constructor. intros y [].
      - rewrite parse_object_cons.
        inversion IH as [|? ? IHfs IHrest]; subst.
        inversion Hnd as [|? ? Hk Hnd']; subst.
        inversion Hnames as [|? ? Hname Hnames']; subst.
        inversion Hsh as [|? ? Hfs Hsh']; subst. cbn [fst snd] in *.
        destruct (IHfs Hfs (p ++ [SKey k])%list (member (VObj false props) k)) as [He Ho].
        destruct (IHsh IHrest Hnd' Hnames' Hsh') as [He' [Ho' Hin']].
        split; [|split].
        + apply Forall_app. split; [|assumption].
          eapply Forall_impl; [|exact He]. intros i. now apply extends_step.
        + apply FOP_app; auto. intros x y Hx Hy.
          apply Hin' in Hy as [k' [Hk' Hy]].
          rewrite Forall_forall in He.
          apply (leaves_aside_at p (SKey k) (SKey k')); auto.
          simpl. intros <-. contradiction.
        + intros y Hy. apply in_app_or in Hy as [Hy|Hy].
          * exists k. split; [now left|]. rewrite Forall_forall in He. auto.
          * apply Hin' in Hy as [k' [Hk' Hy]]. exists k'. split; [now right | assumption]. }
    split; apply G.
  - (* optional *)
    destruct v; simpl; try (now apply IHs); split; constructor.
Qed.

Lemma formSchema_tidy : tidy formSchema.
Proof.
  unfold formSchema, questionSchema, string_nonempty.
  repeat (first [ apply tidy_object | apply tidy_array | apply tidy_optional
                | apply tidy_enum | apply tidy_string
                | apply Forall_cons | apply Forall_nil
                | apply NoDup_cons | apply NoDup_nil ]);
    simpl; try reflexivity; try lia; intuition discriminate.
Qed.

Lemma formSchema_issue_nonempty (props : props_t) (i : issue) :
  In i (parse formSchema [] (VObj false props)) -> issue_path i <> [].
Proof.
  unfold formSchema. rewrite !parse_object_cons. intros H.
  apply in_app_or in H as [H|H]; [|apply in_app_or in H as [H|H]].
  - apply parse_paths_extend in H as [q ->]. discriminate.
  - apply parse_paths_extend in H as [q ->]. discriminate.
  - destruct H.
Qed.

Lemma every_issue_in_errorTree (props : props_t) (i : issue) :
  In i (parse formSchema [] (VObj false props)) ->
  nested_at (errorTree (parse formSchema [] (VObj false props)))
            (keys (issue_path i)) (VStr (message i)).
Proof.
  intros Hin.
  destruct (parse_tidy formSchema formSchema_tidy [] (VObj false props)) as [He Ho].
  destruct (in_split _ _ Hin) as [before [after Hl]].
  rewrite Hl. apply errorTree_entry.
  - split; [now apply (formSchema_issue_nonempty props)|].
    rewrite Forall_forall in He. destruct (He i Hin) as [q [Hq Hf]].
    simpl in Hq. now rewrite Hq.
  - exact (FOP_split leaves_aside before _ i after Ho Hl).
Qed.

(** C3. The error mapper nests: a single entry gives the tree with one
    object or array per segment of its path and the message at the leaf;
    in any list, an entry whose path is a FieldPath and which every later
    entry leaves aside (none shares, extends or cuts its path) has its
    message at the leaf under its path, one level per segment; and of two
    entries with the same path the later one's message is the one found,
    nothing being raised.  The issues the schema raises on a submitted
    object always meet these conditions: each of them is found under its
    path in the tree, and so in the tree the action answers with. *)
Theorem errorTree_nests_and_overwrites :
  (forall i, FieldPath (issue_path i) ->
     errorTree [i] = nest false (issue_path i) (VStr (message i)))
  /\ (forall before i after,
        FieldPath (issue_path i) ->
        Forall (fun j => diverge (keys (issue_path i)) (keys (issue_path j)) = true) after ->
        nested_at (errorTree (before ++ i :: after)) (keys (issue_path i)) (VStr (message i))
        /\ Lodash.baseGet (errorTree (before ++ i :: after)) (keys (issue_path i))
           = VStr (message i))
  /\ (forall before earlier i,
        FieldPath (issue_path i) ->
        keys (issue_path earlier) = keys (issue_path i) ->
        Lodash.baseGet (errorTree (before ++ [earlier; i])) (keys (issue_path i))
        = VStr (message i))
  /\ (forall props i,
        In i (parse formSchema [] (VObj false props)) ->
        nested_at (errorTree (parse formSchema [] (VObj false props)))
                  (keys (issue_path i)) (VStr (message i))
        /\ Lodash.baseGet (errorTree (parse formSchema [] (VObj false props)))
                          (keys (issue_path i))
           = VStr (message i))
  /\ (forall formText i,
        In i (parse formSchema [] (Qs.parse formText)) ->
        exists tree,
          action formText = Json (js_object [("errors", tree)])
          /\ Lodash.baseGet tree (keys (issue_path i)) = VStr (message i)).
Proof.
  assert (Hnonempty : forall p, p <> [] -> keys p <> []).
  { intros [|s p] H; [congruence | discriminate]. }
  assert (Hreported : forall props i,
            In i (parse formSchema [] (VObj false props)) ->
            Lodash.baseGet (errorTree (parse formSchema [] (VObj false props)))
                           (keys (issue_path i))
            = VStr (message i)).
  { intros props i Hin.
    apply nested_at_baseGet; [|now apply every_issue_in_errorTree].
    apply Hnonempty. now apply (formSchema_issue_nonempty props). }
  split; [|split; [|split; [|split]]].
  - intros i [Hne Hp]. apply baseSet_nest; assumption.
  - intros before i after Hi Hafter. split; [now apply errorTree_entry|].
    apply nested_at_baseGet; [apply Hnonempty, Hi | now apply errorTree_entry].
  - intros before earlier i Hi _.
    change (before ++ [earlier; i])%list with (before ++ earlier :: [i])%list.
    rewrite (app_assoc before [earlier] [i] : (before ++ earlier :: [i] = (before ++ [earlier]) ++ i :: [])%list).
    apply nested_at_baseGet; [apply Hnonempty, Hi | apply errorTree_entry; auto].
  - intros props i Hin. split; [now apply every_issue_in_errorTree | now apply Hreported].
  - intros formText i Hin.
    exists (errorTree (parse formSchema [] (Qs.parse formText))). split.
    + unfold action, safeParse.
      destruct (parse formSchema [] (Qs.parse formText)); [destruct Hin | reflexivity].
    + destruct (parse_plain_object formText) as [props Hprops]. rewrite Hprops in *.
      now apply Hreported.
Qed.

Lemma errorTree_nests_and_overwrites_witness :
  let first := mkIssue (too_small 1) (namePath 0) "first" in
  let second := mkIssue (too_small 1) (namePath 0) "Name required" in
  let other := mkIssue (too_small 1) titlePath "Title required" in
  Lodash.baseGet (errorTree ([first] ++ second :: [other])) (keys (namePath 0))
  = VStr "Name required".
Proof.
  refine (proj2 (proj1 (proj2 errorTree_nests_and_overwrites)
                   [mkIssue (too_small 1) (namePath 0) "first"]
                   (mkIssue (too_small 1) (namePath 0) "Name required")
                   [mkIssue (too_small 1) titlePath "Title required"] _ _)).
  - split; [discriminate | reflexivity].
  - repeat constructor.
Defined.

(** ** The trip through the submitted pairs *)

(** Dense arrays *)

Lemma own_get_array_props_lt (l : list value) :
  forall s i, i < s -> own_get (string_of_nat i) (array_props s l) = None.
Proof.
  induction l as [|x l IH]; intros s i Hi; simpl; [reflexivity|].
  destruct (String.eqb (string_of_nat i) (string_of_nat s)) eqn:E.
  - apply String.eqb_eq, string_of_nat_inj in E. lia.
  - apply IH. lia.
Qed.

Lemma own_get_array_props (l : list value) :
  forall s i, own_get (string_of_nat (s + i)) (array_props s l) = nth_error l i.
Proof.
  induction l as [|x l IH]; intros s i; simpl.
  - now destruct i.
  - destruct i as [|i].
    + now rewrite Nat.add_0_r, String.eqb_refl.
    + destruct (String.eqb (string_of_nat (s + S i)) (string_of_nat s)) eqn:E.
      * apply String.eqb_eq, string_of_nat_inj in E. lia.
      * replace (s + S i) with (S s + i) by lia. apply IH.
Qed.

Lemma array_length_array_props (l : list value) :
  forall s, array_length (array_props s l) = match l with [] => 0 | _ => s + List.length l end.
Proof.
  induction l as [|x l IH]; intros s; simpl; [reflexivity|].
  rewrite array_index_string_of_nat, IH.
  destruct l; simpl; lia.
Qed.

Lemma array_length_js_array (l : list value) :
  array_length (array_props 0 l) = List.length l.
Proof. rewrite array_length_array_props. now destruct l. Qed.

Lemma array_items_js_array (l : list value) :
  array_items (array_props 0 l) = l.
Proof.
  unfold array_items. rewrite array_length_js_array.
  apply nth_error_ext. intros i.
  destruct (Nat.lt_ge_cases i (List.length l)) as [Hi|Hi].
  - rewrite nth_error_map, nth_error_seq. 
    destruct (Nat.ltb_spec i (List.length l)); [|lia]. simpl.
    unfold array_item. pose proof (own_get_array_props l 0 i) as Hg.
    simpl in Hg. rewrite Hg.
    destruct (nth_error l i) eqn:E; [reflexivity|].
    apply nth_error_None in E. lia.
  - rewrite (proj2 (nth_error_None _ _)) by (now rewrite length_map, length_seq).
    symmetry. now apply nth_error_None.
Qed.

Lemma own_set_array_props_end (l : list value) (v : value) :
  forall s, own_set (string_of_nat (s + List.length l)) v (array_props s l)
            = array_props s (l ++ [v]).
Proof.
  induction l as [|x l IH]; intros s; simpl.
  - now rewrite Nat.add_0_r.
  - destruct (String.eqb _ (string_of_nat s)) eqn:E.
    + apply String.eqb_eq, string_of_nat_inj in E. lia.
    + unfold key_before. rewrite !array_index_string_of_nat.
      destruct (Nat.ltb_spec (s + S (List.length l)) s); [lia|].
      replace (s + S (List.length l)) with (S s + List.length l) by lia.
      now rewrite IH.
Qed.

Lemma own_set_array_props_last (l : list value) (x v : value) :
  forall s, own_set (string_of_nat (s + List.length l)) v (array_props s (l ++ [x]))
            = array_props s (l ++ [v]).
Proof.
  induction l as [|y l IH]; intros s; simpl.
  - now rewrite Nat.add_0_r, String.eqb_refl.
  - destruct (String.eqb _ (string_of_nat s)) eqn:E.
    + apply String.eqb_eq, string_of_nat_inj in E. lia.
    + unfold key_before. rewrite !array_index_string_of_nat.
      destruct (Nat.ltb_spec (s + S (List.length l)) s); [lia|].
      replace (s + S (List.length l)) with (S s + List.length l) by lia.
      now rewrite IH.
Qed.

(** Keys of the inputs *)

Ltac below_limit i :=
  do 21 (destruct i as [|i]; [vm_compute; reflexivity|]);
  exfalso; unfold Qs.arrayLimit in *; lia.

Lemma chain_of_nameField (i : nat) :
  i <= Qs.arrayLimit ->
  Qs.chain_of (nameField i)
  = Some [Qs.Parent "questions"; Qs.Child (string_of_nat i); Qs.Child "name"].
Proof. intros H. below_limit i. Qed.

Lemma chain_of_typeField (i : nat) :
  i <= Qs.arrayLimit ->
  Qs.chain_of (typeField i)
  = Some [Qs.Parent "questions"; Qs.Child (string_of_nat i); Qs.Child "type"].
Proof. intros H. below_limit i. Qed.

Lemma chain_of_labelField (i j : nat) :
  i <= Qs.arrayLimit -> j <= Qs.arrayLimit ->
  Qs.chain_of (labelField i j)
  = Some [Qs.Parent "questions"; Qs.Child (string_of_nat i); Qs.Child "options";
          Qs.Child (string_of_nat j); Qs.Child "label"].
Proof.
  intros Hi Hj.
  do 21 (destruct i as [|i]; [below_limit j|]).
  exfalso; unfold Qs.arrayLimit in *; lia.
Qed.

Lemma wrap_index (i : nat) (leaf : value) :
  i <= Qs.arrayLimit ->
  Qs.wrap (Qs.Child (string_of_nat i)) leaf = VObj true [(string_of_nat i, leaf)].
Proof. intros H. below_limit i. Qed.

Lemma parseKeys_titleField (v : value) :
  Qs.parseKeys titleField v = VObj false [("title", v)].
Proof. reflexivity. Qed.

Lemma parseKeys_nameField (i : nat) (v : value) :
  i <= Qs.arrayLimit ->
  Qs.parseKeys (nameField i) v
  = VObj false [("questions",
                 VObj true [(string_of_nat i, VObj false [("name", v)])])].
Proof.
  intros H. unfold Qs.parseKeys. rewrite chain_of_nameField by exact H.
  cbn [Qs.parseObject fold_right]. now rewrite wrap_index.
Qed.

Lemma parseKeys_typeField (i : nat) (v : value) :
  i <= Qs.arrayLimit ->
  Qs.parseKeys (typeField i) v
  = VObj false [("questions",
                 VObj true [(string_of_nat i, VObj false [("type", v)])])].
Proof.
  intros H. unfold Qs.parseKeys. rewrite chain_of_typeField by exact H.
  cbn [Qs.parseObject fold_right]. now rewrite wrap_index.
Qed.

Lemma parseKeys_labelField (i j : nat) (v : value) :
  i <= Qs.arrayLimit -> j <= Qs.arrayLimit ->
  Qs.parseKeys (labelField i j) v
  = VObj false
      [("questions",
        VObj true
          [(string_of_nat i,
            VObj false
              [("options",
                VObj true [(string_of_nat j, VObj false [("label", v)])])])])].
Proof.
  intros Hi Hj. unfold Qs.parseKeys. rewrite chain_of_labelField by assumption.
  cbn [Qs.parseObject fold_right]. rewrite (wrap_index j) by exact Hj.
  change (Qs.wrap (Qs.Child "options") ?x) with (VObj false [("options", x)]).
  now rewrite wrap_index.
Qed.

(** Merging into dense arrays *)

Lemma is_array_index_string_of_nat (i : nat) :
  is_array_index (string_of_nat i) = true.
Proof. unfold is_array_index. now rewrite array_index_string_of_nat. Qed.

Lemma merge_array_append (l : list value) (item : value) :
  Qs.merge (js_array l) (VObj true [(string_of_nat (List.length l), item)])
  = js_array (l ++ [item]).
Proof.
  unfold js_array. cbn [Qs.merge andb].
  rewrite is_array_index_string_of_nat.
  pose proof (own_get_array_props l 0 (List.length l)) as Hg. simpl in Hg.
  rewrite Hg, (proj2 (nth_error_None l (List.length l))) by lia.
  f_equal. exact (own_set_array_props_end l item 0).
Qed.

Lemma merge_array_last (l : list value) (cur inner : value) :
  Qs.is_object_like cur = true -> Qs.is_object_like inner = true ->
  Qs.merge (js_array (l ++ [cur])) (VObj true [(string_of_nat (List.length l), inner)])
  = js_array (l ++ [Qs.merge cur inner]).
Proof.
  intros Hc Hi. unfold js_array. cbn [Qs.merge andb].
  rewrite is_array_index_string_of_nat.
  pose proof (own_get_array_props (l ++ [cur]) 0 (List.length l)) as Hg. simpl in Hg.
  rewrite Hg, nth_error_app2, Nat.sub_diag by lia. cbn [nth_error].
  rewrite Hc, Hi. cbn [andb].
  f_equal. exact (own_set_array_props_last l cur _ 0).
Qed.

Lemma merge_first_question (t : string) (item : value) :
  Qs.merge (VObj false [("title", VStr t)])
           (VObj false [("questions", VObj true [(string_of_nat 0, item)])])
  = with_questions t [item].
Proof. reflexivity. Qed.

Lemma merge_into_questions (t : string) (qs : list value) (x : value) :
  Qs.merge (with_questions t qs) (VObj false [("questions", x)])
  = VObj false [("title", VStr t); ("questions", Qs.merge (js_array qs) x)].
Proof. reflexivity. Qed.

Lemma merge_option (n ty : string) (opts : list value) (item : value) :
  Qs.merge (question_with n ty opts)
           (VObj false [("options", VObj true [(string_of_nat (List.length opts), item)])])
  = question_with n ty (opts ++ [item]).
Proof.
  destruct opts as [|o opts]; [reflexivity|].
  unfold question_with.
  replace ((o :: opts) ++ [item])%list with (o :: (opts ++ [item]))%list by reflexivity.
  cbn [app].
  change (Qs.merge (VObj false [("name", VStr n); ("type", VStr ty);
                                ("options", js_array (o :: opts))])
                   (VObj false [("options", VObj true [(string_of_nat (List.length (o :: opts)), item)])]))
    with (VObj false [("name", VStr n); ("type", VStr ty);
                      ("options", Qs.merge (js_array (o :: opts))
                                           (VObj true [(string_of_nat (List.length (o :: opts)), item)]))]).
  now rewrite merge_array_append.
Qed.

Lemma fold_labels (t n ty : string) (done : list value) (os : list Option) :
  List.length done <= Qs.arrayLimit ->
  forall opts,
    List.length opts + List.length os <= S Qs.arrayLimit ->
    fold_left merge_entry
      (entries (mapi (fun j o => (labelField (List.length done) j, label o))
                     (List.length opts) os))
      (with_questions t (done ++ [question_with n ty opts]))
    = with_questions t (done ++ [question_with n ty (opts ++ map option_value os)]).
Proof.
  intros Hk. induction os as [|o os IH]; intros opts Hlen.
  - simpl. now rewrite app_nil_r.
  - cbn [mapi entries map fold_left fst snd]. unfold merge_entry at 2.
    cbn [fst snd]. simpl in Hlen.
    rewrite parseKeys_labelField by (unfold Qs.arrayLimit in *; lia).
    rewrite merge_into_questions, merge_array_last by reflexivity.
    rewrite merge_option.
    fold (with_questions t (done ++ [question_with n ty (opts ++ [VObj false [("label", VStr (label o))]])])).
    replace (S (List.length opts))
      with (List.length (opts ++ [VObj false [("label", VStr (label o))]]))
      by (rewrite length_app; simpl; lia).
    change (map (fun kv : string * string => (fst kv, VStr (snd kv))) ?l) with (entries l).
    rewrite IH by (rewrite length_app; simpl; lia).
    now rewrite <- app_assoc.
Qed.

Lemma question_value_with (q : Question) :
  options_survive q ->
  question_value q = question_with (name q) (type_tag (type q)) (option_values q).
Proof.
  unfold options_survive, question_value, question_with, option_values.
  destruct (options q) as [[|o os]|]; intros H; try reflexivity.
  destruct H as [_ [H _]]. congruence.
Qed.

Lemma fold_question_fields (t : string) (done : list value) (q : Question) (start : value) :
  List.length done <= Qs.arrayLimit ->
  options_survive q ->
  start = match done with
          | [] => VObj false [("title", VStr t)]
          | _ => with_questions t done
          end ->
  fold_left merge_entry (entries (questionFields (List.length done) q)) start
  = with_questions t (done ++ [question_value q]).
Proof.
  intros Hk Hq ->. rewrite (question_value_with q Hq).
  unfold questionFields, entries. rewrite map_app, fold_left_app.
  cbn [map fold_left fst snd]. unfold merge_entry at 2 3. cbn [fst snd].
  rewrite parseKeys_nameField, parseKeys_typeField by exact Hk.
  assert (Hname :
    Qs.merge match done with
             | [] => VObj false [("title", VStr t)]
             | _ => with_questions t done
             end
             (VObj false [("questions",
                VObj true [(string_of_nat (List.length done),
                            VObj false [("name", VStr (name q))])])])
    = with_questions t (done ++ [VObj false [("name", VStr (name q))]])).
  { destruct done as [|d done']; [reflexivity|].
    now rewrite merge_into_questions, merge_array_append. }
  rewrite Hname, merge_into_questions, merge_array_last by reflexivity.
  change (Qs.merge (VObj false [("name", VStr (name q))])
                   (VObj false [("type", VStr (type_tag (type q)))]))
    with (question_with (name q) (type_tag (type q)) []).
  fold (with_questions t (done ++ [question_with (name q) (type_tag (type q)) []])).
  unfold options_survive in Hq. unfold option_values.
  destruct (options q) as [os|].
  - destruct Hq as [-> [_ Hlen]]. unfold optionFields.
    change (map (fun kv : string * string => (fst kv, VStr (snd kv))) ?l) with (entries l).
    exact (fold_labels t (name q) (type_tag RADIOLIST) done os Hk [] Hlen).
  - destruct (type q); reflexivity.
Qed.

Lemma fold_questions (t : string) (qs : list Question) :
  forall done,
    done <> [] ->
    List.length done + List.length qs <= S Qs.arrayLimit ->
    Forall options_survive qs ->
    fold_left merge_entry
      (entries (concat (mapi questionFields (List.length done) qs)))
      (with_questions t done)
    = with_questions t (done ++ map question_value qs).
Proof.
  induction qs as [|q qs IH]; intros done Hne Hlen Hall.
  - simpl. now rewrite app_nil_r.
  - inversion Hall as [|? ? Hq Hrest]; subst. simpl in Hlen.
    cbn [mapi concat]. unfold entries. rewrite map_app, fold_left_app.
    fold (entries (questionFields (List.length done) q)).
    fold (entries (concat (mapi questionFields (S (List.length done)) qs))).
    rewrite (fold_question_fields t done q (with_questions t done))
      by (auto; try (unfold Qs.arrayLimit in *; lia); destruct done; congruence).
    replace (S (List.length done)) with (List.length (done ++ [question_value q]))
      by (rewrite length_app; simpl; lia).
    rewrite IH; auto.
    + cbn [map]. now rewrite <- app_assoc.
    + destruct done; discriminate.
    + rewrite length_app. simpl. lia.
Qed.

Lemma fold_form_fields (f : QuestionnaireForm) :
  survives f ->
  fold_left merge_entry (entries (formFields f)) (VObj false [])
  = form_value f.
Proof.
  intros [Hne [Hlen Hall]]. unfold formFields, form_value.
  destruct (questions f) as [|q qs]; [congruence|]. clear Hne.
  inversion Hall as [|? ? Hq Hrest]; subst. simpl in Hlen.
  cbn [mapi concat entries map fold_left fst snd].
  change (merge_entry (VObj false []) (titleField, VStr (title f)))
    with (VObj false [("title", VStr (title f))]).
  change (map (fun kv : string * string => (fst kv, VStr (snd kv))) ?l) with (entries l).
  unfold entries. rewrite map_app, fold_left_app.
  fold (entries (questionFields 0 q)).
  fold (entries (concat (mapi questionFields 1 qs))).
  pose proof (fold_question_fields (title f) [] q _ (Nat.le_0_l _) Hq eq_refl) as H1.
  cbn [List.length app] in H1. rewrite H1.
  assert (H2 : [question_value q] <> []) by discriminate.
  apply (fold_questions (title f) qs [question_value q] H2); auto.
Qed.

(** Collecting the pairs *)

Lemma rank_nameField (i : nat) :
  i <= Qs.arrayLimit -> rank (nameField i) = 23 * i + 1.
Proof.
  intros H. unfold rank.
  now rewrite chain_of_nameField, array_index_string_of_nat by exact H.
Qed.

Lemma rank_typeField (i : nat) :
  i <= Qs.arrayLimit -> rank (typeField i) = 23 * i + 2.
Proof.
  intros H. unfold rank.
  now rewrite chain_of_typeField, array_index_string_of_nat by exact H.
Qed.

Lemma rank_labelField (i j : nat) :
  i <= Qs.arrayLimit -> j <= Qs.arrayLimit ->
  rank (labelField i j) = 23 * i + 3 + j.
Proof.
  intros Hi Hj. unfold rank.
  now rewrite chain_of_labelField, !array_index_string_of_nat by assumption.
Qed.

Lemma array_index_questions (s : string) :
  array_index ("questions." ++ s) = None.
Proof.
  unfold array_index. simpl.
  destruct (NilEmpty.uint_of_string _); reflexivity.
Qed.

Lemma own_set_new (k : string) (v : value) (props : props_t) :
  own_get k props = None -> array_index k = None ->
  own_set k v props = (props ++ [(k, v)])%list.
Proof.
  intros Hg Hk. induction props as [|[k' v'] rest IH]; simpl in *; [reflexivity|].
  destruct (String.eqb k k'); [discriminate|].
  unfold key_before. rewrite Hk. now rewrite IH.
Qed.

Lemma own_get_below (k : string) (acc : list (string * string)) :
  below (rank k) acc -> own_get k (entries acc) = None.
Proof.
  induction 1 as [|[k' v'] rest Hlt _ IH]; simpl; [reflexivity|].
  destruct (String.eqb k k') eqn:E; [|exact IH].
  apply String.eqb_eq in E. subst k'. simpl in Hlt. lia.
Qed.

Lemma collect_increasing (pairs : list (string * string)) :
  forall acc b,
    below b acc -> increasing b pairs ->
    fold_left
      (fun obj kv =>
         let (key, val) := kv : string * string in
         match own_get key obj with
         | Some old => own_set key (Qs.combine old (VStr val)) obj
         | None => own_set key (VStr val) obj
         end) pairs (entries acc)
    = entries (acc ++ pairs).
Proof.
  induction pairs as [|[k v] rest IH]; intros acc b Hacc Hinc.
  - now rewrite app_nil_r.
  - destruct Hinc as [Hb [Hk Hrest]]. cbn [fst] in *. cbn [fold_left].
    assert (Hbelow : below (rank k) acc).
    { eapply Forall_impl; [|exact Hacc]. simpl. intros; lia. }
    rewrite (own_get_below k acc Hbelow).
    rewrite own_set_new by (auto using own_get_below).
    change ((entries acc ++ [(k, VStr v)])%list) with ((entries acc ++ entries [(k, v)])%list).
    unfold entries at 1 2. rewrite <- map_app. fold (entries (acc ++ [(k, v)])).
    rewrite (IH (acc ++ [(k, v)])%list (S (rank k))); auto.
    + now rewrite <- app_assoc.
    + apply Forall_app. split.
      * eapply Forall_impl; [|exact Hbelow]. simpl. intros; lia.
      * constructor; [simpl; lia | constructor].
Qed.

Lemma increasing_weaken (l : list (string * string)) (b b' : nat) :
  b <= b' -> increasing b' l -> increasing b l.
Proof.
  destruct l as [|kv rest]; simpl; [auto|].
  intros Hb [H1 H2]. split; [lia | exact H2].
Qed.

Lemma increasing_app (l1 : list (string * string)) :
  forall b b' l2,
    increasing b l1 -> below b' l1 -> b <= b' -> increasing b' l2 ->
    increasing b (l1 ++ l2).
Proof.
  induction l1 as [|kv rest IH]; intros b b' l2 H1 Hbelow Hb H2; simpl.
  - now apply (increasing_weaken l2 b b').
  - destruct H1 as [Hk [Hn Hrest]]. inversion Hbelow as [|? ? Hlt Hbelow']; subst.
    repeat split; auto.
    apply (IH _ b'); auto.
Qed.

Lemma labels_increasing (k : nat) (os : list Option) :
  k <= Qs.arrayLimit ->
  forall s, s + List.length os <= S Qs.arrayLimit ->
  increasing (23 * k + 3 + s) (mapi (fun j o => (labelField k j, label o)) s os)
  /\ below (23 * k + 24) (mapi (fun j o => (labelField k j, label o)) s os).
Proof.
  intros Hk. induction os as [|o os IH]; intros s Hs;
    cbn [mapi List.length increasing fst] in *.
  - split; constructor.
  - destruct (IH (S s)) as [IH1 IH2]; [lia|].
    assert (Hr : rank (labelField k s) = 23 * k + 3 + s)
      by (apply rank_labelField; unfold Qs.arrayLimit in *; lia).
    split.
    + rewrite Hr. repeat split; [lia | apply array_index_questions |].
      eapply increasing_weaken; [|exact IH1]. lia.
    + constructor; [simpl; rewrite Hr; unfold Qs.arrayLimit in *; lia | exact IH2].
Qed.

Lemma question_increasing (k : nat) (q : Question) :
  k <= Qs.arrayLimit -> options_survive q ->
  increasing (23 * k + 1) (questionFields k q)
  /\ below (23 * k + 24) (questionFields k q).
Proof.
  intros Hk Hq. unfold questionFields.
  assert (Hn := rank_nameField k Hk). assert (Ht := rank_typeField k Hk).
  assert (Hlabels :
    increasing (23 * k + 3)
      match type q, options q with
      | RADIOLIST, Some os => optionFields k os
      | _, _ => []
      end
    /\ below (23 * k + 24)
      match type q, options q with
      | RADIOLIST, Some os => optionFields k os
      | _, _ => []
      end).
  { unfold options_survive in Hq.
    destruct (options q) as [os|]; [|destruct (type q); split; constructor].
    destruct Hq as [-> [_ Hlen]].
    destruct (labels_increasing k os Hk 0 Hlen) as [H1 H2].
    now rewrite Nat.add_0_r in H1. }
  destruct Hlabels as [H1 H2]. cbn [app]. split.
  - cbn [increasing fst]. rewrite Hn, Ht.
    repeat split; try apply array_index_questions; try lia.
    eapply increasing_weaken; [|exact H1]. lia.
  - constructor; [simpl; lia|]. constructor; [simpl; lia | exact H2].
Qed.

Lemma questions_increasing (qs : list Question) :
  forall s,
    s + List.length qs <= S Qs.arrayLimit ->
    Forall options_survive qs ->
    increasing (23 * s + 1) (concat (mapi questionFields s qs)).
Proof.
  induction qs as [|q qs IH]; intros s Hs Hall;
    cbn [mapi concat List.length] in *; [exact I|].
  inversion Hall as [|? ? Hq Hrest]; subst.
  destruct (question_increasing s q) as [H1 H2];
    [unfold Qs.arrayLimit in *; lia | exact Hq |].
  apply (increasing_app _ _ (23 * s + 24)); auto; [lia|].
  replace (23 * s + 24) with (23 * S s + 1) by lia.
  apply IH; [lia | exact Hrest].
Qed.

Lemma collect_formFields (f : QuestionnaireForm) :
  survives f -> Qs.collect (formFields f) = entries (formFields f).
Proof.
  intros [_ [Hlen Hall]].
  apply (collect_increasing (formFields f) [] 0); [constructor|].
  unfold formFields. cbn [increasing fst].
  split; [lia|]. split; [reflexivity|].
  change (rank titleField) with 0.
  exact (questions_increasing (questions f) 0 Hlen Hall).
Qed.

(** Compacting *)

Lemma map_array_props (g : value -> value) (l : list value) :
  forall s, map (fun kv => (fst kv, g (snd kv))) (array_props s l)
            = array_props s (map g l).
Proof. induction l as [|x l IH]; intros s; simpl; [reflexivity | now rewrite IH]. Qed.

Lemma compact_value_js_array (l : list value) :
  Forall (fun x => Qs.compact_value x = x /\ x <> VUndefined) l ->
  Qs.compact_value (js_array l) = js_array l.
Proof.
  intros H. unfold js_array. cbn [Qs.compact_value].
  rewrite map_array_props, array_items_js_array.
  assert (Hl : filter (fun x => match x with VUndefined => false | _ => true end)
                      (map Qs.compact_value l) = l).
  { induction H as [|x l [Hx Hd] _ IH]; simpl; [reflexivity|].
    rewrite Hx. destruct x; try congruence; simpl; now rewrite IH. }
  now rewrite Hl.
Qed.

Lemma compact_question_value (q : Question) :
  Qs.compact_value (question_value q) = question_value q.
Proof.
  unfold question_value, js_object. destruct (options q) as [os|]; [|reflexivity].
  cbn [app Qs.compact_value map fst snd].
  change (Qs.compact_value (VObj true (array_props 0 (map option_value os))))
    with (Qs.compact_value (js_array (map option_value os))).
  rewrite compact_value_js_array; [reflexivity|].
  apply Forall_forall. intros x Hx. apply in_map_iff in Hx as [o [<- _]].
  split; [reflexivity | discriminate].
Qed.

Lemma compact_form_value (f : QuestionnaireForm) :
  Qs.compact (form_value f) = form_value f.
Proof.
  unfold form_value, js_object. cbn [Qs.compact map fst snd].
  change (Qs.compact_value (VObj true (array_props 0 (map question_value (questions f)))))
    with (Qs.compact_value (js_array (map question_value (questions f)))).
  rewrite compact_value_js_array; [reflexivity|].
  apply Forall_forall. intros x Hx. apply in_map_iff in Hx as [q [<- _]].
  split; [apply compact_question_value | discriminate].
Qed.

Lemma parse_pairs_formFields (f : QuestionnaireForm) :
  survives f -> Qs.parse_pairs (formFields f) = form_value f.
Proof.
  intros H. unfold Qs.parse_pairs, Qs.parse_entries.
  rewrite (collect_formFields f H).
  change (fold_left _ (entries (formFields f)) (VObj false []))
    with (fold_left merge_entry (entries (formFields f)) (VObj false [])).
  rewrite (fold_form_fields f H). apply compact_form_value.
Qed.

(** The value of a form determines the form *)

Lemma array_props_inj (l l' : list value) :
  forall s, array_props s l = array_props s l' -> l = l'.
Proof.
  revert l'. induction l as [|x l IH]; intros [|x' l'] s H; simpl in H;
    try discriminate; [reflexivity|].
  inversion H. f_equal. eapply IH; eassumption.
Qed.

Lemma map_inj {A B : Type} (g : A -> B) (l l' : list A) :
  (forall x y, g x = g y -> x = y) -> map g l = map g l' -> l = l'.
Proof.
  intros Hg. revert l'. induction l as [|x l IH]; intros [|x' l'] H; simpl in H;
    try discriminate; [reflexivity|].
  inversion H. f_equal; auto.
Qed.

Lemma option_value_inj (o o' : Option) : option_value o = option_value o' -> o = o'.
Proof. destruct o, o'. unfold option_value. simpl. now intros [= ->]. Qed.

Lemma type_tag_inj (t t' : QuestionType) : type_tag t = type_tag t' -> t = t'.
Proof. destruct t, t'; simpl; intros H; try reflexivity; discriminate. Qed.

Lemma question_value_inj (q q' : Question) :
  question_value q = question_value q' -> q = q'.
Proof.
  destruct q as [n t o], q' as [n' t' o']. unfold question_value, js_object. simpl.
  destruct o as [os|], o' as [os'|]; simpl; intros H; inversion H as [[Hn Ht]];
    apply type_tag_inj in Ht; subst; try reflexivity.
  match goal with
  | Hos : array_props 0 _ = array_props 0 _ |- _ =>
      apply array_props_inj, (map_inj _ _ _ option_value_inj) in Hos; now subst
  end.
Qed.

Lemma form_value_inj (f g : QuestionnaireForm) :
  form_value f = form_value g -> f = g.
Proof.
  destruct f as [t qs], g as [t' qs']. unfold form_value, js_object, js_array. simpl.
  intros [= -> H].
  apply array_props_inj, (map_inj _ _ _ question_value_inj) in H. now subst.
Qed.

(** The pairs of a form stay within [parameterLimit] *)

Lemma length_mapi {A B : Type} (f : nat -> A -> B) (l : list A) :
  forall start, List.length (mapi f start l) = List.length l.
Proof. induction l as [|x l IH]; intros start; simpl; [reflexivity | now rewrite IH]. Qed.

Lemma length_questionFields (k : nat) (q : Question) :
  options_survive q -> List.length (questionFields k q) <= 23.
Proof.
  unfold options_survive, questionFields, optionFields. rewrite length_app.
  destruct (options q) as [os|]; [|destruct (type q); simpl; lia].
  intros [-> [_ Hlen]]. rewrite length_mapi. unfold Qs.arrayLimit in Hlen. simpl. lia.
Qed.

Lemma length_questions_fields (qs : list Question) :
  forall start,
    Forall options_survive qs ->
    List.length (concat (mapi questionFields start qs)) <= 23 * List.length qs.
Proof.
  induction qs as [|q qs IH]; intros start Hall; cbn [mapi concat List.length]; [lia|].
  inversion Hall as [|? ? Hq Hrest]; subst.
  rewrite length_app.
  pose proof (length_questionFields start q Hq). pose proof (IH (S start) Hrest). lia.
Qed.

Lemma formFields_within_limit (f : QuestionnaireForm) :
  survives f -> List.length (formFields f) <= Qs.parameterLimit.
Proof.
  intros [_ [Hlen Hall]]. unfold formFields. cbn [List.length].
  pose proof (length_questions_fields (questions f) 0 Hall).
  unfold Qs.arrayLimit in Hlen. unfold Qs.parameterLimit. lia.
Qed.

Lemma parse_text_of_formFields (f : QuestionnaireForm) (text : string) :
  survives f ->
  map Qs.parse_part (Qs.split_on "&"%char (Chars.chars text) []) = formFields f ->
  Qs.parse text = form_value f.
Proof.
  intros Hf Hparts.
  assert (Htext : Qs.parse text = Qs.parse_pairs (formFields f)).
  { unfold Qs.parse, Qs.parse_pairs, Qs.parseValues.
    destruct text as [|c text']; [discriminate|].
    rewrite firstn_all2; [now rewrite Hparts|].
    rewrite <- (length_map Qs.parse_part), Hparts. now apply formFields_within_limit. }
  rewrite Htext. now apply parse_pairs_formFields.
Qed.

(** C5 (amended). For every form with at least one question and at most
    21, whose questions carry options only when their type is RADIOLIST,
    and then at least one and at most 21, reconstructing the pairs of its
    inputs with the parser of the submission boundary gives the value of
    the form back, and no other such form has the same pairs; a body that
    splits and decodes into these pairs is parsed into the value of the
    form. *)
Theorem formFields_roundtrip (f : QuestionnaireForm) :
  survives f ->
  Qs.parse_pairs (formFields f) = form_value f
  /\ (forall g, survives g -> formFields g = formFields f -> g = f)
  /\ (forall text,
        map Qs.parse_part (Qs.split_on "&"%char (Chars.chars text) []) = formFields f ->
        Qs.parse text = form_value f).
Proof.
  intros Hf. split; [now apply parse_pairs_formFields|]. split.
  - intros g Hg Heq. apply form_value_inj.
    now rewrite <- (parse_pairs_formFields g Hg), Heq, parse_pairs_formFields.
  - intros text Htext. now apply parse_text_of_formFields.
Qed.

(** C5 as stated fails: a form with a title and no question is well
    formed, its only pair is the title, and what the parser reconstructs
    has no [questions] at all. *)
Lemma roundtrip_fails_without_questions :
  well_formed (mkForm "T" []) = true
  /\ Qs.parse_pairs (formFields (mkForm "T" [])) = js_object [("title", VStr "T")]
  /\ Qs.parse_pairs (formFields (mkForm "T" [])) <> form_value (mkForm "T" []).
Proof.
  split; [reflexivity|]. split; [reflexivity|]. vm_compute. discriminate.
Qed.

(** Each bound of the amended C5 is needed: a 22nd question turns
    [questions] into a plain object, the options of a question that is not
    a RADIOLIST have no inputs, and an empty options list has none. *)
Lemma roundtrip_fails_outside_bounds :
  let many := mkForm "T" (repeat (mkQuestion "q" TEXT None) 22) in
  let hidden := mkForm "T" [mkQuestion "q" TEXT (Some [mkOption "a"])] in
  let empty := mkForm "T" [mkQuestion "q" RADIOLIST (Some [])] in
  (well_formed many = true
   /\ Qs.parse_pairs (formFields many) <> form_value many)
  /\ (well_formed hidden = true
      /\ Qs.parse_pairs (formFields hidden) <> form_value hidden)
  /\ (well_formed empty = true
      /\ Qs.parse_pairs (formFields empty) <> form_value empty).
Proof.
  repeat split; try reflexivity; vm_compute; discriminate.
Qed.

Lemma formFields_roundtrip_witness :
  let f := mkForm "Survey"
             [mkQuestion "What is your name?" TEXT None;
              mkQuestion "What is your favorite framework?" RADIOLIST
                         (Some [mkOption "Remix"; mkOption "Next"])] in
  survives f
  /\ Qs.parse_pairs (formFields f) = form_value f
  /\ (forall g, survives g -> formFields g = formFields f -> g = f)
  /\ (forall text,
        map Qs.parse_part (Qs.split_on "&"%char (Chars.chars text) []) = formFields f ->
        Qs.parse text = form_value f).
Proof.
  assert (H : survives
                (mkForm "Survey"
                   [mkQuestion "What is your name?" TEXT None;
                    mkQuestion "What is your favorite framework?" RADIOLIST
                               (Some [mkOption "Remix"; mkOption "Next"])])).
  { split; [discriminate|]. split; [unfold Qs.arrayLimit; simpl; lia|].
    repeat constructor; simpl; try discriminate; unfold Qs.arrayLimit; lia. }
  split; [exact H | exact (formFields_roundtrip _ H)].
Defined.

(** ** Looking errors up *)

(** C6 fails on the server-reported tree.  For a body whose title, first
    name and first option label are empty, the action reports a message at
    each of the three paths and the form shows that tree (the client tree
    being empty); yet the lookups read the member [message] of what they
    find, which a string does not have: the title gets an error element
    with nothing in it, and the name and the label get no element.  On the
    client tree of the same issues, whose leaves are objects with a
    [message], the three messages are rendered. *)
Theorem server_messages_are_not_rendered :
  action emptyFieldsSubmission = Json (js_object [("errors", emptyFieldsErrors)])
  /\ validationErrors (useActionData (Some (action emptyFieldsSubmission)))
                      (js_object [])
     = Some emptyFieldsErrors
  /\ Lodash.baseGet emptyFieldsErrors (keys titlePath) = VStr "Title required"
  /\ Lodash.baseGet emptyFieldsErrors (keys (namePath 0)) = VStr "Name required"
  /\ Lodash.baseGet emptyFieldsErrors (keys (labelPath 0 0)) = VStr "Label required"
  /\ renderTitleError emptyFieldsErrors = Some (ErrorDiv VUndefined)
  /\ renderNameError emptyFieldsErrors 0 = NoElement
  /\ renderLabelError emptyFieldsErrors 0 0 = NoElement
  /\ (let client :=
        clientErrorTree (parse formSchema [] (Qs.parse emptyFieldsSubmission)) in
      renderTitleError client = Some (ErrorDiv (VStr "Title required"))
      /\ renderNameError client 0 = ErrorDiv (VStr "Name required")
      /\ renderLabelError client 0 0 = ErrorDiv (VStr "Label required")).
Proof.
  repeat split; vm_compute; reflexivity.
Qed.

(** * Further properties of the route *)

(** ** The issues of a typed form *)

Lemma parse_nonempty_string (p : path) (msg s : string) :
  parse (string_nonempty msg) p (VStr s) = required_issue p msg s.
Proof. destruct s; reflexivity. Qed.

Lemma mapi_ext {A B : Type} (f g : nat -> A -> B) (l : list A) :
  forall start, (forall i x, f i x = g i x) -> mapi f start l = mapi g start l.
Proof.
  induction l as [|x l IH]; intros start H; simpl; [reflexivity|].
  now rewrite H, IH.
Qed.

Lemma mapi_map {A B C : Type} (f : nat -> B -> C) (g : A -> B) (l : list A) :
  forall start, mapi f start (map g l) = mapi (fun i x => f i (g x)) start l.
Proof. induction l as [|x l IH]; intros start; simpl; [reflexivity | now rewrite IH]. Qed.

Lemma parse_array_of (element : schema) (p : path) (items : list value) :
  parse (ZArray element) p (js_array items)
  = concat (mapi (fun i item => parse element (p ++ [SIdx i])%list item) 0 items).
Proof. unfold js_array. cbn [parse]. now rewrite array_items_js_array. Qed.

Lemma parse_option_value (p : path) (o : Option) :
  parse (ZObject [("label", string_nonempty "Label required")]) p (option_value o)
  = required_issue (p ++ [SKey "label"])%list "Label required" (label o).
Proof.
  unfold option_value, js_object.
  change (parse (ZObject [("label", string_nonempty "Label required")]) p
                (VObj false [("label", VStr (label o))]))
    with (parse (string_nonempty "Label required") (p ++ [SKey "label"])%list
                (VStr (label o)) ++ [])%list.
  now rewrite app_nil_r, parse_nonempty_string.
Qed.

Lemma parse_question_value (i : nat) (q : Question) :
  parse questionSchema [SKey "questions"; SIdx i] (question_value q)
  = typed_question_issues i q.
Proof.
  unfold typed_question_issues.
  assert (Hname : member (question_value q) "name" = VStr (name q)) by reflexivity.
  assert (Htype : member (question_value q) "type" = VStr (type_tag (type q))) by reflexivity.
  assert (Hobj : exists props, question_value q = VObj false props) by (eexists; reflexivity).
  destruct Hobj as [props Hprops].
  assert (Hopts : member (question_value q) "options"
                  = match options q with
                    | Some os => js_array (map option_value os)
                    | None => VUndefined
                    end).
  { unfold question_value, js_object. destruct (options q); reflexivity. }
  rewrite Hprops in *.
  change (parse questionSchema [SKey "questions"; SIdx i] (VObj false props))
    with (parse (string_nonempty "Name required") (namePath i)
                (member (VObj false props) "name")
          ++ parse (ZEnum ["TEXT"; "NUMBER"; "RADIOLIST"])
                   [SKey "questions"; SIdx i; SKey "type"]
                   (member (VObj false props) "type")
          ++ parse (ZOptional (ZArray (ZObject [("label", string_nonempty "Label required")])))
                   [SKey "questions"; SIdx i; SKey "options"]
                   (member (VObj false props) "options")
          ++ [])%list.
  rewrite Hname, Htype, Hopts, parse_nonempty_string, app_nil_r.
  f_equal.
  replace (parse (ZEnum ["TEXT"; "NUMBER"; "RADIOLIST"])
                 [SKey "questions"; SIdx i; SKey "type"] (VStr (type_tag (type q))))
    with (@nil issue) by (destruct (type q); reflexivity).
  cbn [app]. destruct (options q) as [os|]; [|reflexivity].
  change (parse (ZOptional ?s) ?p (js_array ?l)) with (parse s p (js_array l)).
  rewrite parse_array_of, mapi_map. f_equal.
  apply mapi_ext. intros j o. now rewrite parse_option_value.
Qed.

Lemma parse_form_value (f : QuestionnaireForm) :
  parse formSchema [] (form_value f) = form_issues f.
Proof.
  unfold form_issues, form_value, js_object.
  change (parse formSchema [] (VObj false [("title", VStr (title f));
            ("questions", js_array (map question_value (questions f)))]))
    with (parse (string_nonempty "Title required") titlePath (VStr (title f))
          ++ parse (ZArray questionSchema) [SKey "questions"]
                   (js_array (map question_value (questions f)))
          ++ [])%list.
  rewrite parse_nonempty_string, app_nil_r, parse_array_of, mapi_map. f_equal. f_equal.
  apply mapi_ext. intros i q. apply parse_question_value.
Qed.

(** X1.  The validation of a typed form, in closed form: [formSchema] run
    on the value of a typed form raises the "Title required" issue when
    the title is empty, then, question by question in order, the "Name
    required" issue when the name is empty followed by one "Label
    required" issue per empty label of its options, in order, each at the
    path of its field; nothing else is raised, and [safeParse] succeeds
    exactly when that list is empty. *)
Theorem validation_of_typed_form (f : QuestionnaireForm) :
  parse formSchema [] (form_value f) = form_issues f
  /\ safeParse formSchema (form_value f)
     = match form_issues f with
       | [] => SafeParseSuccess
       | issues => SafeParseError issues
       end.
Proof.
  unfold safeParse. rewrite parse_form_value.
  split; [reflexivity|]. now destruct (form_issues f).
Qed.

Lemma required_issue_nil (p : path) (msg s : string) :
  required_issue p msg s = [] <-> s <> "".
Proof.
  unfold required_issue. destruct (String.eqb_spec s ""); split; intros H;
    try discriminate; try congruence; reflexivity.
Qed.

Lemma concat_mapi_nil {A B : Type} (f : nat -> A -> list B) (P : A -> Prop) (l : list A) :
  (forall i x, f i x = [] <-> P x) ->
  forall start, concat (mapi f start l) = [] <-> Forall P l.
Proof.
  intros Hf. induction l as [|x l IH]; intros start; simpl.
  - split; [constructor | reflexivity].
  - split.
    + intros H. apply app_eq_nil in H as [Hx Hl].
      constructor; [now apply (Hf start) | now apply (IH (S start))].
    + intros H. inversion H; subst.
      rewrite (proj2 (Hf start x)), (proj2 (IH (S start))); auto.
Qed.

Lemma typed_question_issues_nil (i : nat) (q : Question) :
  typed_question_issues i q = [] <-> filled_question q.
Proof.
  unfold typed_question_issues, filled_question. split.
  - intros H. apply app_eq_nil in H as [Hn Ho]. split; [now apply required_issue_nil in Hn|].
    destruct (options q) as [os|]; [|exact I].
    apply (concat_mapi_nil (option_issues i) (fun o => label o <> "") os) in Ho; auto.
    intros j o. apply required_issue_nil.
  - intros [Hn Ho]. rewrite (proj2 (required_issue_nil _ _ _) Hn). cbn [app].
    destruct (options q) as [os|]; [|reflexivity].
    apply (concat_mapi_nil (option_issues i) (fun o => label o <> "") os); auto.
    intros j o. apply required_issue_nil.
Qed.

Lemma form_issues_nil (f : QuestionnaireForm) : form_issues f = [] <-> filled f.
Proof.
  unfold form_issues, filled. split.
  - intros H. apply app_eq_nil in H as [Ht Hq]. split; [now apply required_issue_nil in Ht|].
    apply (concat_mapi_nil typed_question_issues filled_question) in Hq; auto.
    intros i q. apply typed_question_issues_nil.
  - intros [Ht Hq]. rewrite (proj2 (required_issue_nil _ _ _) Ht). cbn [app].
    apply (concat_mapi_nil typed_question_issues filled_question); auto.
    intros i q. apply typed_question_issues_nil.
Qed.

(** X2.  A typed form is accepted by [formSchema] exactly when its title,
    the name of every question and the label of every option are
    non-empty: the questions may be none, and the options of a question
    are checked whatever its type. *)
Theorem well_formed_iff_filled (f : QuestionnaireForm) :
  well_formed f = true <-> filled f.
Proof.
  unfold well_formed, safeParse. rewrite parse_form_value, <- form_issues_nil.
  destruct (form_issues f); simpl; split; intros H; try reflexivity; discriminate.
Qed.

(** ** The type of a question *)

Lemma seg_eqb_refl (a : seg) : seg_eqb a a = true.
Proof. destruct a; simpl; [apply String.eqb_refl | apply Nat.eqb_refl]. Qed.

Lemma path_eqb_refl (p : path) : path_eqb p p = true.
Proof. induction p as [|a p IH]; simpl; [reflexivity | now rewrite seg_eqb_refl]. Qed.

Lemma path_eqb_app (p a b : path) :
  path_eqb (p ++ a)%list (p ++ b)%list = path_eqb a b.
Proof. induction p as [|s p IH]; simpl; [reflexivity | now rewrite seg_eqb_refl]. Qed.

Lemma filter_all {A : Type} (f : A -> bool) (l : list A) :
  (forall x, In x l -> f x = true) -> filter f l = l.
Proof.
  induction l as [|x l IH]; simpl; intros H; [reflexivity|].
  rewrite (H x (or_introl eq_refl)), IH; auto.
Qed.

Lemma issues_at_field (p : path) (s : schema) (k k' : string) (v : value) :
  String.eqb k k' = false ->
  issues_at (p ++ [SKey k'])%list (parse s (p ++ [SKey k])%list v) = [].
Proof.
  intros Hk. apply filter_none. intros x Hx.
  apply parse_paths_extend in Hx as [q ->].
  rewrite <- app_assoc, path_eqb_app. simpl. now rewrite Hk.
Qed.

Lemma parse_enum_paths (p : path) (v : value) (x : issue) :
  In x (parse (ZEnum question_types) p v) -> issue_path x = p.
Proof.
  destruct v; simpl; try (intros [<-|[]]; reflexivity).
  destruct (_ || _); [intros [] | intros [<-|[]]; reflexivity].
Qed.

Lemma type_issues_at (p : path) (props : props_t) :
  issues_at (p ++ [SKey "type"])%list (parse questionSchema p (VObj false props))
  = parse (ZEnum question_types) (p ++ [SKey "type"])%list
          (member (VObj false props) "type").
Proof.
  change (parse questionSchema p (VObj false props))
    with (parse (string_nonempty "Name required") (p ++ [SKey "name"])%list
                (member (VObj false props) "name")
          ++ parse (ZEnum question_types) (p ++ [SKey "type"])%list
                   (member (VObj false props) "type")
          ++ parse (ZOptional (ZArray (ZObject [("label", string_nonempty "Label required")])))
                   (p ++ [SKey "options"])%list
                   (member (VObj false props) "options")
          ++ [])%list.
  unfold issues_at at 1. rewrite !filter_app, app_nil_r.
  fold (issues_at (p ++ [SKey "type"])%list
          (parse (string_nonempty "Name required") (p ++ [SKey "name"])%list
                 (member (VObj false props) "name"))).
  fold (issues_at (p ++ [SKey "type"])%list
          (parse (ZOptional (ZArray (ZObject [("label", string_nonempty "Label required")])))
                 (p ++ [SKey "options"])%list (member (VObj false props) "options"))).
  rewrite !issues_at_field by reflexivity. rewrite app_nil_r. cbn [app].
  apply filter_all. intros x Hx. apply parse_enum_paths in Hx. rewrite Hx.
  apply path_eqb_refl.
Qed.

(** X3.  The type of a question is checked against the enumeration: a
    question object whose [type] is one of TEXT, NUMBER and RADIOLIST has
    no issue at its [type]; with any other string it has exactly one, an
    invalid enumeration value naming the three members and the string
    received; with no [type] at all it has exactly one as well. *)
Theorem question_type_is_checked (p : path) (props : props_t) :
  let q := VObj false props in
  let at_type := issues_at (p ++ [SKey "type"])%list (parse questionSchema p q) in
  (forall t, member q "type" = VStr t -> In t question_types -> at_type = [])
  /\ (forall t, member q "type" = VStr t -> ~ In t question_types ->
        exists i, at_type = [i]
                  /\ code i = invalid_enum_value question_types t
                  /\ issue_path i = (p ++ [SKey "type"])%list)
  /\ (member q "type" = VUndefined ->
        exists i, at_type = [i] /\ issue_path i = (p ++ [SKey "type"])%list).
Proof.
  intros q at_type. subst q at_type. rewrite type_issues_at.
  split; [|split].
  - intros t -> Hin. cbn [parse].
    assert (H : existsb (String.eqb t) question_types = true).
    { apply existsb_exists. exists t. split; [exact Hin | apply String.eqb_refl]. }
    now rewrite H.
  - intros t -> Hnot. cbn [parse].
    assert (H : existsb (String.eqb t) question_types = false).
    { destruct (existsb _ _) eqn:E; [|reflexivity].
      apply existsb_exists in E as [x [Hx Ht]]. apply String.eqb_eq in Ht. now subst. }
    rewrite H. eexists. split; [reflexivity|]. split; reflexivity.
  - intros ->. eexists. split; reflexivity.
Qed.

Lemma question_type_is_checked_witness :
  let props := [("name", VStr "Q"); ("type", VStr "CHECKBOX")] in
  member (VObj false props) "type" = VStr "CHECKBOX"
  /\ ~ In "CHECKBOX" question_types
  /\ exists i,
       issues_at [SKey "questions"; SIdx 0; SKey "type"]
                 (parse questionSchema [SKey "questions"; SIdx 0] (VObj false props)) = [i]
       /\ code i = invalid_enum_value question_types "CHECKBOX"
       /\ issue_path i = [SKey "questions"; SIdx 0; SKey "type"].
Proof.
  assert (Hnot : ~ In "CHECKBOX" question_types).
  { simpl. intros [H|[H|[H|[]]]]; discriminate. }
  split; [reflexivity|]. split; [exact Hnot|].
  exact (proj1 (proj2 (question_type_is_checked [SKey "questions"; SIdx 0]
                         [("name", VStr "Q"); ("type", VStr "CHECKBOX")]))
               "CHECKBOX" eq_refl Hnot).
Defined.

(** ** The values the schemas accept *)

Lemma nonempty_accepts (p : path) (msg : string) (v : value) :
  parse (string_nonempty msg) p v = [] <-> exists s, v = VStr s /\ s <> "".
Proof.
  split.
  - destruct v as [| | b | n | s | a props]; try discriminate.
    destruct s; [discriminate|]. intros _. eexists. split; [reflexivity | discriminate].
  - intros [s [-> Hs]]. destruct s; [congruence | reflexivity].
Qed.

Lemma enum_accepts (p : path) (v : value) :
  parse (ZEnum question_types) p v = [] <-> exists t, v = VStr t /\ In t question_types.
Proof.
  cbn [parse]. split.
  - destruct v as [| | b | n | s | a props]; try discriminate.
    destruct (existsb (String.eqb s) question_types) eqn:E; [|discriminate].
    intros _. exists s. split; [reflexivity|].
    apply existsb_exists in E as [x [Hx Hs]]. apply String.eqb_eq in Hs. now subst.
  - intros [t [-> Ht]].
    assert (E : existsb (String.eqb t) question_types = true).
    { apply existsb_exists. exists t. split; [exact Ht | apply String.eqb_refl]. }
    now rewrite E.
Qed.

Lemma array_accepts (element : schema) (P : value -> Prop) :
  (forall p v, parse element p v = [] <-> P v) ->
  forall p v, parse (ZArray element) p v = [] <-> array_of P v.
Proof.
  intros He p v. cbn [parse]. split.
  - destruct v as [| | b | n | s | [|] props]; try discriminate.
    intros H. exists props. split; [reflexivity|].
    now apply (concat_mapi_nil (fun i item => parse element (p ++ [SIdx i])%list item) P
                 (array_items props) (fun i x => He _ x) 0).
  - intros [props [-> H]].
    now apply (concat_mapi_nil (fun i item => parse element (p ++ [SIdx i])%list item) P
                 (array_items props) (fun i x => He _ x) 0).
Qed.

Lemma optional_accepts (inner : schema) (P : value -> Prop) :
  (forall p v, parse inner p v = [] <-> P v) ->
  (P VUndefined -> False) ->
  forall p v, parse (ZOptional inner) p v = [] <-> (v = VUndefined \/ P v).
Proof.
  intros Hi Hu p v. cbn [parse].
  destruct v as [| | b | n | s | a props];
    try (rewrite Hi; split; [intros H; right; exact H | intros [H|H]; [discriminate | exact H]]).
  split; [intros _; left; reflexivity | reflexivity].
Qed.

Lemma option_accepts (p : path) (v : value) :
  parse label_schema p v = [] <-> option_shaped v.
Proof.
  unfold option_shaped, filled_member, label_schema. split.
  - destruct v as [| | b | n | s | [|] props]; try discriminate.
    cbn [parse]. rewrite app_nil_r, nonempty_accepts. intros H.
    split; [eexists; reflexivity | exact H].
  - intros [[props ->] H]. cbn [parse]. rewrite app_nil_r. now apply nonempty_accepts.
Qed.

Lemma array_of_undefined (P : value -> Prop) : array_of P VUndefined -> False.
Proof. intros [props [H _]]. discriminate. Qed.

Lemma question_accepts (p : path) (v : value) :
  parse questionSchema p v = [] <-> question_shaped v.
Proof.
  unfold question_shaped, filled_member.
  assert (Ho : forall q w,
             parse (ZOptional (ZArray label_schema)) q w = []
             <-> (w = VUndefined \/ array_of option_shaped w)).
  { apply optional_accepts; [|apply array_of_undefined].
    apply array_accepts. exact option_accepts. }
  split.
  - destruct v as [| | b | n | s | [|] props]; try discriminate.
    change (parse questionSchema p (VObj false props))
      with (parse (string_nonempty "Name required") (p ++ [SKey "name"])%list
                  (member (VObj false props) "name")
            ++ parse (ZEnum question_types) (p ++ [SKey "type"])%list
                     (member (VObj false props) "type")
            ++ parse (ZOptional (ZArray label_schema)) (p ++ [SKey "options"])%list
                     (member (VObj false props) "options") ++ [])%list.
    rewrite app_nil_r. intros H.
    apply app_eq_nil in H as [Hn H]. apply app_eq_nil in H as [Ht Hopt].
    split; [eexists; reflexivity|].
    split; [now apply nonempty_accepts in Hn|].
    split; [now apply enum_accepts in Ht | now apply Ho in Hopt].
  - intros [[props ->] [Hn [Ht Hopt]]].
    change (parse questionSchema p (VObj false props))
      with (parse (string_nonempty "Name required") (p ++ [SKey "name"])%list
                  (member (VObj false props) "name")
            ++ parse (ZEnum question_types) (p ++ [SKey "type"])%list
                     (member (VObj false props) "type")
            ++ parse (ZOptional (ZArray label_schema)) (p ++ [SKey "options"])%list
                     (member (VObj false props) "options") ++ [])%list.
    rewrite (proj2 (nonempty_accepts _ _ _) Hn), (proj2 (enum_accepts _ _) Ht),
      (proj2 (Ho _ _) Hopt).
    reflexivity.
Qed.

Lemma form_accepts (v : value) :
  parse formSchema [] v = [] <-> form_shaped v.
Proof.
  unfold form_shaped, filled_member.
  pose proof (array_accepts questionSchema question_shaped question_accepts) as Hq.
  split.
  - destruct v as [| | b | n | s | [|] props]; try discriminate.
    change (parse formSchema [] (VObj false props))
      with (parse (string_nonempty "Title required") [SKey "title"]
                  (member (VObj false props) "title")
            ++ parse (ZArray questionSchema) [SKey "questions"]
                     (member (VObj false props) "questions") ++ [])%list.
    rewrite app_nil_r. intros H. apply app_eq_nil in H as [Ht Hqs].
    split; [eexists; reflexivity|].
    split; [now apply nonempty_accepts in Ht | now apply Hq in Hqs].
  - intros [[props ->] [Ht Hqs]].
    change (parse formSchema [] (VObj false props))
      with (parse (string_nonempty "Title required") [SKey "title"]
                  (member (VObj false props) "title")
            ++ parse (ZArray questionSchema) [SKey "questions"]
                     (member (VObj false props) "questions") ++ [])%list.
    rewrite (proj2 (nonempty_accepts _ _ _) Ht), (proj2 (Hq _ _) Hqs). reflexivity.
Qed.

(** X4.  The schemas accept the declared shape and nothing else.  Whatever
    the value, [formSchema] accepts it exactly when it is a plain object
    whose [title] is a non-empty string and whose [questions] is an array
    of plain objects, each with a non-empty string as [name], a [type] in
    the enumeration and [options] either undefined or an array of plain
    objects with a non-empty string as [label]; other members are
    ignored.  The action redirects exactly when the parsed body is such a
    value. *)
Theorem schema_accepts_the_declared_shape (v : value) (formText : string) :
  (safeParse formSchema v = SafeParseSuccess <-> form_shaped v)
  /\ (forall p q, parse questionSchema p q = [] <-> question_shaped q)
  /\ (action formText = Redirect "/templates/1" <-> form_shaped (Qs.parse formText)).
Proof.
  assert (H : forall w, safeParse formSchema w = SafeParseSuccess <-> form_shaped w).
  { intros w. rewrite <- form_accepts. unfold safeParse.
    destruct (parse formSchema [] w); split; intros E; try reflexivity; discriminate. }
  split; [apply H|]. split; [exact question_accepts|].
  rewrite <- H. unfold action.
  destruct (safeParse formSchema (Qs.parse formText));
    split; intros E; try reflexivity; discriminate.
Qed.

(** ** The action on the body of a form *)

Lemma questionFields_rendered (i : nat) (q : Question) :
  questionFields i (rendered q) = questionFields i q.
Proof.
  unfold questionFields, rendered, rendered_options. simpl.
  destruct (type q); try reflexivity; destruct (options q) as [[|o os]|]; reflexivity.
Qed.

Lemma formFields_rendered (f : QuestionnaireForm) :
  formFields (rendered_form f) = formFields f.
Proof.
  unfold formFields, rendered_form. simpl. f_equal. f_equal.
  rewrite mapi_map. apply mapi_ext. intros i q. apply questionFields_rendered.
Qed.

Lemma rendered_survives (q : Question) :
  options_sized q -> options_survive (rendered q).
Proof.
  unfold options_sized, options_survive, rendered, rendered_options. simpl.
  destruct (type q); try (intros; exact I);
    destruct (options q) as [[|o os]|]; try (intros; exact I).
  intros H. repeat split; [discriminate | exact H].
Qed.

Lemma rendered_form_survives (f : QuestionnaireForm) :
  sized f -> survives (rendered_form f).
Proof.
  intros [Hne [Hlen Hall]]. unfold survives, rendered_form. simpl.
  split; [destruct (questions f); [congruence | discriminate]|].
  split; [now rewrite length_map|].
  apply Forall_map. eapply Forall_impl; [|exact Hall]. apply rendered_survives.
Qed.

Lemma rendered_fixed (q : Question) : options_survive q -> rendered q = q.
Proof.
  destruct q as [n t o]. unfold options_survive, rendered, rendered_options. simpl.
  destruct o as [[|o os]|]; intros H.
  - destruct H as [_ [H _]]. congruence.
  - destruct H as [-> _]. reflexivity.
  - destruct t; reflexivity.
Qed.

Lemma rendered_form_fixed (g : QuestionnaireForm) :
  survives g -> rendered_form g = g.
Proof.
  intros [_ [_ Hall]]. destruct g as [t qs]. unfold rendered_form. simpl in *. f_equal.
  rewrite <- (map_id qs) at 2. apply map_ext_in. intros q Hq. apply rendered_fixed.
  rewrite Forall_forall in Hall. now apply Hall.
Qed.

Lemma parse_text_rendered (f : QuestionnaireForm) (text : string) :
  sized f -> pairs_of text = formFields f ->
  Qs.parse text = form_value (rendered_form f).
Proof.
  intros Hf Ht. apply parse_text_of_formFields; [now apply rendered_form_survives|].
  now rewrite formFields_rendered.
Qed.

Lemma surveyForm_sized : sized surveyForm.
Proof.
  split; [discriminate|]. split; [unfold Qs.arrayLimit; simpl; lia|].
  repeat constructor; unfold options_sized, Qs.arrayLimit; simpl; lia.
Qed.

(** X5.  What the action parses out of a submitted form.  For a form with
    at least one question and at most [arrayLimit + 1] questions and
    options per question, the pairs of its inputs parse to the value of
    the rendered form: the options of a question that is not a RADIOLIST
    and an empty list of options are gone, everything else is as typed.
    Rendering twice changes nothing more, and a form that survives the
    trip is its own rendering. *)
Theorem parse_gives_rendered_form (f : QuestionnaireForm) :
  sized f ->
  Qs.parse_pairs (formFields f) = form_value (rendered_form f)
  /\ (forall text, pairs_of text = formFields f ->
        Qs.parse text = form_value (rendered_form f))
  /\ rendered_form (rendered_form f) = rendered_form f
  /\ (survives f -> rendered_form f = f).
Proof.
  intros Hf. pose proof (rendered_form_survives f Hf) as Hs.
  split; [|split; [|split]].
  - rewrite <- formFields_rendered. now apply parse_pairs_formFields.
  - intros text Ht. now apply parse_text_rendered.
  - now apply rendered_form_fixed.
  - apply rendered_form_fixed.
Qed.

Lemma parse_gives_rendered_form_witness :
  sized surveyForm
  /\ Qs.parse_pairs (formFields surveyForm) = form_value (rendered_form surveyForm)
  /\ Qs.parse surveySubmission = form_value (rendered_form surveyForm).
Proof.
  split; [exact surveyForm_sized|].
  pose proof (parse_gives_rendered_form surveyForm surveyForm_sized) as [H1 [H2 _]].
  split; [exact H1 | exact (H2 surveySubmission eq_refl)].
Defined.

Lemma action_of_form (f : QuestionnaireForm) (text : string) :
  sized f -> pairs_of text = formFields f ->
  action text
  = match form_issues (rendered_form f) with
    | [] => Redirect "/templates/1"
    | issues => Json (js_object [("errors", errorTree issues)])
    end.
Proof.
  intros Hf Ht. unfold action, safeParse.
  rewrite (parse_text_rendered f text Hf Ht), parse_form_value.
  now destruct (form_issues (rendered_form f)).
Qed.

(** X6.  The action on the body of a form: it validates the rendered form.
    It redirects when the rendered form has no issue and otherwise answers
    the tree of the issues of the rendered form; so it redirects exactly
    when the title, the names and the labels of the options of RADIOLIST
    questions are filled in, an empty label under a question of another
    type being dropped with its option. *)
Theorem action_on_form (f : QuestionnaireForm) (text : string) :
  sized f -> pairs_of text = formFields f ->
  action text
  = match form_issues (rendered_form f) with
    | [] => Redirect "/templates/1"
    | issues => Json (js_object [("errors", errorTree issues)])
    end
  /\ (action text = Redirect "/templates/1" <-> filled (rendered_form f)).
Proof.
  intros Hf Ht.
  pose proof (action_of_form f text Hf Ht) as Ha.
  split; [exact Ha|].
  rewrite Ha, <- form_issues_nil.
  destruct (form_issues (rendered_form f)); split; intros H; try reflexivity; discriminate.
Qed.

Lemma action_on_form_witness :
  sized surveyForm /\ pairs_of surveySubmission = formFields surveyForm
  /\ action surveySubmission
     = Json (js_object [("errors", errorTree (form_issues (rendered_form surveyForm)))])
  /\ ~ filled (rendered_form surveyForm).
Proof.
  split; [exact surveyForm_sized|]. split; [reflexivity|].
  pose proof (action_on_form surveyForm surveySubmission surveyForm_sized eq_refl) as [H1 H2].
  split; [exact H1|].
  intros Hf. apply H2 in Hf. rewrite H1 in Hf. discriminate.
Defined.

(** X7.  The template of the loader needs a title and nothing else: a form
    carrying the three questions of the template is accepted with a
    redirect once a title is typed, and with an empty title the answer is
    the tree with the single message "Title required". *)
Theorem template_with_title (t text : string) :
  pairs_of text = formFields (templateForm t) ->
  member (form_value (templateForm t)) "questions" = member template "questions"
  /\ (t <> "" -> action text = Redirect "/templates/1")
  /\ (t = "" ->
      action text
      = Json (js_object [("errors", js_object [("title", VStr "Title required")])])).
Proof.
  intros Ht.
  assert (Hs : sized (templateForm t)).
  { split; [discriminate|]. split; [unfold Qs.arrayLimit; simpl; lia|].
    repeat constructor. }
  pose proof (action_of_form (templateForm t) text Hs Ht) as Ha.
  split; [reflexivity|]. split.
  - intros Hne. rewrite Ha. destruct t; [congruence | reflexivity].
  - intros ->. rewrite Ha. reflexivity.
Qed.

Lemma template_with_title_witness :
  pairs_of templateSubmission = formFields (templateForm "Survey")
  /\ action templateSubmission = Redirect "/templates/1".
Proof.
  assert (H : pairs_of templateSubmission = formFields (templateForm "Survey"))
    by reflexivity.
  split; [exact H|].
  refine (proj1 (proj2 (template_with_title "Survey" templateSubmission H)) _).
  discriminate.
Defined.

Lemma parse_single_pair (text k v : string) :
  pairs_of text = [(k, v)] -> Qs.parse text = Qs.parse_pairs [(k, v)].
Proof.
  intros H. unfold Qs.parse, Qs.parse_pairs, Qs.parseValues.
  destruct text as [|c text'].
  - unfold pairs_of in H. simpl in H. inversion H; subst. reflexivity.
  - unfold pairs_of in H. rewrite firstn_all2; [now rewrite H|].
    rewrite <- (length_map Qs.parse_part), H. unfold Qs.parameterLimit. simpl. lia.
Qed.

(** X8.  A form without questions posts its title only; the parsed body has
    no [questions] member, so the action always rejects it with "Required"
    at [questions], and with nothing else when the title is filled in,
    although the schema accepts the typed form with its empty list of
    questions. *)
Theorem no_questions_is_rejected (t text : string) :
  pairs_of text = formFields (mkForm t []) ->
  Qs.parse text = js_object [("title", VStr t)]
  /\ (t <> "" -> well_formed (mkForm t []) = true)
  /\ exists tree,
       action text = Json (js_object [("errors", tree)])
       /\ member tree "questions" = VStr "Required"
       /\ (t <> "" -> tree = js_object [("questions", VStr "Required")]).
Proof.
  intros H. unfold formFields in H. cbn [mapi concat questions title] in H.
  pose proof (parse_single_pair text _ _ H) as Hp.
  assert (Hv : Qs.parse text = js_object [("title", VStr t)]) by (rewrite Hp; reflexivity).
  split; [exact Hv|]. split.
  - intros Hne. destruct t; [congruence | reflexivity].
  - unfold action. rewrite Hv. destruct t as [|c t'].
    + eexists. split; [reflexivity|]. split; [reflexivity | congruence].
    + eexists. split; [reflexivity|]. split; [reflexivity | reflexivity].
Qed.

Lemma no_questions_is_rejected_witness :
  pairs_of "title=T" = formFields (mkForm "T" [])
  /\ Qs.parse "title=T" = js_object [("title", VStr "T")]
  /\ well_formed (mkForm "T" []) = true.
Proof.
  split; [reflexivity|].
  pose proof (no_questions_is_rejected "T" "title=T" eq_refl) as [H1 [H2 _]].
  split; [exact H1 | apply H2; discriminate].
Defined.

(** ** The tree of a rejection *)

(** X9.  Whatever the body, every issue the action maps is raised at a
    non-empty path made of field names of the schemas and array positions;
    none of its keys is one [set] refuses to write. *)
Theorem issue_paths_are_field_paths (formText : string) (i : issue) :
  In i (parse formSchema [] (Qs.parse formText)) ->
  FieldPath (issue_path i)
  /\ Forall (fun s => Lodash.unsafe_key (Lodash.toKey s) = false) (issue_path i).
Proof.
  intros Hin. destruct (parse_plain_object formText) as [props Hprops].
  rewrite Hprops in Hin.
  destruct (parse_tidy formSchema formSchema_tidy [] (VObj false props)) as [He _].
  rewrite Forall_forall in He. destruct (He i Hin) as [q [Hq Hf]]. simpl in Hq.
  assert (HF : forallb is_field_seg (issue_path i) = true) by now rewrite Hq.
  split.
  - split; [now apply (formSchema_issue_nonempty props) | exact HF].
  - apply Forall_forall. intros s Hs. apply field_seg_safe.
    rewrite forallb_forall in HF. now apply HF.
Qed.

Lemma issue_paths_are_field_paths_witness :
  let i := mkIssue (too_small 1) (namePath 0) "Name required" in
  In i (parse formSchema [] (Qs.parse emptyFieldsSubmission))
  /\ FieldPath (issue_path i).
Proof.
  assert (H : In (mkIssue (too_small 1) (namePath 0) "Name required")
                 (parse formSchema [] (Qs.parse emptyFieldsSubmission)))
    by (vm_compute; auto).
  split; [exact H | exact (proj1 (issue_paths_are_field_paths _ _ H))].
Defined.

Lemma baseSet_keeps_kind (p : path) (a : bool) (props : props_t) (v : value) :
  exists props', Lodash.baseSet (VObj a props) p v = VObj a props'.
Proof.
  destruct p as [|s rest]; [eexists; reflexivity|]. cbn [Lodash.baseSet].
  destruct (Lodash.unsafe_key _); [eexists; reflexivity|].
  destruct rest; eexists; reflexivity.
Qed.

Lemma errorTree_plain_object (issues : list issue) :
  plain_object (errorTree issues).
Proof.
  unfold errorTree.
  assert (H : forall l t, plain_object t ->
            plain_object (fold_left write_issue l t)).
  { induction l as [|i l IH]; intros t Ht; simpl; [assumption|].
    apply IH. destruct Ht as [props ->]. unfold write_issue, Lodash.set. simpl.
    destruct (baseSet_keeps_kind (issue_path i) false props (VStr (message i))) as [props' ->].
    eexists; reflexivity. }
  apply (H issues (js_object [])). eexists; reflexivity.
Qed.

Lemma json_transport_defined (v : value) :
  v <> VUndefined -> json_transport v <> VUndefined.
Proof.
  destruct v as [| | | | |[|] props]; cbn [json_transport]; unfold js_array;
    intros H; try congruence; discriminate.
Qed.

Lemma nested_at_defined (ks : list string) (t : value) (m : string) :
  nested_at t ks (VStr m) -> t <> VUndefined.
Proof.
  destruct ks; simpl.
  - intros ->. discriminate.
  - intros [a [props [x [-> _]]]]. discriminate.
Qed.

Lemma json_transport_keeps (k : string) (x : value) (props : props_t) :
  own_get k props = Some x -> x <> VUndefined ->
  exists props', json_transport (VObj false props) = VObj false props' /\ props' <> [].
Proof.
  intros Hget Hx. cbn [json_transport]. eexists. split; [reflexivity|].
  induction props as [|[k' x'] rest IH]; simpl in *; [discriminate|].
  destruct (String.eqb k k').
  - inversion Hget; subst. 
    destruct (json_transport x) eqn:E; try discriminate.
    now apply json_transport_defined in E.
  - destruct (json_transport x'); try discriminate. now apply IH.
Qed.

Lemma rejection_facts (props : props_t) (i : issue) (rest : list issue) :
  parse formSchema [] (VObj false props) = i :: rest ->
  exists tprops props',
    errorTree (i :: rest) = VObj false tprops /\ tprops <> []
    /\ json_transport (VObj false tprops) = VObj false props' /\ props' <> [].
Proof.
  intros E.
  assert (Hin : In i (parse formSchema [] (VObj false props))) by (rewrite E; now left).
  pose proof (every_issue_in_errorTree props i Hin) as Hn. rewrite E in Hn.
  pose proof (formSchema_issue_nonempty props i Hin) as Hne.
  destruct (errorTree_plain_object (i :: rest)) as [tprops Ht].
  destruct (issue_path i) as [|s p]; [congruence|]. cbn [keys map nested_at] in Hn.
  destruct Hn as [a [props0 [x [Heq [Hget Hx]]]]].
  rewrite Ht in Heq. inversion Heq; subst a props0.
  destruct (json_transport_keeps _ x tprops Hget (nested_at_defined _ _ _ Hx))
    as [props' [Hj Hne']].
  exists tprops, props'. repeat split; auto.
  destruct tprops; [discriminate | discriminate].
Qed.

Lemma shown_after_action (formText : string) :
  validationErrors (useActionData (Some (action formText))) (js_object [])
  = Some match parse formSchema [] (Qs.parse formText) with
         | [] => js_object []
         | issues => json_transport (errorTree issues)
         end.
Proof.
  destruct (parse_plain_object formText) as [props Hprops].
  unfold action, safeParse. rewrite Hprops.
  destruct (parse formSchema [] (VObj false props)) as [|i rest] eqn:E; [reflexivity|].
  destruct (rejection_facts props i rest E) as [tprops [props' [Ht [_ [Hj _]]]]].
  unfold useActionData, js_object. cbn [json_transport map fst snd].
  rewrite Ht, Hj. reflexivity.
Qed.

(** X10.  The two answers of the action.  A redirect goes to
    ["/templates/1"] and is given only when validation raised no issue.
    Otherwise the body is an object with the single member [errors], the
    tree of the issues, which is a plain object and not empty, before and
    after the transport as JSON; so, the client tree being empty, a
    rejection is what the form shows. *)
Theorem rejection_is_never_empty (formText : string) :
  match action formText with
  | Redirect location =>
      location = "/templates/1" /\ parse formSchema [] (Qs.parse formText) = []
  | Json body =>
      exists tree,
        body = js_object [("errors", tree)]
        /\ tree = errorTree (parse formSchema [] (Qs.parse formText))
        /\ plain_object tree
        /\ Lodash.isEmpty tree = false
        /\ Lodash.isEmpty (json_transport tree) = false
        /\ validationErrors (useActionData (Some (action formText))) (js_object [])
           = Some (json_transport tree)
  end.
Proof.
  pose proof (shown_after_action formText) as Hshown. revert Hshown.
  destruct (parse_plain_object formText) as [props Hprops].
  unfold action, safeParse. rewrite Hprops.
  destruct (parse formSchema [] (VObj false props)) as [|i rest] eqn:E;
    [split; reflexivity|].
  intros Hshown.
  destruct (rejection_facts props i rest E) as [tprops [props' [Ht [Hne [Hj Hne']]]]].
  exists (errorTree (i :: rest)).
  split; [reflexivity|]. split; [reflexivity|].
  split; [exists tprops; exact Ht|].
  split; [rewrite Ht; destruct tprops; [congruence | reflexivity]|].
  split; [rewrite Ht, Hj; destruct props'; [congruence | reflexivity]|].
  exact Hshown.
Qed.

Lemma nested_at_empty (a : bool) (ks : list string) (v : value) :
  nested_at (VObj a []) ks v -> isObject v = true.
Proof.
  destruct ks as [|k ks]; cbn [nested_at].
  - intros <-. reflexivity.
  - intros [a' [props [x [Heq [Hget _]]]]]. injection Heq as <- <-. discriminate.
Qed.

Lemma member_object (a : bool) (props : props_t) (k : string) :
  isObject (member (VObj a props) k) = true ->
  own_get k props = Some (member (VObj a props) k).
Proof.
  cbn [member]. destruct (own_get k props) as [x|]; [reflexivity|].
  destruct (a && String.eqb k "length"); discriminate.
Qed.

Lemma baseSet_leaves (p : path) (msg : string) :
  forall t ks v,
    nested_at (Lodash.baseSet t p (VStr msg)) ks v -> isObject v = false ->
    (ks = keys p /\ v = VStr msg) \/ nested_at t ks v.
Proof.
  induction p as [|s rest IH]; intros t ks v Hn Hv.
  - right. destruct t; exact Hn.
  - destruct t as [| | b | n | s0 | a props]; try (right; exact Hn).
    cbn [Lodash.baseSet] in Hn.
    destruct (Lodash.unsafe_key (Lodash.toKey s)); [right; exact Hn|].
    destruct ks as [|k ks'].
    { cbn [nested_at] in Hn. destruct rest; rewrite <- Hn in Hv; discriminate. }
    destruct rest as [|next rest'].
    + destruct Hn as [a' [props' [x [Heq [Hget Hx]]]]]. injection Heq as <- <-.
      destruct (String.eqb_spec (Lodash.toKey s) k) as [<-|Hne].
      * rewrite own_get_set_same in Hget. injection Hget as <-.
        destruct ks' as [|k' ks''].
        -- left. cbn [nested_at] in Hx. split; [reflexivity | now symmetry].
        -- destruct Hx as [? [? [? [Hx _]]]]. discriminate.
      * rewrite own_get_set_other in Hget by exact Hne.
        right. exists a, props, x. auto.
    + remember (member (VObj a props) (Lodash.toKey s)) as obj eqn:Hobj.
      remember (if isObject obj then obj
                else if Lodash.isIndex next then VObj true [] else VObj false [])
        as newValue eqn:Hnew.
      destruct Hn as [a' [props' [x [Heq [Hget Hx]]]]]. injection Heq as <- <-.
      destruct (String.eqb_spec (Lodash.toKey s) k) as [<-|Hne].
      * rewrite own_get_set_same in Hget. injection Hget as <-.
        apply IH in Hx; [|exact Hv].
        destruct Hx as [[-> ->]|Hx]; [left; split; reflexivity|].
        destruct (isObject obj) eqn:Ho.
        -- right. exists a, props, obj. subst newValue.
           split; [reflexivity|]. split; [|exact Hx].
           rewrite Hobj. apply member_object. now rewrite <- Hobj.
        -- subst newValue. destruct (Lodash.isIndex next);
             apply nested_at_empty in Hx; congruence.
      * rewrite own_get_set_other in Hget by exact Hne.
        right. exists a, props, x. auto.
Qed.

Lemma fold_write_leaves (l : list issue) :
  forall t ks v,
    nested_at (fold_left write_issue l t) ks v -> isObject v = false ->
    (exists i, In i l /\ keys (issue_path i) = ks /\ v = VStr (message i))
    \/ nested_at t ks v.
Proof.
  induction l as [|j l IH]; intros t ks v Hn Hv; [right; exact Hn|].
  cbn [fold_left] in Hn. apply IH in Hn; [|exact Hv].
  destruct Hn as [[i [Hi Hrest]]|Hn].
  - left. exists i. split; [now right | exact Hrest].
  - unfold write_issue, Lodash.set in Hn.
    destruct (is_nullish t); [right; exact Hn|].
    apply baseSet_leaves in Hn; [|exact Hv].
    destruct Hn as [[-> ->]|Hn]; [|right; exact Hn].
    left. exists j. split; [now left | split; reflexivity].
Qed.

(** X11.  The tree of the action holds nothing but messages of issues:
    whatever the body, a value in the tree the action builds from the
    issues of the body that is not an object or an array is the message of
    one of these issues, found under the keys of the path of that
    issue. *)
Theorem errorTree_leaves_are_messages (formText : string) (ks : list string) (v : value) :
  nested_at (errorTree (parse formSchema [] (Qs.parse formText))) ks v ->
  isObject v = false ->
  exists i,
    In i (parse formSchema [] (Qs.parse formText))
    /\ keys (issue_path i) = ks /\ v = VStr (message i).
Proof.
  intros Hn Hv.
  change (errorTree (parse formSchema [] (Qs.parse formText)))
    with (fold_left write_issue (parse formSchema [] (Qs.parse formText)) (js_object []))
    in Hn.
  apply fold_write_leaves in Hn; [|exact Hv].
  destruct Hn as [Hi|Hn]; [exact Hi|].
  apply nested_at_empty in Hn. congruence.
Qed.

Lemma errorTree_leaves_are_messages_witness :
  let issues := parse formSchema [] (Qs.parse emptyFieldsSubmission) in
  nested_at (errorTree issues) ["questions"; "0"; "name"] (VStr "Name required")
  /\ exists i, In i issues /\ keys (issue_path i) = ["questions"; "0"; "name"]
               /\ VStr "Name required" = VStr (message i).
Proof.
  assert (H : nested_at (errorTree (parse formSchema [] (Qs.parse emptyFieldsSubmission)))
                        ["questions"; "0"; "name"] (VStr "Name required")).
  { vm_compute. repeat (do 3 eexists; split; [reflexivity|]; split; [reflexivity|]).
    reflexivity. }
  split; [exact H|].
  exact (errorTree_leaves_are_messages emptyFieldsSubmission _ _ H eq_refl).
Defined.

(** X12.  Whatever the action data, as long as the client errors are an
    object the form has a tree to show and the lookup of the title error
    in it completes: it renders an element or none, and does not throw. *)
Theorem title_lookup_never_throws (actionData errors : value) :
  isObject errors = true ->
  exists tree el,
    validationErrors actionData errors = Some tree
    /\ renderTitleError tree = Some el.
Proof.
  intros Hobj.
  assert (Hrender : forall tree, is_nullish tree = false ->
            exists el, renderTitleError tree = Some el).
  { intros tree Hn. unfold renderTitleError, read_member. rewrite Hn.
    destruct (truthy (member tree "title")) eqn:T; [|eexists; reflexivity].
    assert (Hm : is_nullish (member tree "title") = false)
      by (destruct (member tree "title"); simpl in *; congruence).
    rewrite Hm. eexists; reflexivity. }
  unfold validationErrors.
  destruct (truthy (opt_member actionData "errors") && Lodash.isEmpty errors) eqn:C.
  - apply andb_prop in C as [T _].
    destruct (truthy_opt_member _ _ T) as [Hn Hm]. unfold read_member. rewrite Hn.
    destruct (Hrender (member actionData "errors")) as [el Hel].
    { rewrite <- Hm. destruct (opt_member actionData "errors"); simpl in *; congruence. }
    eauto.
  - destruct (Hrender errors) as [el Hel]; [destruct errors; simpl in *; congruence|].
    eauto.
Qed.

Lemma title_lookup_never_throws_witness :
  isObject (js_object []) = true
  /\ exists tree el,
       validationErrors (js_object [("errors", js_object [("title", VStr "Title required")])])
                        (js_object []) = Some tree
       /\ renderTitleError tree = Some el.
Proof.
  split; [reflexivity|].
  exact (title_lookup_never_throws
           (js_object [("errors", js_object [("title", VStr "Title required")])])
           (js_object []) eq_refl).
Defined.

(** ** The lookup paths of the editors *)

Section LookupPaths.

Import Chars.

Lemma chars_app (a b : string) : chars (a ++ b) = (chars a ++ chars b)%list.
Proof. induction a as [|c a IH]; simpl; [reflexivity | now rewrite IH]. Qed.

Lemma str_chars (s : string) : str (chars s) = s.
Proof. apply string_of_list_ascii_of_string. Qed.

Lemma digit_facts (c : ascii) :
  is_digit c = true ->
  is_delimiter c = false /\ Ascii.eqb c "-"%char = false.
Proof.
  destruct c as [[] [] [] [] [] [] [] []]; intros H; try discriminate H; split; reflexivity.
Qed.

Lemma digits_of_uint (d : Decimal.uint) :
  Forall (fun c => is_digit c = true) (chars (NilEmpty.string_of_uint d)).
Proof. induction d; simpl; constructor; auto. Qed.

Lemma digits_of_nat (n : nat) :
  Forall (fun c => is_digit c = true) (chars (string_of_nat n))
  /\ chars (string_of_nat n) <> [].
Proof.
  split; [apply digits_of_uint|].
  intros H. pose proof (array_index_string_of_nat n) as Hn.
  rewrite <- (str_chars (string_of_nat n)), H in Hn. discriminate.
Qed.

Lemma span_digits (ds rest : list ascii) (c : ascii) :
  Forall (fun c => is_digit c = true) ds -> is_digit c = false ->
  span is_digit (ds ++ c :: rest) = (ds, c :: rest).
Proof.
  intros Hds Hc. induction Hds as [|d ds Hd _ IH]; simpl.
  - now rewrite Hc.
  - now rewrite Hd, IH.
Qed.

Lemma number_group_digits (ds rest : list ascii) :
  Forall (fun c => is_digit c = true) ds -> ds <> [] ->
  Lodash.number_group (ds ++ rbracket :: rest) = Some (str ds, S (List.length ds)).
Proof.
  intros Hds Hne. unfold Lodash.number_group.
  destruct ds as [|d ds']; [congruence|]. clear Hne.
  inversion Hds as [|? ? Hd Hds']; subst.
  cbn [app]. rewrite (proj2 (digit_facts d Hd)).
  change (d :: (ds' ++ rbracket :: rest))%list with ((d :: ds') ++ rbracket :: rest)%list.
  rewrite (span_digits (d :: ds') rest rbracket Hds eq_refl).
  cbn -[str]. now rewrite !app_nil_r.
Qed.

Lemma scanPath_skip (l rest run : list ascii) :
  Lodash.scanPath (l ++ rest) run (List.length l) = Lodash.scanPath rest run 0.
Proof. induction l as [|c l IH]; simpl; [reflexivity | exact IH]. Qed.

Lemma scanPath_group (ds rest run : list ascii) :
  Forall (fun c => is_digit c = true) ds -> ds <> [] ->
  Lodash.scanPath (lbracket :: ds ++ rbracket :: rest) run 0
  = (Lodash.flush run ++ str ds :: Lodash.scanPath rest [] 0)%list.
Proof.
  intros Hds Hne. cbn [Lodash.scanPath].
  change (Ascii.eqb lbracket dot || is_bracket lbracket) with true.
  change (Ascii.eqb lbracket lbracket) with true. cbv iota.
  rewrite (number_group_digits ds rest Hds Hne). f_equal. f_equal.
  change (ds ++ rbracket :: rest)%list with (ds ++ [rbracket] ++ rest)%list.
  rewrite app_assoc.
  replace (S (List.length ds)) with (List.length (ds ++ [rbracket]))
    by (rewrite length_app; simpl; lia).
  apply scanPath_skip.
Qed.

Lemma scanPath_run (pre rest run : list ascii) :
  Forall (fun c => is_delimiter c = false) pre ->
  Lodash.scanPath (pre ++ rest) run 0 = Lodash.scanPath rest (rev pre ++ run) 0.
Proof.
  intros H. revert run. induction H as [|c pre Hc _ IH]; intros run; [reflexivity|].
  cbn [app Lodash.scanPath]. unfold is_delimiter in Hc. rewrite Hc, IH.
  cbn [rev]. now rewrite <- app_assoc.
Qed.

Lemma stringToPath_scan (s : string) (pre rest : list ascii) :
  chars s = (pre ++ rest)%list -> pre <> [] ->
  Forall (fun c => is_delimiter c = false) pre ->
  Lodash.stringToPath s = Lodash.scanPath rest (rev pre) 0.
Proof.
  intros Hs Hne Hpre. unfold Lodash.stringToPath. rewrite Hs.
  rewrite (scanPath_run pre rest [] Hpre), app_nil_r.
  destruct pre as [|c pre']; [congruence|].
  inversion Hpre as [|? ? Hc _]; subst. unfold is_delimiter in Hc.
  apply orb_false_elim in Hc as [Hc _]. cbn [app]. now rewrite Hc.
Qed.

Lemma chars_nameErrorPath (i : nat) :
  chars (nameErrorPath i)
  = (chars "questions" ++ lbracket :: chars (string_of_nat i)
       ++ rbracket :: chars ".name.message")%list.
Proof. unfold nameErrorPath. now rewrite !chars_app. Qed.

Lemma chars_labelErrorPath (i j : nat) :
  chars (labelErrorPath i j)
  = (chars "questions" ++ lbracket :: chars (string_of_nat i)
       ++ rbracket :: dot :: chars "options" ++ lbracket :: chars (string_of_nat j)
       ++ rbracket :: chars ".label.message")%list.
Proof. unfold labelErrorPath. now rewrite !chars_app. Qed.

Lemma stringToPath_nameErrorPath (i : nat) :
  Lodash.stringToPath (nameErrorPath i)
  = ["questions"; string_of_nat i; "name"; "message"].
Proof.
  destruct (digits_of_nat i) as [Hds Hne].
  rewrite (stringToPath_scan _ _ _ (chars_nameErrorPath i))
    by (try discriminate; repeat constructor).
  rewrite (scanPath_group _ _ _ Hds Hne), str_chars. reflexivity.
Qed.

Lemma stringToPath_labelErrorPath (i j : nat) :
  Lodash.stringToPath (labelErrorPath i j)
  = ["questions"; string_of_nat i; "options"; string_of_nat j; "label"; "message"].
Proof.
  destruct (digits_of_nat i) as [Hi Hin]. destruct (digits_of_nat j) as [Hj Hjn].
  rewrite (stringToPath_scan _ _ _ (chars_labelErrorPath i j))
    by (try discriminate; repeat constructor).
  rewrite (scanPath_group _ _ _ Hi Hin), str_chars.
  change (Lodash.scanPath (dot :: ?l) [] 0) with (Lodash.scanPath l [] 0).
  rewrite scanPath_run by (repeat constructor).
  rewrite (scanPath_group _ _ _ Hj Hjn), str_chars. reflexivity.
Qed.

Lemma forallb_broken {A : Type} (f : A -> bool) (l1 l2 : list A) (c : A) :
  f c = false -> forallb f (l1 ++ c :: l2) = false.
Proof. intros H. rewrite forallb_app. simpl. rewrite H. apply andb_false_r. Qed.

Lemma existsb_found {A : Type} (f : A -> bool) (l1 l2 : list A) (c : A) :
  f c = true -> existsb f (l1 ++ c :: l2) = true.
Proof. intros H. rewrite existsb_app. simpl. rewrite H. apply orb_true_r. Qed.

Lemma existsb_later {A : Type} (f : A -> bool) (l1 l2 : list A) :
  existsb f l2 = true -> existsb f (l1 ++ l2) = true.
Proof. intros H. rewrite existsb_app, H. apply orb_true_r. Qed.

Lemma isKey_nameErrorPath (i : nat) (a : bool) (props : props_t) :
  has_own (nameErrorPath i) props = false ->
  Lodash.isKey (nameErrorPath i) (VObj a props) = false.
Proof.
  intros H. unfold Lodash.isKey, Lodash.is_deep_prop. rewrite H, chars_nameErrorPath.
  rewrite (forallb_broken _ (chars "questions") _ lbracket eq_refl).
  rewrite (existsb_later (Ascii.eqb dot) (chars "questions")); [reflexivity|].
  apply (existsb_later _ (lbracket :: chars (string_of_nat i))). reflexivity.
Qed.

Lemma isKey_labelErrorPath (i j : nat) (a : bool) (props : props_t) :
  has_own (labelErrorPath i j) props = false ->
  Lodash.isKey (labelErrorPath i j) (VObj a props) = false.
Proof.
  intros H. unfold Lodash.isKey, Lodash.is_deep_prop. rewrite H, chars_labelErrorPath.
  rewrite (forallb_broken _ (chars "questions") _ lbracket eq_refl).
  rewrite (existsb_later (Ascii.eqb dot) (chars "questions")); [reflexivity|].
  apply (existsb_later _ (lbracket :: chars (string_of_nat i))). reflexivity.
Qed.

End LookupPaths.

Lemma get_nameErrorPath (i : nat) (a : bool) (props : props_t) :
  has_own (nameErrorPath i) props = false ->
  Lodash.get (VObj a props) (nameErrorPath i)
  = Lodash.walk (VObj a props) ["questions"; string_of_nat i; "name"; "message"].
Proof.
  intros H. unfold Lodash.get, Lodash.castPath. cbn [is_nullish].
  now rewrite (isKey_nameErrorPath i a props H), stringToPath_nameErrorPath.
Qed.

Lemma get_labelErrorPath (i j : nat) (a : bool) (props : props_t) :
  has_own (labelErrorPath i j) props = false ->
  Lodash.get (VObj a props) (labelErrorPath i j)
  = Lodash.walk (VObj a props)
      ["questions"; string_of_nat i; "options"; string_of_nat j; "label"; "message"].
Proof.
  intros H. unfold Lodash.get, Lodash.castPath. cbn [is_nullish].
  now rewrite (isKey_labelErrorPath i j a props H), stringToPath_labelErrorPath.
Qed.

Lemma nested_at_walk (ks : list string) :
  forall t v, nested_at t ks v -> Lodash.walk t ks = v.
Proof.
  induction ks as [|k rest IH]; intros t v H; simpl in *; [assumption|].
  destruct H as [a [props [x [-> [Hget Hx]]]]]. simpl. rewrite Hget. now apply IH.
Qed.

(** X13.  The lookups of the question and option editors.  In a tree with
    no property named by a whole lookup path, the name error of question
    [i] is the member found by walking [questions], [i], [name],
    [message], and the label error of option [j] the one found by walking
    [questions], [i], [options], [j], [label], [message], for every [i]
    and [j]; it is rendered when truthy.  A tree without [questions]
    renders neither. *)
Theorem lookups_read_the_message_member (a : bool) (props : props_t) (i j : nat) :
  has_own (nameErrorPath i) props = false ->
  has_own (labelErrorPath i j) props = false ->
  let errors := VObj a props in
  (forall m,
     nested_at errors ["questions"; string_of_nat i; "name"; "message"] m ->
     renderNameError errors i = if truthy m then ErrorDiv m else NoElement)
  /\ (forall m,
        nested_at errors
          ["questions"; string_of_nat i; "options"; string_of_nat j; "label"; "message"] m ->
        renderLabelError errors i j = if truthy m then ErrorDiv m else NoElement)
  /\ (own_get "questions" props = None ->
      renderNameError errors i = NoElement /\ renderLabelError errors i j = NoElement).
Proof.
  intros Hn Hl errors. subst errors. unfold renderNameError, renderLabelError.
  rewrite (get_nameErrorPath i a props Hn), (get_labelErrorPath i j a props Hl).
  split; [|split].
  - intros m Hm. now rewrite (nested_at_walk _ _ _ Hm).
  - intros m Hm. now rewrite (nested_at_walk _ _ _ Hm).
  - intros Hq. cbn [Lodash.walk is_nullish member]. rewrite Hq.
    destruct a; simpl; auto.
Qed.

Lemma lookups_read_the_message_member_witness :
  has_own (nameErrorPath 0) clientErrors = false
  /\ has_own (labelErrorPath 0 1) clientErrors = false
  /\ renderNameError (VObj false clientErrors) 0 = ErrorDiv (VStr "Name required").
Proof.
  split; [reflexivity|]. split; [reflexivity|].
  refine (proj1 (lookups_read_the_message_member false clientErrors 0 1 eq_refl eq_refl)
                (VStr "Name required") _).
  cbn [nested_at].
  repeat (do 3 eexists; split; [reflexivity|]; split; [reflexivity|]). reflexivity.
Defined.

(** ** The tree of the server under the lookups *)

Lemma field_keyed_obj (a : bool) (props : props_t) :
  field_keyed (VObj a props) <-> props_keyed props.
Proof.
  unfold props_keyed. induction props as [|kv rest IH]; simpl.
  - split; [constructor | exact (fun _ => I)].
  - split.
    + intros [Hk [Hv Hrest]]. constructor; [split; assumption | now apply IH].
    + intros H. inversion H as [|? ? [Hk Hv] Hrest]; subst.
      repeat split; auto. now apply IH.
Qed.

Lemma keyed_own_get (k : string) (props : props_t) (x : value) :
  props_keyed props -> own_get k props = Some x -> field_keyed x.
Proof.
  induction 1 as [|[k' v'] rest [Hk Hv] _ IH]; simpl; [discriminate|].
  destruct (String.eqb k k'); [now intros [= <-] | exact IH].
Qed.

Lemma keyed_own_set (k : string) (v : value) (props : props_t) :
  is_field_key k = true -> field_keyed v -> props_keyed props ->
  props_keyed (own_set k v props).
Proof.
  intros Hk Hv. induction 1 as [|[k' v'] rest [Hk' Hv'] Hrest IH]; simpl.
  - repeat constructor; assumption.
  - destruct (String.eqb k k'); [constructor; [split; assumption | assumption]|].
    destruct (key_before k k').
    + constructor; [split; assumption|]. constructor; [split; assumption | assumption].
    + constructor; [split; assumption | exact IH].
Qed.

Lemma keyed_member (v : value) (k : string) :
  field_keyed v -> field_keyed (member v k).
Proof.
  destruct v as [| | | | s | a props]; try exact (fun _ => I).
  - intros _. simpl. destruct (String.eqb k "length"); [exact I|].
    destruct (array_index k); [|exact I]. destruct (char_at s n); exact I.
  - intros H. apply field_keyed_obj in H. simpl.
    destruct (own_get k props) eqn:E; [now apply (keyed_own_get k props)|].
    destruct (a && _); exact I.
Qed.

Lemma field_seg_key (s : seg) :
  is_field_seg s = true -> is_field_key (Lodash.toKey s) = true.
Proof.
  destruct s as [k|i]; unfold is_field_key; cbn [Lodash.toKey is_field_seg]; intros H.
  - now rewrite H.
  - rewrite is_array_index_string_of_nat. apply orb_true_r.
Qed.

Lemma keyed_baseSet (p : path) :
  forall t v, forallb is_field_seg p = true -> field_keyed t -> field_keyed v ->
  field_keyed (Lodash.baseSet t p v).
Proof.
  induction p as [|s rest IH]; intros t v Hp Ht Hv; [destruct t; exact Ht|].
  simpl in Hp. apply andb_prop in Hp as [Hs Hrest].
  destruct t as [| | | | | a props]; try exact Ht.
  cbn [Lodash.baseSet]. destruct (Lodash.unsafe_key _); [exact Ht|].
  pose proof (proj1 (field_keyed_obj a props) Ht) as Hprops.
  destruct rest as [|next rest'].
  - apply field_keyed_obj. apply keyed_own_set; auto using field_seg_key.
  - apply field_keyed_obj. apply keyed_own_set; auto using field_seg_key.
    apply IH; auto.
    destruct (isObject (member (VObj a props) (Lodash.toKey s))) eqn:E.
    + now apply keyed_member.
    + destruct (Lodash.isIndex next); exact I.
Qed.

Lemma keyed_errorTree (issues : list issue) :
  Forall (fun i => forallb is_field_seg (issue_path i) = true) issues ->
  field_keyed (errorTree issues).
Proof.
  unfold errorTree.
  assert (H : forall l t,
            Forall (fun i => forallb is_field_seg (issue_path i) = true) l ->
            field_keyed t -> plain_object t ->
            field_keyed (fold_left write_issue l t)).
  { induction l as [|i l IH]; intros t Hl Ht Hobj; simpl; [assumption|].
    inversion Hl; subst. destruct Hobj as [props ->].
    unfold write_issue at 2. unfold Lodash.set. cbn [is_nullish].
    destruct (baseSet_keeps_kind (issue_path i) false props (VStr (message i)))
      as [props' Hprops'].
    apply IH; auto.
    - apply keyed_baseSet; auto. exact I.
    - rewrite Hprops'. eexists; reflexivity. }
  intros Hl. apply (H issues (js_object []) Hl); [exact I | eexists; reflexivity].
Qed.

Lemma keyed_array_props (l : list value) :
  Forall field_keyed l -> forall s, props_keyed (array_props s l).
Proof.
  induction 1 as [|x l Hx _ IH]; intros s; simpl; constructor.
  - split; [|exact Hx]. unfold is_field_key. cbn [fst].
    rewrite is_array_index_string_of_nat. apply orb_true_r.
  - apply IH.
Qed.

Lemma keyed_json_transport (v : value) :
  field_keyed v -> field_keyed (json_transport v).
Proof.
  induction v as [| | | | | a props IH] using value_ind'; try exact (fun _ => I).
  intros Hv. apply field_keyed_obj in Hv. cbn [json_transport].
  assert (Hmap : props_keyed (map (fun kv => (fst kv, json_transport (snd kv))) props)).
  { unfold props_keyed in *. induction props as [|kv rest IHr]; simpl; constructor.
    - inversion Hv as [|? ? [Hk Hx] _]; subst. inversion IH; subst. split; auto.
    - inversion Hv; subst. inversion IH; subst. auto. }
  destruct a.
  - apply field_keyed_obj. apply keyed_array_props.
    apply Forall_map. unfold array_items. apply Forall_map.
    apply Forall_forall. intros i _. unfold array_item.
    destruct (own_get _ _) eqn:E; [|exact I].
    pose proof (keyed_own_get _ _ _ Hmap E) as Hx. destruct v; exact I || exact Hx.
  - apply field_keyed_obj. unfold props_keyed in *.
    apply Forall_forall. intros kv Hin. apply filter_In in Hin as [Hin _].
    rewrite Forall_forall in Hmap. now apply Hmap.
Qed.

Lemma keyed_no_message (v : value) :
  field_keyed v -> member v "message" = VUndefined.
Proof.
  destruct v as [| | | | s | a props]; try reflexivity.
  intros H. apply field_keyed_obj in H.
  assert (Hget : own_get "message" props = None).
  { induction H as [|[k x] rest [Hk _] _ IH]; cbn [own_get]; [reflexivity|].
    destruct (String.eqb "message" k) eqn:E; [|exact IH].
    apply String.eqb_eq in E. subst k. discriminate. }
  cbn [member]. rewrite Hget. now rewrite andb_false_r.
Qed.

Lemma keyed_walk_message (ks : list string) :
  forall v, field_keyed v -> Lodash.walk v (ks ++ ["message"]) = VUndefined.
Proof.
  induction ks as [|k rest IH]; intros v Hv; simpl.
  - destruct (is_nullish v); [reflexivity | now apply keyed_no_message].
  - destruct (is_nullish v); [reflexivity|]. apply IH. now apply keyed_member.
Qed.

Lemma keyed_has_own (k : string) (props : props_t) :
  is_field_key k = false -> props_keyed props -> has_own k props = false.
Proof.
  intros Hk H. unfold has_own.
  assert (Hget : own_get k props = None).
  { induction H as [|[k' x] rest [Hk' _] _ IH]; simpl; [reflexivity|].
    destruct (String.eqb k k') eqn:E; [|exact IH].
    apply String.eqb_eq in E. subst k'. cbn [fst] in Hk'. congruence. }
  now rewrite Hget.
Qed.

Lemma array_index_letter (s : string) :
  array_index (String "q" s) = None.
Proof.
  unfold array_index. simpl. destruct (NilEmpty.uint_of_string s); reflexivity.
Qed.

Lemma lookup_paths_are_no_field_keys (i j : nat) :
  is_field_key (nameErrorPath i) = false /\ is_field_key (labelErrorPath i j) = false.
Proof.
  unfold is_field_key, is_array_index, nameErrorPath, labelErrorPath.
  split.
  - change ("questions[" ++ ?s) with (String "q" ("uestions[" ++ s)).
    now rewrite array_index_letter.
  - change ("questions[" ++ ?s) with (String "q" ("uestions[" ++ s)).
    now rewrite array_index_letter.
Qed.

Lemma shown_tree_is_keyed (formText : string) (tree : value) :
  validationErrors (useActionData (Some (action formText))) (js_object []) = Some tree ->
  field_keyed tree /\ plain_object tree.
Proof.
  rewrite shown_after_action. intros Heq.
  apply (f_equal (fun o => match o with Some t => t | None => VUndefined end)) in Heq.
  cbv beta iota in Heq. subst tree.
  destruct (parse_plain_object formText) as [props Hprops]. rewrite Hprops.
  destruct (parse formSchema [] (VObj false props)) as [|i rest] eqn:E.
  - split; [exact I | eexists; reflexivity].
  - destruct (rejection_facts props i rest E) as [tprops [props' [Ht [_ [Hj _]]]]].
    split; [|rewrite Ht, Hj; eexists; reflexivity].
    apply keyed_json_transport, keyed_errorTree. rewrite <- E.
    destruct (parse_tidy formSchema formSchema_tidy [] (VObj false props)) as [He _].
    eapply Forall_impl; [|exact He]. intros x [q [Hq Hf]]. simpl in Hq. now rewrite Hq.
Qed.

(** X14.  No message of the server is rendered.  Whatever the body, in the
    tree the form shows after the action (the client tree being empty) the
    name error of every question and the label error of every option
    render nothing, and the title error is no element or an element
    without text. *)
Theorem server_errors_never_render (formText : string) (tree : value) :
  validationErrors (useActionData (Some (action formText))) (js_object []) = Some tree ->
  (forall i, renderNameError tree i = NoElement)
  /\ (forall i j, renderLabelError tree i j = NoElement)
  /\ (renderTitleError tree = Some NoElement
      \/ renderTitleError tree = Some (ErrorDiv VUndefined)).
Proof.
  intros H. destruct (shown_tree_is_keyed formText tree H) as [Hk [props ->]].
  pose proof (proj1 (field_keyed_obj false props) Hk) as Hprops.
  split; [|split].
  - intros i. unfold renderNameError.
    rewrite get_nameErrorPath
      by (apply keyed_has_own; [apply (lookup_paths_are_no_field_keys i 0) | exact Hprops]).
    change ["questions"; string_of_nat i; "name"; "message"]
      with (["questions"; string_of_nat i; "name"] ++ ["message"])%list.
    now rewrite keyed_walk_message.
  - intros i j. unfold renderLabelError.
    rewrite get_labelErrorPath
      by (apply keyed_has_own; [apply (lookup_paths_are_no_field_keys i j) | exact Hprops]).
    change ["questions"; string_of_nat i; "options"; string_of_nat j; "label"; "message"]
      with (["questions"; string_of_nat i; "options"; string_of_nat j; "label"]
            ++ ["message"])%list.
    now rewrite keyed_walk_message.
  - unfold renderTitleError, read_member. cbn [is_nullish].
    destruct (truthy (member (VObj false props) "title")) eqn:T; [|now left].
    right.
    assert (Hn : is_nullish (member (VObj false props) "title") = false)
      by (destruct (member (VObj false props) "title"); simpl in *; congruence).
    rewrite Hn, keyed_no_message; [reflexivity | now apply keyed_member].
Qed.

Lemma server_errors_never_render_witness :
  validationErrors (useActionData (Some (action emptyFieldsSubmission))) (js_object [])
  = Some emptyFieldsErrors
  /\ renderNameError emptyFieldsErrors 7 = NoElement
  /\ renderLabelError emptyFieldsErrors 0 0 = NoElement.
Proof.
  assert (H : validationErrors (useActionData (Some (action emptyFieldsSubmission)))
                               (js_object []) = Some emptyFieldsErrors) by reflexivity.
  split; [exact H|].
  pose proof (server_errors_never_render emptyFieldsSubmission emptyFieldsErrors H)
    as [H1 [H2 _]].
  split; [exact (H1 7) | exact (H2 0 0)].
Defined.

(** ** Appended items under validation *)

Lemma mapi_app {A B : Type} (f : nat -> A -> B) (l l' : list A) :
  forall start, mapi f start (l ++ l') = (mapi f start l ++ mapi f (start + List.length l) l')%list.
Proof.
  induction l as [|x l IH]; intros start; simpl.
  - now rewrite Nat.add_0_r.
  - rewrite IH. now replace (S start + List.length l) with (start + S (List.length l)) by lia.
Qed.

Lemma parse_array_snoc (element : schema) (p : path) (items : list value) (x : value) :
  parse (ZArray element) p (js_array (items ++ [x]))
  = (parse (ZArray element) p (js_array items)
     ++ parse element (p ++ [SIdx (List.length items)])%list x)%list.
Proof.
  rewrite !parse_array_of, mapi_app, concat_app. cbn [mapi concat plus].
  now rewrite app_nil_r.
Qed.

(** X15.  The question appended by "Add question" is invalid as appended:
    validating the form with the appended field array raises the issues of
    the form before, unchanged and in the same order, followed by exactly
    one more, "Name required" at the name of the new question. *)
Theorem blank_question_adds_one_issue (newId : string) (tv : value) (fields : list field) :
  parse formSchema []
        (js_object [("title", tv);
                    ("questions", js_array (map field_value (addQuestion newId fields)))])
  = (parse formSchema []
           (js_object [("title", tv);
                       ("questions", js_array (map field_value fields))])
     ++ [mkIssue (too_small 1) (namePath (List.length fields)) "Name required"])%list.
Proof.
  unfold addQuestion, append, js_object. rewrite map_app. cbn [map field_value].
  change (parse formSchema [] (VObj false [("title", tv); ("questions", ?q)]))
    with (parse (string_nonempty "Title required") titlePath tv
          ++ parse (ZArray questionSchema) [SKey "questions"] q ++ [])%list.
  rewrite parse_array_snoc, !app_nil_r, length_map, <- app_assoc. reflexivity.
Qed.

(** X16.  The option appended by "Add option" is invalid as appended:
    validating the question with the appended options raises the issues of
    the question before, unchanged and in the same order, followed by
    exactly one more, "Label required" at the label of the new option. *)
Theorem blank_option_adds_one_issue
  (newId : string) (p : path) (props : props_t) (opts : list field) :
  parse questionSchema p
        (VObj false (own_set "options"
                       (js_array (map field_value (addOption newId opts))) props))
  = (parse questionSchema p
           (VObj false (own_set "options" (js_array (map field_value opts)) props))
     ++ [mkIssue (too_small 1)
                 (p ++ [SKey "options"; SIdx (List.length opts); SKey "label"])%list
                 "Label required"])%list.
Proof.
  assert (Hq : forall x,
    parse questionSchema p (VObj false (own_set "options" (js_array x) props))
    = (parse (string_nonempty "Name required") (p ++ [SKey "name"])%list
             (member (VObj false props) "name")
       ++ parse (ZEnum question_types) (p ++ [SKey "type"])%list
                (member (VObj false props) "type")
       ++ parse (ZArray label_schema) (p ++ [SKey "options"])%list (js_array x))%list).
  { intros x.
    change (parse questionSchema p (VObj false (own_set "options" (js_array x) props)))
      with (parse (string_nonempty "Name required") (p ++ [SKey "name"])%list
                  (member (VObj false (own_set "options" (js_array x) props)) "name")
            ++ parse (ZEnum question_types) (p ++ [SKey "type"])%list
                     (member (VObj false (own_set "options" (js_array x) props)) "type")
            ++ parse (ZOptional (ZArray label_schema)) (p ++ [SKey "options"])%list
                     (member (VObj false (own_set "options" (js_array x) props)) "options")
            ++ [])%list.
    cbn [member]. rewrite own_get_set_same, !own_get_set_other by discriminate.
    now rewrite app_nil_r. }
  rewrite !Hq. unfold addOption, append. rewrite map_app. cbn [map field_value].
  rewrite parse_array_snoc, length_map, !app_assoc. f_equal.
  unfold newOption.
  rewrite (parse_option_value _ (mkOption "")). unfold required_issue. cbn [label String.eqb].
  now rewrite <- !app_assoc.
Qed.

(** ** Beyond the array limit of [qs.parse] *)

Section KeyChains.

Import Chars.

Lemma digit_plain (c : ascii) :
  is_digit c = true ->
  Qs.is_dot_or_open c = false /\ is_bracket c = false /\ Ascii.eqb c dot = false.
Proof.
  destruct c as [[] [] [] [] [] [] [] []]; intros H; try discriminate H;
    repeat split; reflexivity.
Qed.

Lemma dotsToBrackets_copy (run rest : list ascii) :
  Forall (fun c => Qs.is_dot_or_open c = false) run ->
  Qs.dotsToBrackets (run ++ rest) true = (run ++ Qs.dotsToBrackets rest true)%list.
Proof.
  intros H. induction H as [|c run Hc _ IH]; [reflexivity|].
  cbn [app Qs.dotsToBrackets]. rewrite Hc. cbn [negb andb]. now rewrite IH.
Qed.

Lemma dotsToBrackets_plain (run rest : list ascii) :
  Forall (fun c => Ascii.eqb c dot = false) run ->
  Qs.dotsToBrackets (run ++ rest) false = (run ++ Qs.dotsToBrackets rest false)%list.
Proof.
  intros H. induction H as [|c run Hc _ IH]; [reflexivity|].
  cbn [app Qs.dotsToBrackets andb]. rewrite Hc. cbn [andb app]. now rewrite IH.
Qed.

Lemma dotsToBrackets_dot (c : ascii) (rest : list ascii) (open : bool) :
  Qs.is_dot_or_open c = false ->
  Qs.dotsToBrackets (dot :: c :: rest) open
  = ((if open then [rbracket] else []) ++ lbracket :: Qs.dotsToBrackets (c :: rest) true)%list.
Proof.
  intros Hc. destruct open.
  - change (Qs.dotsToBrackets (dot :: c :: rest) true)
      with (([rbracket] ++
             (if Ascii.eqb dot dot && negb (Qs.is_dot_or_open c)
              then lbracket :: Qs.dotsToBrackets (c :: rest) true
              else dot :: Qs.dotsToBrackets (c :: rest) false))%list).
    now rewrite Hc.
  - change (Qs.dotsToBrackets (dot :: c :: rest) false)
      with (([] ++
             (if Ascii.eqb dot dot && negb (Qs.is_dot_or_open c)
              then lbracket :: Qs.dotsToBrackets (c :: rest) true
              else dot :: Qs.dotsToBrackets (c :: rest) false))%list).
    now rewrite Hc.
Qed.

Lemma scanGroups_inside (run rest : list ascii) :
  Forall (fun c => is_bracket c = false) run ->
  forall pos start acc,
    Qs.scanGroups (run ++ rbracket :: rest) pos (Some (start, acc))
    = (start, str (rev acc ++ run))
        :: Qs.scanGroups rest (S (pos + List.length run)) None.
Proof.
  intros H. induction H as [|c run Hc _ IH]; intros pos start acc.
  - cbn [app Qs.scanGroups List.length].
    change (Ascii.eqb rbracket lbracket) with false.
    change (Ascii.eqb rbracket rbracket) with true. cbv iota.
    now rewrite app_nil_r, Nat.add_0_r.
  - cbn [app Qs.scanGroups List.length].
    apply orb_false_elim in Hc as [Hl Hr]. rewrite Hl, Hr.
    rewrite IH. cbn [rev]. rewrite <- app_assoc. cbn [app].
    now rewrite Nat.add_succ_r.
Qed.

Lemma scanGroups_group (run rest : list ascii) (pos : nat) (cur : option (nat * list ascii)) :
  Forall (fun c => is_bracket c = false) run ->
  Qs.scanGroups (lbracket :: run ++ rbracket :: rest) pos cur
  = (pos, str run) :: Qs.scanGroups rest (S (S pos + List.length run)) None.
Proof.
  intros H. cbn [Qs.scanGroups].
  change (Ascii.eqb lbracket lbracket) with true. cbv iota.
  now rewrite (scanGroups_inside run rest H).
Qed.

Lemma scanGroups_outside (run rest : list ascii) :
  Forall (fun c => is_bracket c = false) run ->
  forall pos,
    Qs.scanGroups (run ++ rest) pos None
    = Qs.scanGroups rest (pos + List.length run) None.
Proof.
  intros H. induction H as [|c run Hc _ IH]; intros pos.
  - cbn [app List.length]. now rewrite Nat.add_0_r.
  - cbn [app Qs.scanGroups List.length].
    apply orb_false_elim in Hc as [Hl Hr]. rewrite Hl, Hr, IH.
    now rewrite Nat.add_succ_r.
Qed.

Lemma firstn_exact {A : Type} (l r : list A) :
  firstn (List.length l) (l ++ r) = l.
Proof. induction l as [|x l IH]; simpl; [reflexivity | now rewrite IH]. Qed.

Lemma digits_not_in_prototype (ds : list ascii) :
  Forall (fun c => is_digit c = true) ds -> Qs.in_prototype (str ds) = false.
Proof.
  intros H. destruct H as [|d ds Hd _]; [reflexivity|].
  destruct d as [[] [] [] [] [] [] [] []]; try discriminate Hd; reflexivity.
Qed.

Lemma chain_of_chars (k : string) (key : list ascii) (groups : list (nat * string)) :
  k <> "" ->
  Qs.dotsToBrackets (chars k) false = key ->
  Qs.scanGroups key 0 None = groups ->
  Qs.chain_of k
  = let parent :=
        match groups with
        | (start, _) :: _ => firstn start key
        | [] => key
        end in
    let children := firstn Qs.depth groups in
    if (match parent with [] => false | _ => Qs.in_prototype (str parent) end)
       || existsb (fun g => Qs.in_prototype (snd g)) children
    then None
    else
      Some ((match parent with [] => [] | _ => [Qs.Parent (str parent)] end)
            ++ map (fun g => Qs.Child (snd g)) children
            ++ match skipn Qs.depth groups with
               | (start, _) :: _ => [Qs.Child (str (skipn start key))]
               | [] => []
               end)%list.
Proof.
  intros Hk <- <-. destruct k; [congruence | reflexivity].
Qed.

Lemma dotsToBrackets_field (w rest : list ascii) (open : bool) :
  Forall (fun c => Qs.is_dot_or_open c = false) w -> w <> [] ->
  Qs.dotsToBrackets (dot :: w ++ rest) open
  = ((if open then [rbracket] else [])
     ++ lbracket :: w ++ Qs.dotsToBrackets rest true)%list.
Proof.
  intros Hw Hne. destruct w as [|c w']; [congruence|].
  cbn [app]. rewrite dotsToBrackets_dot by (now inversion Hw).
  change (c :: (w' ++ rest))%list with ((c :: w') ++ rest)%list.
  now rewrite (dotsToBrackets_copy (c :: w') rest Hw).
Qed.

Lemma chain_of_two_groups (k : string) (ds w : list ascii) :
  chars k = (chars "questions" ++ dot :: ds ++ dot :: w)%list ->
  Forall (fun c => is_digit c = true) ds -> ds <> [] ->
  Forall (fun c => Qs.is_dot_or_open c = false /\ is_bracket c = false) w -> w <> [] ->
  Qs.in_prototype (str w) = false ->
  Qs.chain_of k = Some [Qs.Parent "questions"; Qs.Child (str ds); Qs.Child (str w)].
Proof.
  intros Hk Hds Hdne Hw Hwne Hproto.
  assert (Hds1 : Forall (fun c => Qs.is_dot_or_open c = false) ds)
    by (eapply Forall_impl; [|exact Hds]; intros c Hc; apply (digit_plain c Hc)).
  assert (Hds2 : Forall (fun c => is_bracket c = false) ds)
    by (eapply Forall_impl; [|exact Hds]; intros c Hc; apply (digit_plain c Hc)).
  assert (Hw1 : Forall (fun c => Qs.is_dot_or_open c = false) w)
    by (eapply Forall_impl; [|exact Hw]; intros c Hc; apply Hc).
  assert (Hw2 : Forall (fun c => is_bracket c = false) w)
    by (eapply Forall_impl; [|exact Hw]; intros c Hc; apply Hc).
  assert (Hkey : Qs.dotsToBrackets (chars k) false
                 = (chars "questions" ++ lbracket :: ds
                      ++ rbracket :: lbracket :: w ++ [rbracket])%list).
  { rewrite Hk, dotsToBrackets_plain by (repeat constructor).
    rewrite (dotsToBrackets_field ds (dot :: w) false Hds1 Hdne). cbn [app].
    replace (dot :: w)%list with (dot :: w ++ [])%list by (now rewrite app_nil_r).
    rewrite (dotsToBrackets_field w [] true Hw1 Hwne). reflexivity. }
  assert (Hgroups : Qs.scanGroups (chars "questions" ++ lbracket :: ds
                                     ++ rbracket :: lbracket :: w ++ [rbracket])%list
                                  0 None
                    = [(9, str ds); (S (S 9 + List.length ds), str w)]).
  { rewrite scanGroups_outside by (repeat constructor).
    change (0 + List.length (chars "questions")) with 9.
    rewrite (scanGroups_group ds _ 9 None Hds2).
    change (w ++ [rbracket])%list with (w ++ rbracket :: [])%list.
    rewrite (scanGroups_group w [] _ None Hw2). reflexivity. }
  rewrite (chain_of_chars k _ _ ltac:(intros E; rewrite E in Hk; discriminate) Hkey Hgroups).
  cbv zeta.
  change 9 with (List.length (chars "questions")). rewrite firstn_exact.
  cbn [firstn Qs.depth skipn existsb snd map app chars list_ascii_of_string].
  rewrite (digits_not_in_prototype ds Hds), Hproto. reflexivity.
Qed.

Lemma chain_of_four_groups (k : string) (ds es : list ascii) :
  chars k = (chars "questions" ++ dot :: ds ++ dot :: chars "options"
               ++ dot :: es ++ dot :: chars "label")%list ->
  Forall (fun c => is_digit c = true) ds -> ds <> [] ->
  Forall (fun c => is_digit c = true) es -> es <> [] ->
  Qs.chain_of k
  = Some [Qs.Parent "questions"; Qs.Child (str ds); Qs.Child "options";
          Qs.Child (str es); Qs.Child "label"].
Proof.
  intros Hk Hds Hdne Hes Hene.
  assert (Hds1 : Forall (fun c => Qs.is_dot_or_open c = false) ds)
    by (eapply Forall_impl; [|exact Hds]; intros c Hc; apply (digit_plain c Hc)).
  assert (Hds2 : Forall (fun c => is_bracket c = false) ds)
    by (eapply Forall_impl; [|exact Hds]; intros c Hc; apply (digit_plain c Hc)).
  assert (Hes1 : Forall (fun c => Qs.is_dot_or_open c = false) es)
    by (eapply Forall_impl; [|exact Hes]; intros c Hc; apply (digit_plain c Hc)).
  assert (Hes2 : Forall (fun c => is_bracket c = false) es)
    by (eapply Forall_impl; [|exact Hes]; intros c Hc; apply (digit_plain c Hc)).
  assert (Hkey : Qs.dotsToBrackets (chars k) false
                 = (chars "questions" ++ lbracket :: ds
                      ++ rbracket :: lbracket :: chars "options"
                      ++ rbracket :: lbracket :: es
                      ++ rbracket :: lbracket :: chars "label" ++ [rbracket])%list).
  { rewrite Hk, dotsToBrackets_plain by (repeat constructor).
    rewrite (dotsToBrackets_field ds _ false Hds1 Hdne). cbn [app].
    rewrite (dotsToBrackets_field (chars "options") _ true)
      by (try discriminate; repeat constructor).
    rewrite (dotsToBrackets_field es _ true Hes1 Hene).
    reflexivity. }
  assert (Hgroups : exists p2 p3 p4,
             Qs.scanGroups (chars "questions" ++ lbracket :: ds
                              ++ rbracket :: lbracket :: chars "options"
                              ++ rbracket :: lbracket :: es
                              ++ rbracket :: lbracket :: chars "label" ++ [rbracket])%list
                           0 None
             = [(9, str ds); (p2, "options"); (p3, str es); (p4, "label")]).
  { rewrite scanGroups_outside by (repeat constructor).
    change (0 + List.length (chars "questions")) with 9.
    rewrite (scanGroups_group ds _ 9 None Hds2).
    rewrite (scanGroups_group (chars "options") _ _ None) by (repeat constructor).
    rewrite (scanGroups_group es _ _ None Hes2).
    change (chars "label" ++ [rbracket])%list with (chars "label" ++ rbracket :: [])%list.
    rewrite (scanGroups_group (chars "label") [] _ None) by (repeat constructor).
    do 3 eexists. reflexivity. }
  destruct Hgroups as [p2 [p3 [p4 Hgroups]]].
  rewrite (chain_of_chars k _ _ ltac:(intros E; rewrite E in Hk; discriminate) Hkey Hgroups).
  cbv zeta.
  change 9 with (List.length (chars "questions")). rewrite firstn_exact.
  cbn [firstn Qs.depth skipn existsb snd map app chars list_ascii_of_string].
  rewrite (digits_not_in_prototype ds Hds), (digits_not_in_prototype es Hes). reflexivity.
Qed.

Lemma chain_of_nameField_any (i : nat) :
  Qs.chain_of (nameField i)
  = Some [Qs.Parent "questions"; Qs.Child (string_of_nat i); Qs.Child "name"].
Proof.
  destruct (digits_of_nat i) as [Hds Hne].
  assert (Hk : chars (nameField i)
               = (chars "questions" ++ dot :: chars (string_of_nat i)
                    ++ dot :: chars "name")%list)
    by (unfold nameField; now rewrite !chars_app).
  pose proof (chain_of_two_groups (nameField i) _ (chars "name") Hk Hds Hne) as H.
  rewrite (str_chars (string_of_nat i)) in H.
  apply H; [repeat constructor | discriminate | reflexivity].
Qed.

Lemma chain_of_typeField_any (i : nat) :
  Qs.chain_of (typeField i)
  = Some [Qs.Parent "questions"; Qs.Child (string_of_nat i); Qs.Child "type"].
Proof.
  destruct (digits_of_nat i) as [Hds Hne].
  assert (Hk : chars (typeField i)
               = (chars "questions" ++ dot :: chars (string_of_nat i)
                    ++ dot :: chars "type")%list)
    by (unfold typeField; now rewrite !chars_app).
  pose proof (chain_of_two_groups (typeField i) _ (chars "type") Hk Hds Hne) as H.
  rewrite (str_chars (string_of_nat i)) in H.
  apply H; [repeat constructor | discriminate | reflexivity].
Qed.

Lemma chain_of_labelField_any (i j : nat) :
  Qs.chain_of (labelField i j)
  = Some [Qs.Parent "questions"; Qs.Child (string_of_nat i); Qs.Child "options";
          Qs.Child (string_of_nat j); Qs.Child "label"].
Proof.
  destruct (digits_of_nat i) as [Hi Hin]. destruct (digits_of_nat j) as [Hj Hjn].
  assert (Hk : chars (labelField i j)
               = (chars "questions" ++ dot :: chars (string_of_nat i)
                    ++ dot :: chars "options" ++ dot :: chars (string_of_nat j)
                    ++ dot :: chars "label")%list)
    by (unfold labelField; now rewrite !chars_app).
  pose proof (chain_of_four_groups (labelField i j) _ _ Hk Hi Hin Hj Hjn) as H.
  now rewrite !str_chars in H.
Qed.

End KeyChains.

Lemma wrap_index_any (i : nat) (leaf : value) :
  Qs.wrap (Qs.Child (string_of_nat i)) leaf
  = VObj (Nat.leb i Qs.arrayLimit) [(string_of_nat i, leaf)].
Proof.
  pose proof (array_index_string_of_nat i) as Hi.
  unfold Qs.wrap. destruct (string_of_nat i) as [|c s] eqn:E; [discriminate Hi|].
  rewrite Hi. now destruct (Nat.leb i Qs.arrayLimit).
Qed.

Lemma parseKeys_nameField_any (i : nat) (v : value) :
  Qs.parseKeys (nameField i) v
  = VObj false [("questions",
                 VObj (Nat.leb i Qs.arrayLimit)
                      [(string_of_nat i, VObj false [("name", v)])])].
Proof.
  unfold Qs.parseKeys. rewrite chain_of_nameField_any.
  cbn [Qs.parseObject fold_right]. now rewrite wrap_index_any.
Qed.

Lemma parseKeys_typeField_any (i : nat) (v : value) :
  Qs.parseKeys (typeField i) v
  = VObj false [("questions",
                 VObj (Nat.leb i Qs.arrayLimit)
                      [(string_of_nat i, VObj false [("type", v)])])].
Proof.
  unfold Qs.parseKeys. rewrite chain_of_typeField_any.
  cbn [Qs.parseObject fold_right]. now rewrite wrap_index_any.
Qed.

Lemma parseKeys_labelField_any (i j : nat) (v : value) :
  Qs.parseKeys (labelField i j) v
  = VObj false
      [("questions",
        VObj (Nat.leb i Qs.arrayLimit)
          [(string_of_nat i,
            VObj false
              [("options",
                VObj (Nat.leb j Qs.arrayLimit)
                     [(string_of_nat j, VObj false [("label", v)])])])])].
Proof.
  unfold Qs.parseKeys. rewrite chain_of_labelField_any.
  cbn [Qs.parseObject fold_right]. now rewrite !wrap_index_any.
Qed.

Lemma own_get_in (k : string) (props : props_t) (x : value) :
  own_get k props = Some x -> In (k, x) props.
Proof.
  induction props as [|[k' v'] rest IH]; simpl; [discriminate|].
  destruct (String.eqb_spec k k') as [<-|Hne].
  - intros [= <-]. now left.
  - intros H. right. now apply IH.
Qed.

Lemma in_own_get (k : string) (x : value) (props : props_t) :
  In (k, x) props -> own_get k props <> None.
Proof.
  induction props as [|[k' v'] rest IH]; simpl; [contradiction|].
  intros [[= -> ->]|H].
  - now rewrite String.eqb_refl.
  - destruct (String.eqb k k'); [discriminate | now apply IH].
Qed.

Lemma own_get_set_defined (k k' : string) (v : value) (props : props_t) :
  own_get k' (own_set k v props) <> None <-> (k' = k \/ own_get k' props <> None).
Proof.
  destruct (String.eqb_spec k k') as [<-|Hne].
  - rewrite own_get_set_same. split; [now left | discriminate].
  - rewrite own_get_set_other by exact Hne. split; [now right|].
    intros [->|H]; [congruence | exact H].
Qed.

Lemma collect_keys (pairs : list (string * string)) (k : string) :
  own_get k (Qs.collect pairs) <> None <-> In k (map fst pairs).
Proof.
  unfold Qs.collect.
  assert (H : forall l acc,
            own_get k
              (fold_left
                 (fun obj kv =>
                    let (key, val) := kv : string * string in
                    match own_get key obj with
                    | Some old => own_set key (Qs.combine old (VStr val)) obj
                    | None => own_set key (VStr val) obj
                    end) l acc) <> None
            <-> (In k (map fst l) \/ own_get k acc <> None)).
  { induction l as [|[key val] l IH]; intros acc; cbn [fold_left map In fst].
    - split; [now right | now intros [[]|H]].
    - rewrite IH.
      assert (Hs : own_get k
                     match own_get key acc with
                     | Some old => own_set key (Qs.combine old (VStr val)) acc
                     | None => own_set key (VStr val) acc
                     end <> None
                   <-> (k = key \/ own_get k acc <> None))
        by (destruct (own_get key acc); apply own_get_set_defined).
      rewrite Hs. intuition congruence. }
  rewrite H. cbn [own_get]. intuition congruence.
Qed.

Lemma merge_title (props : props_t) (v : value) (kind : bool -> Prop) :
  questions_kind kind (VObj false props) ->
  questions_kind kind (Qs.merge (VObj false props) (VObj false [("title", v)])).
Proof.
  intros [props' [[= <-] H]]. cbn [Qs.merge andb].
  eexists. split; [reflexivity|].
  destruct (own_get "title" props); now rewrite own_get_set_other by discriminate.
Qed.

Lemma merge_questions (props : props_t) (a : bool) (x : props_t) (kind kind' : bool -> Prop) :
  questions_kind kind (VObj false props) ->
  (forall b, kind b -> kind' (b && a)) ->
  questions_kind kind'
    (Qs.merge (VObj false props) (VObj false [("questions", VObj a x)])).
Proof.
  intros [props' [[= <-] H]] Hk. cbn [Qs.merge andb].
  eexists. split; [reflexivity|].
  destruct (own_get "questions" props) as [[| | | | | b q]|]; try contradiction.
  - rewrite own_get_set_same. cbn [Qs.merge].
    specialize (Hk b H). destruct (b && a); exact Hk.
  - rewrite own_get_set_same. specialize (Hk true H). exact Hk.
Qed.

Lemma formFields_input_names (f : QuestionnaireForm) :
  Forall input_name (map fst (formFields f)).
Proof.
  unfold formFields. cbn [map fst]. constructor; [now left|].
  apply Forall_forall. intros k Hk. apply in_map_iff in Hk as [[k' v] [<- Hin]].
  apply in_concat_mapi in Hin as [i [q Hin]]. right. exists i.
  unfold questionFields in Hin. cbn [app In] in Hin.
  destruct Hin as [[= <- _]|[[= <- _]|Hin]]; [now left | now right; left|].
  right. right.
  destruct (type q); try contradiction.
  destruct (options q) as [os|]; [|contradiction].
  unfold optionFields in Hin.
  assert (H : forall l start, In (k', v) (mapi (fun j o => (labelField i j, label o)) start l) ->
                              exists j, k' = labelField i j).
  { induction l as [|o l IH]; simpl; intros start H; [contradiction|].
    destruct H as [[= <- _]|H]; [now exists start | now apply (IH (S start))]. }
  exact (H os 0 Hin).
Qed.

Lemma nameField_among_formFields (f : QuestionnaireForm) (i : nat) :
  i < List.length (questions f) -> In (nameField i) (map fst (formFields f)).
Proof.
  intros Hi. unfold formFields. cbn [map fst]. right.
  assert (H : forall l start n, n < List.length l ->
            In (nameField (start + n))
               (map fst (concat (mapi questionFields start l)))).
  { induction l as [|q l IH]; cbn [mapi concat List.length]; intros start n Hn; [lia|].
    rewrite map_app. apply in_or_app. destruct n as [|n].
    - left. rewrite Nat.add_0_r. unfold questionFields. now left.
    - right. rewrite Nat.add_succ_r. apply (IH (S start) n). lia. }
  exact (H (questions f) 0 i Hi).
Qed.

Lemma merge_entry_kind (kind : bool -> Prop) (obj : value) (k : string) (x : value) :
  input_name k ->
  (forall b, kind b -> kind false) ->
  questions_kind kind obj -> questions_kind kind (merge_entry obj (k, x)).
Proof.
  intros Hk Hkind Hobj. pose proof Hobj as [props [-> _]].
  assert (Hq : forall a y, questions_kind kind
                 (Qs.merge (VObj false props) (VObj false [("questions", VObj a y)]))).
  { intros a y. apply (merge_questions props a y kind kind Hobj).
    intros b Hb. destruct b, a; cbn [andb]; eauto. }
  unfold merge_entry. cbn [fst snd].
  destruct Hk as [->|[i [->|[->|[j ->]]]]].
  - now apply merge_title.
  - rewrite parseKeys_nameField_any. apply Hq.
  - rewrite parseKeys_typeField_any. apply Hq.
  - rewrite parseKeys_labelField_any. apply Hq.
Qed.

Lemma merge_entry_beyond (obj : value) (i : nat) (x : value) :
  Qs.arrayLimit < i ->
  questions_kind (fun _ => True) obj ->
  questions_kind (fun b => b = false) (merge_entry obj (nameField i, x)).
Proof.
  intros Hi Hobj. pose proof Hobj as [props [-> _]].
  unfold merge_entry. cbn [fst snd]. rewrite parseKeys_nameField_any.
  assert (Hl : Nat.leb i Qs.arrayLimit = false) by (apply Nat.leb_gt; exact Hi).
  rewrite Hl.
  apply (merge_questions props false _ (fun _ => True) (fun b => b = false) Hobj).
  intros b _. apply andb_false_r.
Qed.

Lemma fold_merge_kind (l : props_t) :
  Forall (fun kv => input_name (fst kv)) l ->
  forall obj,
    (questions_kind (fun b => b = false) obj ->
     questions_kind (fun b => b = false) (fold_left merge_entry l obj))
    /\ (questions_kind (fun _ => True) obj ->
        (exists i x, Qs.arrayLimit < i /\ In (nameField i, x) l) ->
        questions_kind (fun b => b = false) (fold_left merge_entry l obj)).
Proof.
  intros Hl. induction Hl as [|[k x] l Hk _ IH]; intros obj; cbn [fold_left].
  - split; [auto|]. intros _ [i [x [_ []]]].
  - cbn [fst] in Hk. split.
    + intros Hobj. apply (proj1 (IH _)).
      apply merge_entry_kind; auto.
    + intros Hobj [i [y [Hi [[= -> ->]|Hin]]]].
      * apply (proj1 (IH _)). now apply merge_entry_beyond.
      * apply (proj2 (IH _)); [|eauto].
        apply merge_entry_kind; auto.
Qed.

Lemma own_get_map (f : value -> value) (k : string) (props : props_t) :
  own_get k (map (fun kv => (fst kv, f (snd kv))) props)
  = option_map f (own_get k props).
Proof.
  induction props as [|[k' v] rest IH]; cbn [map own_get fst snd option_map]; [reflexivity|].
  now destruct (String.eqb k k').
Qed.

Lemma parse_beyond_limit (f : QuestionnaireForm) (text : string) :
  S Qs.arrayLimit < List.length (questions f) ->
  List.length (formFields f) <= Qs.parameterLimit ->
  pairs_of text = formFields f ->
  exists props qprops,
    Qs.parse text = VObj false props
    /\ own_get "questions" props = Some (VObj false qprops).
Proof.
  intros Hmany Hlen Hpairs. unfold pairs_of in Hpairs.
  assert (Htext : Qs.parse text
                  = Qs.compact (fold_left merge_entry (Qs.collect (formFields f))
                                          (VObj false []))).
  { unfold Qs.parse, Qs.parseValues.
    destruct text as [|c text']; [discriminate|].
    rewrite firstn_all2; [now rewrite Hpairs|].
    now rewrite <- (length_map Qs.parse_part), Hpairs. }
  assert (Hnames : Forall (fun kv => input_name (fst kv)) (Qs.collect (formFields f))).
  { apply Forall_forall. intros [k x] Hin. cbn [fst].
    apply in_own_get, collect_keys in Hin.
    pose proof (formFields_input_names f) as Hall.
    rewrite Forall_forall in Hall. now apply Hall. }
  assert (Hbeyond : exists i x, Qs.arrayLimit < i
                                /\ In (nameField i, x) (Qs.collect (formFields f))).
  { exists (S Qs.arrayLimit).
    pose proof (nameField_among_formFields f (S Qs.arrayLimit) Hmany) as Hin.
    apply collect_keys in Hin.
    destruct (own_get (nameField (S Qs.arrayLimit)) (Qs.collect (formFields f)))
      as [x|] eqn:E; [|congruence].
    exists x. split; [lia | now apply own_get_in]. }
  destruct (proj2 (fold_merge_kind _ Hnames (VObj false []))
                  (ex_intro _ [] (conj eq_refl I)) Hbeyond)
    as [props [Hfold Hq]].
  rewrite Htext, Hfold. cbn [Qs.compact].
  destruct (own_get "questions" props) as [[| | | | | a qprops]|] eqn:E;
    try contradiction; try discriminate.
  subst a. eexists. eexists. split; [reflexivity|].
  rewrite own_get_map, E. reflexivity.
Qed.

(** X17.  A form of more than [arrayLimit + 1] questions cannot be saved.
    When the body carries the inputs of a form with more than twenty-one
    questions, within the thousand pairs [qs.parse] reads, the parsed
    [questions] is a plain object and no array, whatever the questions
    hold; the action rejects the body and reports "Expected array,
    received object" at [questions]. *)
Theorem too_many_questions_are_rejected (f : QuestionnaireForm) (text : string) :
  S Qs.arrayLimit < List.length (questions f) ->
  List.length (formFields f) <= Qs.parameterLimit ->
  pairs_of text = formFields f ->
  plain_object (member (Qs.parse text) "questions")
  /\ exists tree,
       action text = Json (js_object [("errors", tree)])
       /\ member tree "questions" = VStr "Expected array, received object".
Proof.
  intros Hmany Hlen Hpairs.
  destruct (parse_beyond_limit f text Hmany Hlen Hpairs) as [props [qprops [Hp Hq]]].
  assert (Hm : member (Qs.parse text) "questions" = VObj false qprops)
    by (rewrite Hp; cbn [member]; now rewrite Hq).
  split; [rewrite Hm; eexists; reflexivity|].
  set (i0 := invalid_type_issue [SKey "questions"] "array" (VObj false qprops)).
  assert (Hin : In i0 (parse formSchema [] (VObj false props))).
  { unfold formSchema. rewrite !parse_object_cons. apply in_or_app. right.
    apply in_or_app. left. rewrite Hp in Hm. rewrite Hm. now left. }
  pose proof (every_issue_in_errorTree props i0 Hin) as Hn.
  unfold action, safeParse. rewrite Hp.
  destruct (parse formSchema [] (VObj false props)) as [|i rest] eqn:E; [destruct Hin|].
  eexists. split; [reflexivity|].
  cbn [keys map nested_at i0 invalid_type_issue issue_path message Lodash.toKey] in Hn.
  destruct Hn as [a [tprops [x [-> [Hget ->]]]]].
  cbn [member]. now rewrite Hget.
Qed.

Lemma too_many_questions_are_rejected_witness :
  well_formed manyQuestions = true
  /\ pairs_of (plainBody (formFields manyQuestions)) = formFields manyQuestions
  /\ exists tree,
       action (plainBody (formFields manyQuestions)) = Json (js_object [("errors", tree)])
       /\ member tree "questions" = VStr "Expected array, received object".
Proof.
  split; [reflexivity|].
  assert (H : pairs_of (plainBody (formFields manyQuestions)) = formFields manyQuestions)
    by (vm_compute; reflexivity).
  split; [exact H|].
  refine (proj2 (too_many_questions_are_rejected manyQuestions _ _ _ H)).
  - unfold Qs.arrayLimit. simpl. lia.
  - unfold Qs.parameterLimit. simpl. lia.
Defined.
